(** * Snake simulation engine ([SnakeGame] of [snake_game/gui.py])

    A shallow embedding of the game engine: the configuration record, the
    engine state with its deque, its three cell sets and its write-only
    occupancy grid, and the operations [reset], [spawn_snake], [move],
    [replenish_apples] and [queue_direction].

    Python integers are [Z]; [//] and [%] are [Z.div] and [Z.modulo], which
    round like Python's for every non-zero divisor.  Sets of cells are
    [gset (Z * Z)], the deque is a list with the head of the snake first.
    Exceptions are explicit ([Raise]).  [random.choice] reads its index from
    an explicit list of draws, so every outcome of the random generator is
    the behaviour of the model at some list of draws.

    The application [SnakeApp] follows the engine: its handlers, the checks
    of its settings form and what it draws, over the strings of its labels,
    the items of its canvas and the queue of its timer. *)

From Stdlib Require Import ZArith Lia.
From stdpp Require Import base gmap fin_sets strings list pretty.

Local Open Scope Z_scope.

(* stdpp's set_solver clears hypotheses that are already gone. *)
#[local] Set Warnings "-clear-no-such-hyp".

(** ** Exceptions and results *)

Inductive exn : Set := IndexError | ValueError | ZeroDivisionError.

Inductive result (A : Type) : Type :=
  | Ok (a : A)
  | Raise (e : exn)
  | OutOfFuel.
Arguments Ok {A} a.
Arguments Raise {A} e.
Arguments OutOfFuel {A}.

#[global] Instance result_ret : MRet result := λ A a, Ok a.
#[global] Instance result_bind : MBind result := λ A B k m,
  match m with
  | Ok a => k a
  | Raise e => Raise e
  | OutOfFuel => OutOfFuel
  end.

(** ** Constants and configuration *)

Definition MIN_GRID_SIZE : Z := 8.
Definition MAX_GRID_SIZE : Z := 60.
Definition MIN_CELL_SIZE : Z := 12.
Definition MAX_CELL_SIZE : Z := 48.
Definition MIN_SPEED_MS : Z := 40.
Definition MAX_SPEED_MS : Z := 500.
Definition MIN_APPLES : Z := 1.
Definition MAX_APPLES : Z := 100.
Definition MIN_INITIAL_LENGTH : Z := 2.

Module SnakeConfig.

Record t : Set := mk {
  grid_size : Z;
  cell_size : Z;
  speed_ms : Z;
  apples : Z;
  initial_length : Z;
  wrap_walls : bool;
  show_grid : bool
}.

(** The defaults of the dataclass. *)
Definition default : t :=
  {| grid_size := 20; cell_size := 28; speed_ms := 100; apples := 3;
     initial_length := 3; wrap_walls := false; show_grid := true |}.

End SnakeConfig.

(** The settings [SnakeApp.apply_settings] lets through to the engine. *)
Definition settings_accept (cfg : SnakeConfig.t) : Prop :=
  let grid_size := SnakeConfig.grid_size cfg in
  let initial_length := SnakeConfig.initial_length cfg in
  MIN_GRID_SIZE ≤ grid_size ≤ MAX_GRID_SIZE
  ∧ MIN_CELL_SIZE ≤ SnakeConfig.cell_size cfg ≤ MAX_CELL_SIZE
  ∧ MIN_SPEED_MS ≤ SnakeConfig.speed_ms cfg ≤ MAX_SPEED_MS
  ∧ MIN_APPLES ≤ SnakeConfig.apples cfg ≤ MAX_APPLES
  ∧ MIN_INITIAL_LENGTH ≤ initial_length ≤ grid_size
  ∧ SnakeConfig.apples cfg
    ≤ Z.max 1 (grid_size * grid_size - initial_length).

(** ** Engine state *)

Abbreviation pos := (Z * Z)%type.

Record SnakeGame : Type := mkGame {
  config : SnakeConfig.t;
  grid : list (list Z);
  snake : list pos;
  snake_set : gset pos;
  apples : gset pos;
  free_tiles : gset pos;
  direction : string;
  pending_direction : string;
  running : bool;
  alive : bool;
  score : Z
}.

Definition with_alive (b : bool) (s : SnakeGame) : SnakeGame :=
  mkGame (config s) (grid s) (snake s) (snake_set s) (apples s) (free_tiles s)
         (direction s) (pending_direction s) (running s) b (score s).

Definition with_direction (d : string) (s : SnakeGame) : SnakeGame :=
  mkGame (config s) (grid s) (snake s) (snake_set s) (apples s) (free_tiles s)
         d (pending_direction s) (running s) (alive s) (score s).

Definition with_pending_direction (d : string) (s : SnakeGame) : SnakeGame :=
  mkGame (config s) (grid s) (snake s) (snake_set s) (apples s) (free_tiles s)
         (direction s) d (running s) (alive s) (score s).

Definition with_cells (sn : list pos) (ss ap fr : gset pos) (s : SnakeGame)
  : SnakeGame :=
  mkGame (config s) (grid s) sn ss ap fr
         (direction s) (pending_direction s) (running s) (alive s) (score s).

Definition with_score (n : Z) (s : SnakeGame) : SnakeGame :=
  mkGame (config s) (grid s) (snake s) (snake_set s) (apples s) (free_tiles s)
         (direction s) (pending_direction s) (running s) (alive s) n.

Definition with_grid (g : list (list Z)) (s : SnakeGame) : SnakeGame :=
  mkGame (config s) g (snake s) (snake_set s) (apples s) (free_tiles s)
         (direction s) (pending_direction s) (running s) (alive s) (score s).

(** ** Python primitives used by the engine *)

(** [range(n)]: empty when [n <= 0]. *)
Definition range (n : Z) : list Z := seqZ 0 n.

(** Index normalisation of [l[i]]: negative indices count from the end. *)
Definition py_index {A} (l : list A) (i : Z) : result nat :=
  let n := Z.of_nat (length l) in
  if decide (0 ≤ i < n) then Ok (Z.to_nat i)
  else if decide (- n ≤ i < 0) then Ok (Z.to_nat (i + n))
  else Raise IndexError.

(** [g[y][x] = v]. *)
Definition grid_set (g : list (list Z)) (x y v : Z) : result (list (list Z)) :=
  iy ← py_index g y;
  match g !! iy with
  | None => Raise IndexError
  | Some row =>
      ix ← py_index row x;
      Ok (<[iy := <[ix := v]> row]> g)
  end.

(** [min(...)] and [max(...)] of a sequence: [ValueError] when empty. *)
Definition py_min (l : list Z) : result Z :=
  match l with
  | [] => Raise ValueError
  | x :: l' => Ok (foldl Z.min x l')
  end.

Definition py_max (l : list Z) : result Z :=
  match l with
  | [] => Raise ValueError
  | x :: l' => Ok (foldl Z.max x l')
  end.

(** [a % b]. *)
Definition py_mod (a b : Z) : result Z :=
  if decide (b = 0) then Raise ZeroDivisionError else Ok (a `mod` b).

(** [d[0]], [d[-1]] and [d.pop()] on a deque. *)
Definition deque_first (d : list pos) : result pos :=
  match d with
  | [] => Raise IndexError
  | p :: _ => Ok p
  end.

Definition deque_last (d : list pos) : result pos :=
  match last d with
  | None => Raise IndexError
  | Some p => Ok p
  end.

Definition deque_pop (d : list pos) : result (pos * list pos) :=
  match last d with
  | None => Raise IndexError
  | Some p => Ok (p, removelast d)
  end.

(** [random.choice(seq)]: the next draw, reduced modulo the length, indexes
    the sequence.  An exhausted list of draws reads as 0. *)
Definition random_choice {A} (seq : list A) (rng : list nat)
  : result (A * list nat) :=
  match seq !! (hd 0%nat rng `mod` length seq)%nat with
  | None => Raise IndexError
  | Some x => Ok (x, tl rng)
  end.

(** ** The engine *)

(** [{(x, y) for x in range(size) for y in range(size)}] *)
Definition all_cells (size : Z) : gset pos :=
  list_to_set (x ← range size; y ← range size; [(x, y)]).

(** The positions [spawn_snake] settles on, head first. *)
Definition spawn_positions (size length : Z) : result (list pos) :=
  let center_y := size `div` 2 in
  let center_x := size `div` 2 in
  let positions : list pos :=
    (λ i, (center_x - i, center_y)) <$> range length in
  min_x ← py_min (fst <$> positions);
  max_x ← py_max (fst <$> positions);
  if bool_decide (min_x < 0) || bool_decide (size ≤ max_x) then
    let tail_x := (size - length) `div` 2 in
    let head_x := tail_x + length - 1 in
    Ok ((λ i, (head_x - i, center_y)) <$> range length)
  else Ok positions.

(** The [for x, y in positions] loop of [spawn_snake]. *)
Fixpoint spawn_loop (positions : list pos) (s : SnakeGame) : result SnakeGame :=
  match positions with
  | [] => Ok s
  | (x, y) :: rest =>
      let s := with_cells (snake s ++ [(x, y)]) (snake_set s ∪ {[(x, y)]})
                          (apples s) (free_tiles s ∖ {[(x, y)]}) s in
      g ← grid_set (grid s) x y 1;
      spawn_loop rest (with_grid g s)
  end.

Definition spawn_snake (s : SnakeGame) (length : Z) : result SnakeGame :=
  positions ← spawn_positions (SnakeConfig.grid_size (config s)) length;
  spawn_loop positions s.

Definition _next_head (s : SnakeGame) (direction : string) : result pos :=
  '(head_x, head_y) ← deque_first (snake s);
  if decide (direction = "up") then Ok (head_x, head_y - 1)
  else if decide (direction = "down") then Ok (head_x, head_y + 1)
  else if decide (direction = "left") then Ok (head_x - 1, head_y)
  else Ok (head_x + 1, head_y).

Definition _in_bounds (s : SnakeGame) (x y : Z) : bool :=
  let size := SnakeConfig.grid_size (config s) in
  bool_decide (0 ≤ x < size) && bool_decide (0 ≤ y < size).

(** The [while] loop of [replenish_apples].  Every iteration removes a cell
    from the free tiles, so [fuel] bounds the number of iterations. *)
Fixpoint replenish_loop (fuel : nat) (target : Z) (ap fr : gset pos)
    (rng : list nat) : result (gset pos * gset pos * list nat) :=
  if bool_decide (Z.of_nat (size ap) < target) && negb (bool_decide (fr = ∅))
  then
    match fuel with
    | O => OutOfFuel
    | S fuel' =>
        '(p, rng') ← random_choice (elements fr) rng;
        replenish_loop fuel' target (ap ∪ {[p]}) (fr ∖ {[p]}) rng'
    end
  else Ok (ap, fr, rng).

Definition replenish_apples (s : SnakeGame) (rng : list nat)
  : result (SnakeGame * list nat) :=
  let target :=
    Z.min (SnakeConfig.apples (config s)) (Z.of_nat (size (free_tiles s))) in
  '(ap, fr, rng') ←
    replenish_loop (size (free_tiles s)) target (apples s) (free_tiles s) rng;
  Ok (with_cells (snake s) (snake_set s) ap fr s, rng').

(** The fields as [reset] assigns them, before the snake is spawned. *)
Definition blank (cfg : SnakeConfig.t) : SnakeGame :=
  let size := SnakeConfig.grid_size cfg in
  {| config := cfg;
     grid := (λ _, (λ _, 0) <$> range size) <$> range size;
     snake := [];
     snake_set := ∅;
     apples := ∅;
     free_tiles := all_cells size;
     direction := "right";
     pending_direction := "right";
     running := false;
     alive := true;
     score := 0 |}.

Definition reset (cfg : SnakeConfig.t) (rng : list nat)
  : result (SnakeGame * list nat) :=
  s ← spawn_snake (blank cfg) (SnakeConfig.initial_length cfg);
  replenish_apples s rng.

(** The part of [move] after the wall handling, from [new_head = (new_x,
    new_y)] to the end; both branches of the wall handling that do not
    return continue here. *)
Definition move_onto (s : SnakeGame) (new_head : pos) (rng : list nat)
  : result (bool * SnakeGame * list nat) :=
  let growing := bool_decide (new_head ∈ apples s) in
  tail ← deque_last (snake s);
  if bool_decide (new_head ∈ snake_set s)
     && negb (negb growing && bool_decide (new_head = tail))
  then Ok (false, with_alive false s, rng)
  else
    let s := with_cells (new_head :: snake s) (snake_set s ∪ {[new_head]})
                        (apples s) (free_tiles s ∖ {[new_head]}) s in
    s ← (if growing then
           Ok (with_score (score s + 1)
                 (with_cells (snake s) (snake_set s) (apples s ∖ {[new_head]})
                             (free_tiles s) s))
         else
           '(old_tail, rest) ← deque_pop (snake s);
           Ok (with_cells rest (snake_set s ∖ {[old_tail]}) (apples s)
                          (free_tiles s ∪ {[old_tail]}) s));
    '(s, rng') ← replenish_apples s rng;
    Ok (true, s, rng').

Definition move (s : SnakeGame) (rng : list nat)
  : result (bool * SnakeGame * list nat) :=
  if negb (alive s) then Ok (false, s, rng)
  else
    let s := with_direction (pending_direction s) s in
    '(new_x, new_y) ← _next_head s (direction s);
    if SnakeConfig.wrap_walls (config s) then
      let size := SnakeConfig.grid_size (config s) in
      new_x ← py_mod new_x size;
      new_y ← py_mod new_y size;
      move_onto s (new_x, new_y) rng
    else if negb (_in_bounds s new_x new_y) then
      Ok (false, with_alive false s, rng)
    else move_onto s (new_x, new_y) rng.

Definition opposites : gmap string string :=
  list_to_map
    [("up", "down"); ("down", "up"); ("left", "right"); ("right", "left")].

Definition queue_direction (s : SnakeGame) (new_direction : string)
  : SnakeGame :=
  match opposites !! new_direction with
  | None => s
  | Some opp =>
      if bool_decide (1 < length (snake s))%nat && bool_decide (opp = direction s)
      then s
      else with_pending_direction new_direction s
  end.

(** ** Runs of the engine *)

Inductive call : Set :=
  | Move
  | Queue (d : string).

(** A driver: [reset], then the calls in order, the draws threaded through. *)
Fixpoint run_calls (cs : list call) (s : SnakeGame) (rng : list nat)
  : result (SnakeGame * list nat) :=
  match cs with
  | [] => Ok (s, rng)
  | Move :: cs' =>
      '(_, s', rng') ← move s rng;
      run_calls cs' s' rng'
  | Queue d :: cs' => run_calls cs' (queue_direction s d) rng
  end.

Definition run (cfg : SnakeConfig.t) (cs : list call) (rng : list nat)
  : result (SnakeGame * list nat) :=
  '(s, rng') ← reset cfg rng;
  run_calls cs s rng'.

(** The states the engine can be in: after [reset], and after any further
    [move] (at any draws) or [queue_direction]. *)
Inductive reachable (cfg : SnakeConfig.t) : SnakeGame → Prop :=
  | reach_reset rng s rng' :
      reset cfg rng = Ok (s, rng') → reachable cfg s
  | reach_move s rng b s' rng' :
      reachable cfg s → move s rng = Ok (b, s', rng') → reachable cfg s'
  | reach_queue s d :
      reachable cfg s → reachable cfg (queue_direction s d).

(** ** Notions the properties are stated with *)

(** The state after line 92 of [move]: the queued direction is committed. *)
Definition committed (s : SnakeGame) : SnakeGame :=
  with_direction (pending_direction s) s.

(** The candidate head of [move] after the wall handling (lines 93 to 103),
    computed on the committed state: [None] is the wall collision. *)
Definition new_head (s : SnakeGame) : result (option pos) :=
  '(new_x, new_y) ← _next_head s (direction s);
  if SnakeConfig.wrap_walls (config s) then
    let size := SnakeConfig.grid_size (config s) in
    new_x ← py_mod new_x size;
    new_y ← py_mod new_y size;
    Ok (Some (new_x, new_y))
  else if negb (_in_bounds s new_x new_y) then Ok None
  else Ok (Some (new_x, new_y)).

(** A cell of the grid. *)
Definition in_grid (size : Z) (p : pos) : Prop :=
  0 ≤ p.1 < size ∧ 0 ≤ p.2 < size.

(** The three cell sets partition the grid. *)
Definition partitioned (s : SnakeGame) : Prop :=
  snake_set s ## apples s ∧ snake_set s ## free_tiles s
  ∧ apples s ## free_tiles s
  ∧ snake_set s ∪ apples s ∪ free_tiles s
    = all_cells (SnakeConfig.grid_size (config s)).

(** Every cell of the grid is in one of the three sets. *)
Definition covered (s : SnakeGame) : Prop :=
  ∀ p, in_grid (SnakeConfig.grid_size (config s)) p →
       p ∈ snake_set s ∪ apples s ∪ free_tiles s.

(** The apple count has reached the target of [replenish_apples]. *)
Definition stocked (s : SnakeGame) : Prop :=
  Z.min (SnakeConfig.apples (config s)) (Z.of_nat (size (free_tiles s)))
  ≤ Z.of_nat (size (apples s)).

(** The horizontal line of [len] cells whose head, its rightmost cell, is
    at [(head_x, y)]. *)
Definition line (head_x y len : Z) : list pos :=
  (λ i, (head_x - i, y)) <$> range len.

(** A square grid of side [n]. *)
Definition square (n : nat) (g : list (list Z)) : Prop :=
  length g = n ∧ Forall (λ row, length row = n) g.

(** The state of a growing move before the apples are replenished. *)
Definition grown (s : SnakeGame) (nh : pos) : SnakeGame :=
  with_score (score s + 1)
    (with_cells (nh :: snake s) (snake_set s ∪ {[nh]}) (apples s ∖ {[nh]})
                (free_tiles s ∖ {[nh]}) s).

(** The state of a move that does not grow before the apples are
    replenished: [tl] is the cell popped from the deque. *)
Definition slid (s : SnakeGame) (nh tl : pos) : SnakeGame :=
  with_cells (removelast (nh :: snake s)) ((snake_set s ∪ {[nh]}) ∖ {[tl]})
             (apples s) ((free_tiles s ∖ {[nh]}) ∪ {[tl]}) s.

(** The bookkeeping agrees with the deque: the occupancy set holds exactly
    the cells of the deque, these are distinct cells of the grid, and the
    three sets partition the grid. *)
Definition consistent (s : SnakeGame) : Prop :=
  snake_set s = list_to_set (snake s)
  ∧ NoDup (snake s)
  ∧ partitioned s.

(** The four directions, and the pairs of opposite directions. *)
Definition valid_directions : list string := ["up"; "down"; "left"; "right"].

Definition is_opposite (d current : string) : Prop :=
  (d, current)
  ∈ [("up", "down"); ("down", "up"); ("left", "right"); ("right", "left")].

(** What [queue_direction] leaves alone: every field but the queued one. *)
Definition same_but_pending (s s' : SnakeGame) : Prop :=
  s' = with_pending_direction (pending_direction s') s.

(** What [replenish_apples] leaves alone: every field but the two sets. *)
Definition same_but_apples (s s' : SnakeGame) : Prop :=
  s' = with_cells (snake s) (snake_set s) (apples s') (free_tiles s') s.

(** ** Concrete runs *)

(** Queue each direction and advance one tick. *)
Definition steer (ds : list string) : list call :=
  d ← ds; [Queue d; Move].

(** 8 x 8 board, one apple, snake of six cells, walls closed. *)
Definition cfg_six : SnakeConfig.t :=
  {| SnakeConfig.grid_size := 8; SnakeConfig.cell_size := 28;
     SnakeConfig.speed_ms := 100; SnakeConfig.apples := 1;
     SnakeConfig.initial_length := 6; SnakeConfig.wrap_walls := false;
     SnakeConfig.show_grid := true |}.

(** 8 x 8 board, one apple, snake of four cells, walls closed. *)
Definition cfg_four : SnakeConfig.t :=
  {| SnakeConfig.grid_size := 8; SnakeConfig.cell_size := 28;
     SnakeConfig.speed_ms := 100; SnakeConfig.apples := 1;
     SnakeConfig.initial_length := 4; SnakeConfig.wrap_walls := false;
     SnakeConfig.show_grid := true |}.

(** 8 x 8 board on which every free tile holds an apple after [reset]. *)
Definition cfg_full : SnakeConfig.t :=
  {| SnakeConfig.grid_size := 8; SnakeConfig.cell_size := 28;
     SnakeConfig.speed_ms := 100; SnakeConfig.apples := 62;
     SnakeConfig.initial_length := 2; SnakeConfig.wrap_walls := false;
     SnakeConfig.show_grid := true |}.

(** 2 x 2 board, the same situation in three ticks. *)
Definition cfg_tiny : SnakeConfig.t :=
  {| SnakeConfig.grid_size := 2; SnakeConfig.cell_size := 28;
     SnakeConfig.speed_ms := 100; SnakeConfig.apples := 2;
     SnakeConfig.initial_length := 2; SnakeConfig.wrap_walls := false;
     SnakeConfig.show_grid := true |}.

(** Small boards with closed walls. *)
Definition cfg_small (size len ap : Z) : SnakeConfig.t :=
  {| SnakeConfig.grid_size := size; SnakeConfig.cell_size := 28;
     SnakeConfig.speed_ms := 100; SnakeConfig.apples := ap;
     SnakeConfig.initial_length := len; SnakeConfig.wrap_walls := false;
     SnakeConfig.show_grid := true |}.

(** Draws for the board [cfg_four]: the apple of [reset] lands on (3,5),
    the apple drawn after it is eaten on (3,4). *)
Definition draws_four : list nat := [19; 32]%nat.

(** A tour of the 8 x 8 board from (4,4) that ends beside the tail (3,4). *)
Definition tour_full : list string :=
  replicate 3 "right" ++ ["down"] ++ replicate 6 "left" ++ ["down"]
  ++ replicate 6 "right" ++ ["down"] ++ replicate 7 "left"
  ++ replicate 7 "up" ++ replicate 7 "right" ++ ["down"]
  ++ replicate 6 "left" ++ ["down"] ++ replicate 6 "right" ++ ["down"]
  ++ replicate 6 "left" ++ ["down"; "right"].

(** 3 x 3 board with open walls, snake of two cells. *)
Definition cfg_wrap : SnakeConfig.t :=
  {| SnakeConfig.grid_size := 3; SnakeConfig.cell_size := 28;
     SnakeConfig.speed_ms := 100; SnakeConfig.apples := 1;
     SnakeConfig.initial_length := 2; SnakeConfig.wrap_walls := true;
     SnakeConfig.show_grid := true |}.

(** A board with a single free tile, (1,0), and three apples configured. *)
Definition one_free : SnakeGame :=
  with_cells [(1, 1); (0, 1); (0, 0)] {[(1, 1); (0, 1); (0, 0)]} ∅ {[(1, 0)]}
             (blank (cfg_small 2 3 3)).

Definition is_ok {A} (r : result A) : bool :=
  match r with
  | Ok _ => true
  | _ => false
  end.

(** The state a run ends in (the blank state if it raised). *)
Definition state_after (cfg : SnakeConfig.t) (cs : list call) (rng : list nat)
  : SnakeGame :=
  match run cfg cs rng with
  | Ok (s, _) => s
  | _ => blank cfg
  end.

(** ** The application ([SnakeApp])

    The part of the Tk application that decides what happens: the handlers
    of the buttons, of the keys and of the timer, the checks of the settings
    form, and what [draw] puts on the canvas.  The widgets are what the
    handlers read and write:
    - a [StringVar] is the string it holds;
    - the canvas is the list of the items created since the last
      [delete("all")], with its configured width and height;
    - the [after] queue of Tk is the set of the callbacks that are queued
      ([timers]); [root.after] queues one under a fresh id,
      [root.after_cancel] drops one, and a callback that fires leaves the
      queue before it runs;
    - the text of an entry of the form is given by what [int] makes of it:
      [Some n], or [None] where [int] raises [ValueError];
    - [messagebox.showerror] is the message that the handler returns.

    The engine never reads [running]; the application sets it. *)

Definition with_running (b : bool) (s : SnakeGame) : SnakeGame :=
  mkGame (config s) (grid s) (snake s) (snake_set s) (apples s) (free_tiles s)
         (direction s) (pending_direction s) b (alive s) (score s).

(** A result of [move], with [running] set in its state. *)
Definition keep_running (b : bool)
    (r : result (bool * SnakeGame * list nat)) :=
  match r with
  | Ok (ok, s, rng) => Ok (ok, with_running b s, rng)
  | Raise e => Raise e
  | OutOfFuel => OutOfFuel
  end.

#[global] Instance is_opposite_dec d current : Decision (is_opposite d current).
Proof. unfold is_opposite. apply _. Defined.

(** What [draw] creates on the canvas, with the options it passes but the
    font and the outline, which is empty wherever it is given. *)
Inductive item : Set :=
  | Line (x1 y1 x2 y2 : Z) (fill : string)
  | Oval (x1 y1 x2 y2 : Z) (fill : string)
  | Rectangle (x1 y1 x2 y2 : Z) (fill : string) (stipple : option string)
  | Text (x y : Z) (text fill : string).

Definition GRID_COLOR : string := "#293340".
Definition SNAKE_HEAD : string := "#45d483".
Definition SNAKE_BODY : string := "#1fb86b".
Definition APPLE_COLOR : string := "#ff5c74".
Definition TEXT_PRIMARY : string := "#e6eef7".
Definition TEXT_MUTED : string := "#95a4b8".

Module SnakeApp.

Record t : Type := mk {
  config : SnakeConfig.t;
  game : SnakeGame;
  after_id : option nat;
  score_var : string;
  length_var : string;
  state_var : string;
  canvas_width : Z;
  canvas_height : Z;
  canvas : list item;
  timers : gset nat;
  next_timer : nat
}.

End SnakeApp.

Definition with_config (c : SnakeConfig.t) (a : SnakeApp.t) : SnakeApp.t :=
  SnakeApp.mk c (SnakeApp.game a) (SnakeApp.after_id a)
    (SnakeApp.score_var a) (SnakeApp.length_var a) (SnakeApp.state_var a)
    (SnakeApp.canvas_width a) (SnakeApp.canvas_height a) (SnakeApp.canvas a)
    (SnakeApp.timers a) (SnakeApp.next_timer a).

Definition with_game (g : SnakeGame) (a : SnakeApp.t) : SnakeApp.t :=
  SnakeApp.mk (SnakeApp.config a) g (SnakeApp.after_id a)
    (SnakeApp.score_var a) (SnakeApp.length_var a) (SnakeApp.state_var a)
    (SnakeApp.canvas_width a) (SnakeApp.canvas_height a) (SnakeApp.canvas a)
    (SnakeApp.timers a) (SnakeApp.next_timer a).

Definition with_after_id (i : option nat) (a : SnakeApp.t) : SnakeApp.t :=
  SnakeApp.mk (SnakeApp.config a) (SnakeApp.game a) i
    (SnakeApp.score_var a) (SnakeApp.length_var a) (SnakeApp.state_var a)
    (SnakeApp.canvas_width a) (SnakeApp.canvas_height a) (SnakeApp.canvas a)
    (SnakeApp.timers a) (SnakeApp.next_timer a).

Definition with_state_var (v : string) (a : SnakeApp.t) : SnakeApp.t :=
  SnakeApp.mk (SnakeApp.config a) (SnakeApp.game a) (SnakeApp.after_id a)
    (SnakeApp.score_var a) (SnakeApp.length_var a) v
    (SnakeApp.canvas_width a) (SnakeApp.canvas_height a) (SnakeApp.canvas a)
    (SnakeApp.timers a) (SnakeApp.next_timer a).

(** [root.after(ms, self.tick)]: the callback is queued under a fresh id,
    which is returned. *)
Definition root_after (a : SnakeApp.t) : nat * SnakeApp.t :=
  let id := SnakeApp.next_timer a in
  (id,
   SnakeApp.mk (SnakeApp.config a) (SnakeApp.game a) (SnakeApp.after_id a)
     (SnakeApp.score_var a) (SnakeApp.length_var a) (SnakeApp.state_var a)
     (SnakeApp.canvas_width a) (SnakeApp.canvas_height a) (SnakeApp.canvas a)
     (SnakeApp.timers a ∪ {[id]}) (S id)).

(** [root.after_cancel(id)]: the callback is dropped if it is still queued. *)
Definition root_after_cancel (id : nat) (a : SnakeApp.t) : SnakeApp.t :=
  SnakeApp.mk (SnakeApp.config a) (SnakeApp.game a) (SnakeApp.after_id a)
    (SnakeApp.score_var a) (SnakeApp.length_var a) (SnakeApp.state_var a)
    (SnakeApp.canvas_width a) (SnakeApp.canvas_height a) (SnakeApp.canvas a)
    (SnakeApp.timers a ∖ {[id]}) (SnakeApp.next_timer a).

Definition _apply_canvas_size (a : SnakeApp.t) : SnakeApp.t :=
  let side_pixels :=
    SnakeConfig.grid_size (SnakeApp.config a)
    * SnakeConfig.cell_size (SnakeApp.config a) in
  SnakeApp.mk (SnakeApp.config a) (SnakeApp.game a) (SnakeApp.after_id a)
    (SnakeApp.score_var a) (SnakeApp.length_var a) (SnakeApp.state_var a)
    side_pixels side_pixels (SnakeApp.canvas a)
    (SnakeApp.timers a) (SnakeApp.next_timer a).

Definition _cancel_loop (a : SnakeApp.t) : SnakeApp.t :=
  match SnakeApp.after_id a with
  | Some id => with_after_id None (root_after_cancel id a)
  | None => a
  end.

(** The items [draw] creates, in the order of creation: the grid lines, the
    apples, the snake, the overlay of a finished game.  The apples come in
    the order in which the set is enumerated, which nothing below relies
    on. *)
Definition draw_items (cfg : SnakeConfig.t) (g : SnakeGame) : list item :=
  let size := SnakeConfig.grid_size cfg in
  let cell := SnakeConfig.cell_size cfg in
  (if SnakeConfig.show_grid cfg then
     i ← range (size + 1);
     let pos := i * cell in
     [Line 0 pos (size * cell) pos GRID_COLOR;
      Line pos 0 pos (size * cell) GRID_COLOR]
   else [])
  ++ ((λ '(x, y),
        Oval (x * cell + 4) (y * cell + 4)
             ((x + 1) * cell - 4) ((y + 1) * cell - 4) APPLE_COLOR)
      <$> elements (apples g))
  ++ imap (λ idx '(x, y),
        let color := if decide (idx = 0%nat) then SNAKE_HEAD else SNAKE_BODY in
        Rectangle (x * cell + 2) (y * cell + 2)
                  ((x + 1) * cell - 2) ((y + 1) * cell - 2) color None)
      (snake g)
  ++ (if negb (alive g) then
        let side := size * cell in
        [Rectangle 0 0 side side "#000000" (Some "gray50");
         Text (side `div` 2) (side `div` 2 - 12) "Game Over" TEXT_PRIMARY;
         Text (side `div` 2) (side `div` 2 + 20) "Press Reset or Start"
              TEXT_MUTED]
      else []).

Definition draw (a : SnakeApp.t) : SnakeApp.t :=
  SnakeApp.mk (SnakeApp.config a) (SnakeApp.game a) (SnakeApp.after_id a)
    ("Score: " +:+ pretty (score (SnakeApp.game a)))
    ("Length: " +:+ pretty (length (snake (SnakeApp.game a))))
    (SnakeApp.state_var a)
    (SnakeApp.canvas_width a) (SnakeApp.canvas_height a)
    (draw_items (SnakeApp.config a) (SnakeApp.game a))
    (SnakeApp.timers a) (SnakeApp.next_timer a).

Definition tick (a : SnakeApp.t) (rng : list nat)
  : result (SnakeApp.t * list nat) :=
  let a := _cancel_loop a in
  if negb (running (SnakeApp.game a)) then Ok (a, rng)
  else
    '(moved, g, rng') ← move (SnakeApp.game a) rng;
    let a := with_game g a in
    if negb moved then
      let a := with_game (with_running false (SnakeApp.game a)) a in
      let a := with_state_var "State: Game Over" a in
      Ok (draw a, rng')
    else
      let a := draw a in
      let '(id, a) := root_after a in
      Ok (with_after_id (Some id) a, rng').

Definition start_game (a : SnakeApp.t) (rng : list nat)
  : result (SnakeApp.t * list nat) :=
  '(a, rng) ←
    (if negb (alive (SnakeApp.game a)) then
       '(g, rng') ← reset (config (SnakeApp.game a)) rng;
       Ok (with_game g a, rng')
     else Ok (a, rng));
  let a := with_game (with_running true (SnakeApp.game a)) a in
  let a := with_state_var "State: Running" a in
  tick a rng.

Definition toggle_pause (a : SnakeApp.t) (rng : list nat)
  : result (SnakeApp.t * list nat) :=
  if negb (alive (SnakeApp.game a)) then Ok (a, rng)
  else
    let a :=
      with_game (with_running (negb (running (SnakeApp.game a)))
                   (SnakeApp.game a)) a in
    if running (SnakeApp.game a) then
      tick (with_state_var "State: Running" a) rng
    else Ok (_cancel_loop (with_state_var "State: Paused" a), rng).

Definition reset_game (a : SnakeApp.t) (rng : list nat)
  : result (SnakeApp.t * list nat) :=
  let a := _cancel_loop a in
  '(g, rng') ← reset (SnakeApp.config a) rng;
  Ok (draw (with_state_var "State: Ready" (with_game g a)), rng').

(** [_parse_int], given what [int(raw)] returns; [inr] is the message of
    the [ValueError] it raises. *)
Definition _parse_int (parsed : option Z) (low high : Z) (label : string)
  : Z + string :=
  match parsed with
  | None => inr (label +:+ " must be an integer.")
  | Some value =>
      if negb (bool_decide (low ≤ value ≤ high)) then
        inr (label +:+ " must be between " +:+ pretty low +:+ " and "
             +:+ pretty high +:+ ".")
      else inl value
  end.

(** The settings form: the five entries as [int] reads them, and the two
    check boxes. *)
Record form : Set := mkForm {
  grid_size_var : option Z;
  cell_size_var : option Z;
  speed_var : option Z;
  apples_var : option Z;
  length_setting_var : option Z;
  wrap_var : bool;
  show_grid_var : bool
}.

(** [_build_controls] fills the form from a configuration ([int] reads back
    what [str] wrote). *)
Definition form_of (cfg : SnakeConfig.t) : form :=
  {| grid_size_var := Some (SnakeConfig.grid_size cfg);
     cell_size_var := Some (SnakeConfig.cell_size cfg);
     speed_var := Some (SnakeConfig.speed_ms cfg);
     apples_var := Some (SnakeConfig.apples cfg);
     length_setting_var := Some (SnakeConfig.initial_length cfg);
     wrap_var := SnakeConfig.wrap_walls cfg;
     show_grid_var := SnakeConfig.show_grid cfg |}.

(** The checks of [apply_settings], up to the construction of the new
    configuration: the configuration, or the text of the error box. *)
Definition read_settings (f : form) : SnakeConfig.t + string :=
  match _parse_int (grid_size_var f) MIN_GRID_SIZE MAX_GRID_SIZE "Grid size" with
  | inr msg => inr msg
  | inl grid_size =>
  match _parse_int (cell_size_var f) MIN_CELL_SIZE MAX_CELL_SIZE "Cell size" with
  | inr msg => inr msg
  | inl cell_size =>
  match _parse_int (speed_var f) MIN_SPEED_MS MAX_SPEED_MS "Speed" with
  | inr msg => inr msg
  | inl speed_ms =>
  match _parse_int (apples_var f) MIN_APPLES MAX_APPLES "Apples" with
  | inr msg => inr msg
  | inl apples =>
  match _parse_int (length_setting_var f) MIN_INITIAL_LENGTH grid_size
          "Initial length" with
  | inr msg => inr msg
  | inl initial_length =>
      let max_apples_by_tiles :=
        Z.max 1 (grid_size * grid_size - initial_length) in
      if bool_decide (max_apples_by_tiles < apples) then
        inr ("Apples is too high for the selected grid and snake length. "
             +:+ "Maximum allowed is " +:+ pretty max_apples_by_tiles +:+ ".")
      else
        inl (SnakeConfig.mk grid_size cell_size speed_ms apples initial_length
               (wrap_var f) (show_grid_var f))
  end end end end end.

(** [apply_settings]: the new state, and the text of the error box if one
    is shown. *)
Definition apply_settings (a : SnakeApp.t) (f : form) (rng : list nat)
  : result (SnakeApp.t * option string * list nat) :=
  match read_settings f with
  | inr msg => Ok (a, Some msg, rng)
  | inl cfg =>
      let a := with_config cfg a in
      '(g, rng') ← reset (SnakeApp.config a) rng;
      let a := with_game g a in
      let a := _cancel_loop a in
      let a := _apply_canvas_size a in
      let a := with_state_var "State: Ready" a in
      Ok (draw a, None, rng')
  end.

(** [_bind_keys]: the direction that a key queues. *)
Definition key_direction : gmap string string :=
  list_to_map
    [("<Up>", "up"); ("<Down>", "down"); ("<Left>", "left");
     ("<Right>", "right"); ("w", "up"); ("s", "down"); ("a", "left");
     ("d", "right")].

Definition press_key (a : SnakeApp.t) (k : string) (rng : list nat)
  : result (SnakeApp.t * list nat) :=
  match key_direction !! k with
  | Some d => Ok (with_game (queue_direction (SnakeApp.game a) d) a, rng)
  | None =>
      if decide (k = "<space>") then toggle_pause a rng else Ok (a, rng)
  end.

(** [SnakeApp.__init__].  The size of the canvas is Tk's own until
    [_apply_canvas_size] sets it; it is not read before. *)
Definition init (rng : list nat) : result (SnakeApp.t * list nat) :=
  let cfg := SnakeConfig.default in
  '(g, rng') ← reset cfg rng;
  let a :=
    {| SnakeApp.config := cfg; SnakeApp.game := g; SnakeApp.after_id := None;
       SnakeApp.score_var := "Score: 0";
       SnakeApp.length_var := "Length: " +:+ pretty (length (snake g));
       SnakeApp.state_var := "State: Ready";
       SnakeApp.canvas_width := 0; SnakeApp.canvas_height := 0;
       SnakeApp.canvas := []; SnakeApp.timers := ∅;
       SnakeApp.next_timer := 0 |} in
  Ok (draw (_apply_canvas_size a), rng').

(** What the user and Tk do to the application. *)
Inductive event : Set :=
  | Key (k : string)
  | StartButton
  | PauseButton
  | ResetButton
  | ApplyButton (f : form)
  | AfterFires (id : nat).

(** The main loop hands an event to its handler.  A callback that is not
    queued does not fire. *)
Definition handle (a : SnakeApp.t) (e : event) (rng : list nat)
  : result (SnakeApp.t * list nat) :=
  match e with
  | Key k => press_key a k rng
  | StartButton => start_game a rng
  | PauseButton => toggle_pause a rng
  | ResetButton => reset_game a rng
  | ApplyButton f =>
      '(a, _, rng') ← apply_settings a f rng;
      Ok (a, rng')
  | AfterFires id =>
      if decide (id ∈ SnakeApp.timers a) then tick (root_after_cancel id a) rng
      else Ok (a, rng)
  end.

(** The states of the application: after [__init__], and after every event
    that is handled without an exception. *)
Inductive app_reachable : SnakeApp.t → Prop :=
  | app_init rng a rng' : init rng = Ok (a, rng') → app_reachable a
  | app_step a e rng a' rng' :
      app_reachable a → handle a e rng = Ok (a', rng') → app_reachable a'.

Fixpoint handles (es : list event) (a : SnakeApp.t) (rng : list nat)
  : result (SnakeApp.t * list nat) :=
  match es with
  | [] => Ok (a, rng)
  | e :: es' => '(a', rng') ← handle a e rng; handles es' a' rng'
  end.

(** A session: the application starts, then the events arrive. *)
Definition session (es : list event) (rng : list nat)
  : result (SnakeApp.t * list nat) :=
  '(a, rng') ← init rng;
  handles es a rng'.

(** The state a session ends in (an empty application if it raised). *)
Definition app_after (es : list event) (rng : list nat) : SnakeApp.t :=
  match session es rng with
  | Ok (a, _) => a
  | _ =>
      SnakeApp.mk SnakeConfig.default (blank SnakeConfig.default) None
        EmptyString EmptyString EmptyString 0 0 [] ∅ 0
  end.

(** ** Notions the properties of the application are stated with *)

(** The timer that [after_id] names, as a set. *)
Definition pending_timer (a : SnakeApp.t) : gset nat :=
  match SnakeApp.after_id a with
  | Some id => {[id]}
  | None => ∅
  end.

(** The state label that goes with a game. *)
Definition state_label (g : SnakeGame) (label : string) : Prop :=
  if alive g then
    if running g then label = "State: Running"
    else label = "State: Ready" ∨ label = "State: Paused"
  else label = "State: Game Over".

(** The labels and the canvas show the game. *)
Definition displayed (a : SnakeApp.t) : Prop :=
  let g := SnakeApp.game a in
  SnakeApp.score_var a = "Score: " +:+ pretty (score g)
  ∧ SnakeApp.length_var a = "Length: " +:+ pretty (length (snake g))
  ∧ SnakeApp.canvas a = draw_items (SnakeApp.config a) g.

Definition sized (a : SnakeApp.t) : Prop :=
  let side :=
    SnakeConfig.grid_size (SnakeApp.config a)
    * SnakeConfig.cell_size (SnakeApp.config a) in
  SnakeApp.canvas_width a = side ∧ SnakeApp.canvas_height a = side.

(** The game of the application is a game of its configuration, and the
    form accepts the configuration. *)
Definition hosted (a : SnakeApp.t) : Prop :=
  config (SnakeApp.game a) = SnakeApp.config a
  ∧ settings_accept (SnakeApp.config a)
  ∧ reachable (SnakeApp.config a) (with_running false (SnakeApp.game a)).

(** What holds between two events. *)
Definition app_inv (a : SnakeApp.t) : Prop :=
  let g := SnakeApp.game a in
  hosted a
  ∧ SnakeApp.timers a = pending_timer a
  ∧ (is_Some (SnakeApp.after_id a) ↔ running g = true)
  ∧ (running g = true → alive g = true)
  ∧ state_label g (SnakeApp.state_var a)
  ∧ displayed a
  ∧ sized a.

(** What holds when [tick] is called on a running game. *)
Definition tick_ready (a : SnakeApp.t) : Prop :=
  let g := SnakeApp.game a in
  hosted a
  ∧ SnakeApp.timers a ⊆ pending_timer a
  ∧ running g = true
  ∧ alive g = true
  ∧ SnakeApp.state_var a = "State: Running"
  ∧ sized a.

(** An item lies on a square canvas of the given side, and a shape with an
    area has a positive one. *)
Definition inside (side : Z) (it : item) : Prop :=
  match it with
  | Line x1 y1 x2 y2 _ => 0 ≤ x1 ≤ x2 ∧ x2 ≤ side ∧ 0 ≤ y1 ≤ y2 ∧ y2 ≤ side
  | Oval x1 y1 x2 y2 _ | Rectangle x1 y1 x2 y2 _ _ =>
      0 ≤ x1 < x2 ∧ x2 ≤ side ∧ 0 ≤ y1 < y2 ∧ y2 ≤ side
  | Text x y _ _ => 0 ≤ x ≤ side ∧ 0 ≤ y ≤ side
  end.

(** The overlay [draw] ends with when the game is over. *)
Definition game_over_overlay (side : Z) : list item :=
  [Rectangle 0 0 side side "#000000" (Some "gray50");
   Text (side `div` 2) (side `div` 2 - 12) "Game Over" TEXT_PRIMARY;
   Text (side `div` 2) (side `div` 2 + 20) "Press Reset or Start" TEXT_MUTED].

(** * Properties *)

(** ** The result monad *)

Lemma bind_Ok {A B} (m : result A) (k : A → result B) (b : B) :
  m ≫= k = Ok b ↔ ∃ a, m = Ok a ∧ k a = Ok b.
Proof.
  destruct m as [a| |]; simpl; split.
  - eauto.
  - intros (a' & [= ->] & Hk). exact Hk.
  - discriminate.
  - intros (? & [=] & _).
  - discriminate.
  - intros (? & [=] & _).
Qed.

(** Take a successful computation apart, one bind or one test at a time. *)
Ltac inv_ok :=
  repeat match goal with
    | H : Ok _ = Ok _ |- _ => injection H as H; try subst
    | H : (_, _) = (_, _) |- _ => injection H as H; try subst
    | H : Raise _ = Ok _ |- _ => discriminate H
    | H : OutOfFuel = Ok _ |- _ => discriminate H
    | H : mret _ = Ok _ |- _ => unfold mret, result_ret in H
    | H : _ ≫= _ = Ok _ |- _ =>
        let a := fresh "a" in
        let Ha := fresh "Ha" in
        apply bind_Ok in H as (a & Ha & H)
    | H : (let '(_, _) := ?p in _) = Ok _ |- _ => destruct p
    end.

(** ** [queue_direction] *)

Lemma opposites_valid d :
  d ∈ valid_directions ↔ is_Some (opposites !! d).
Proof.
  split.
  - unfold valid_directions. intros Hd.
    repeat (apply elem_of_cons in Hd as [-> | Hd]; [by eexists |]).
    by apply elem_of_nil in Hd.
  - intros [o Ho]. unfold opposites in Ho.
    apply elem_of_list_to_map_2 in Ho.
    unfold valid_directions.
    repeat (apply elem_of_cons in Ho as [[= -> ->] | Ho];
            [set_solver |]).
    by apply elem_of_nil in Ho.
Qed.

Lemma opposites_is_opposite d current :
  is_opposite d current ↔ opposites !! d = Some current.
Proof.
  unfold is_opposite, opposites. split.
  - intros Hd.
    repeat (apply elem_of_cons in Hd as [[= -> ->] | Hd]; [done |]).
    by apply elem_of_nil in Hd.
  - apply elem_of_list_to_map_2.
Qed.

Lemma is_opposite_sym d current : is_opposite d current → is_opposite current d.
Proof.
  unfold is_opposite. intros Hd.
  repeat (apply elem_of_cons in Hd as [[= -> ->] | Hd]; [set_solver |]).
  by apply elem_of_nil in Hd.
Qed.

Lemma queue_direction_rejects s d :
  is_opposite d (direction s) → (1 < length (snake s))%nat →
  queue_direction s d = s.
Proof.
  intros Ho Hlen. apply opposites_is_opposite in Ho.
  unfold queue_direction. rewrite Ho.
  rewrite !bool_decide_eq_true_2; done.
Qed.

Lemma queue_direction_accepts s d :
  d ∈ valid_directions →
  ¬ (is_opposite d (direction s) ∧ (1 < length (snake s))%nat) →
  queue_direction s d = with_pending_direction d s.
Proof.
  intros Hd Hno. apply opposites_valid in Hd as [o Ho].
  unfold queue_direction. rewrite Ho.
  destruct (decide (o = direction s)) as [-> | Hne].
  - destruct (decide (1 < length (snake s))%nat) as [Hlen | Hlen].
    + exfalso. apply Hno. split; [|done]. by apply opposites_is_opposite.
    + by rewrite (bool_decide_eq_false_2 _ Hlen).
  - by rewrite (bool_decide_eq_false_2 _ Hne), andb_false_r.
Qed.

Lemma queue_direction_same s d : same_but_pending s (queue_direction s d).
Proof.
  unfold same_but_pending, queue_direction.
  destruct (opposites !! d); [|by destruct s].
  destruct (_ && _); [by destruct s | done].
Qed.

(** C6: [queue_direction] does nothing for a string that is not a direction,
    and nothing for the opposite of the current direction when the snake is
    longer than one cell; in every other case it queues the direction, so
    the opposite is accepted at length one.  It only ever writes the queued
    direction: the current direction and the rest of the state are kept. *)
Theorem queue_direction_spec (s : SnakeGame) (d : string) :
  (d ∉ valid_directions → queue_direction s d = s)
  ∧ (is_opposite d (direction s) → (1 < length (snake s))%nat →
     queue_direction s d = s)
  ∧ (d ∈ valid_directions →
     ¬ (is_opposite d (direction s) ∧ (1 < length (snake s))%nat) →
     queue_direction s d = with_pending_direction d s)
  ∧ (is_opposite d (direction s) → length (snake s) = 1%nat →
     pending_direction (queue_direction s d) = d)
  ∧ direction (queue_direction s d) = direction s
  ∧ same_but_pending s (queue_direction s d).
Proof.
  split_and!.
  - intros Hd. unfold queue_direction.
    destruct (opposites !! d) as [o|] eqn:Ho; [|done].
    exfalso. apply Hd, opposites_valid. by eexists.
  - apply queue_direction_rejects.
  - apply queue_direction_accepts.
  - intros Ho Hlen. rewrite queue_direction_accepts; [done | |lia].
    apply opposites_valid. apply opposites_is_opposite in Ho. by eexists.
  - pose proof (queue_direction_same s d) as Hsame.
    unfold same_but_pending in Hsame. by rewrite Hsame.
  - apply queue_direction_same.
Qed.

(** ** [random.choice] *)

Lemma random_choice_elem {A} (l : list A) rng x rng' :
  random_choice l rng = Ok (x, rng') → x ∈ l ∧ rng' = tl rng.
Proof.
  unfold random_choice.
  destruct (l !! _) as [y|] eqn:Hy; [|discriminate].
  intros [= -> <-]. split; [|done]. by eapply list_elem_of_lookup_2.
Qed.

Lemma random_choice_total {A} (l : list A) rng :
  l ≠ [] → ∃ x, random_choice l rng = Ok (x, tl rng).
Proof.
  intros Hl. unfold random_choice.
  destruct (lookup_lt_is_Some_2 l (hd 0%nat rng `mod` length l)%nat) as [x Hx].
  - apply Nat.mod_upper_bound. by destruct l.
  - exists x. by rewrite Hx.
Qed.

(** Every element of the sequence is the outcome at some draw. *)
Lemma random_choice_any {A} (l : list A) x :
  x ∈ l → ∃ r, ∀ rng, random_choice l (r :: rng) = Ok (x, rng).
Proof.
  intros Hx. apply list_elem_of_lookup_1 in Hx as [i Hi].
  exists i. intros rng. unfold random_choice. simpl.
  rewrite Nat.mod_small; [by rewrite Hi|]. by eapply lookup_lt_Some.
Qed.

(** ** [replenish_apples] *)

Lemma replenish_loop_spec (fuel : nat) (target : Z) (ap fr : gset pos)
    (rng : list nat) :
  (size fr ≤ fuel)%nat →
  ∃ drawn rng',
    replenish_loop fuel target ap fr rng = Ok (ap ∪ drawn, fr ∖ drawn, rng')
    ∧ drawn ⊆ fr
    ∧ (target ≤ Z.of_nat (size (ap ∪ drawn)) ∨ fr ∖ drawn = ∅)
    ∧ (target ≤ Z.of_nat (size ap) ∨ fr = ∅ → drawn = ∅ ∧ rng' = rng)
    ∧ (ap ## fr →
       Z.of_nat (size ap) ≤ target ≤ Z.of_nat (size ap + size fr) →
       Z.of_nat (size (ap ∪ drawn)) = target).
Proof.
  revert ap fr rng. induction fuel as [|fuel IH]; intros ap fr rng Hfuel.
  - assert (fr = ∅) as -> by (apply leibniz_equiv, size_empty_iff; lia).
    exists ∅, rng. cbn [replenish_loop].
    rewrite (bool_decide_eq_true_2 (_ = _)) by done. rewrite andb_false_r.
    rewrite union_empty_r_L, difference_diag_L.
    split_and!; try done; [by right|].
    rewrite size_empty. lia.
  - simpl. destruct (bool_decide (Z.of_nat (size ap) < target)
                     && negb (bool_decide (fr = ∅))) eqn:Hguard.
    + apply andb_true_iff in Hguard as [Hlt Hne].
      apply bool_decide_eq_true_1 in Hlt.
      apply negb_true_iff, bool_decide_eq_false_1 in Hne.
      destruct (random_choice_total (elements fr) rng) as [p Hp].
      { intros Hnil. apply Hne. by apply leibniz_equiv, elements_empty_inv. }
      rewrite Hp. simpl.
      apply random_choice_elem in Hp as [Hin _].
      apply elem_of_elements in Hin.
      assert (Hsz : size fr = S (size (fr ∖ {[p]}))).
      { rewrite (union_difference_L {[p]} fr) at 1 by set_solver.
        rewrite size_union by set_solver. by rewrite size_singleton. }
      destruct (IH (ap ∪ {[p]}) (fr ∖ {[p]}) (tl rng))
        as (drawn & rng' & Hrun & Hsub & Hstop & _ & Hcount); [lia|].
      exists ({[p]} ∪ drawn), rng'.
      replace (ap ∪ ({[p]} ∪ drawn)) with (ap ∪ {[p]} ∪ drawn) by set_solver.
      replace (fr ∖ ({[p]} ∪ drawn)) with (fr ∖ {[p]} ∖ drawn) by set_solver.
      split_and!; try done.
      * set_solver.
      * intros [Hge | ->]; [lia | done].
      * intros Hdisj Hrange.
        assert (Hfresh : size (ap ∪ {[p]}) = S (size ap)).
        { rewrite size_union by set_solver. rewrite size_singleton. lia. }
        apply Hcount; [set_solver | lia].
    + exists ∅, rng. rewrite union_empty_r_L, difference_empty_L.
      apply andb_false_iff in Hguard.
      assert (Hdone : target ≤ Z.of_nat (size ap) ∨ fr = ∅).
      { destruct Hguard as [Hge | He].
        - left. apply bool_decide_eq_false_1 in Hge. lia.
        - right. apply negb_false_iff, bool_decide_eq_true_1 in He. done. }
      split_and!; try done.
      intros _ Hrange. destruct Hdone as [Hge | ->]; [lia|].
      rewrite size_empty in Hrange. lia.
Qed.

Lemma replenish_apples_spec (s : SnakeGame) (rng : list nat) :
  let target :=
    Z.min (SnakeConfig.apples (config s)) (Z.of_nat (size (free_tiles s))) in
  ∃ drawn rng',
    replenish_apples s rng
    = Ok (with_cells (snake s) (snake_set s) (apples s ∪ drawn)
                     (free_tiles s ∖ drawn) s, rng')
    ∧ drawn ⊆ free_tiles s
    ∧ (target ≤ Z.of_nat (size (apples s ∪ drawn)) ∨ free_tiles s ∖ drawn = ∅)
    ∧ (target ≤ Z.of_nat (size (apples s)) → drawn = ∅ ∧ rng' = rng)
    ∧ (apples s ## free_tiles s →
       Z.of_nat (size (apples s ∪ drawn))
       = Z.max (Z.of_nat (size (apples s))) target).
Proof.
  intros target. unfold replenish_apples. fold target.
  destruct (replenish_loop_spec (size (free_tiles s)) target (apples s)
              (free_tiles s) rng)
    as (drawn & rng' & Hrun & Hsub & Hstop & Hnop & Hcount); [done|].
  exists drawn, rng'. rewrite Hrun. simpl.
  split_and!; try done.
  - intros Hge. apply Hnop. by left.
  - intros Hdisj.
    destruct (decide (target ≤ Z.of_nat (size (apples s)))) as [Hge | Hlt].
    + destruct Hnop as [-> _]; [by left|].
      rewrite union_empty_r_L. lia.
    + rewrite Hcount; [lia | done | unfold target in *; lia].
Qed.

(** ** [spawn_snake] *)

Lemma py_min_spec (l : list Z) (m : Z) :
  py_min l = Ok m → m ∈ l ∧ ∀ x, x ∈ l → m ≤ x.
Proof.
  destruct l as [|a l]; [discriminate|]. simpl. intros [= <-].
  revert a. induction l as [|b l IH]; intros a; simpl.
  - split; [set_solver|]. intros x ->%list_elem_of_singleton. lia.
  - destruct (IH (Z.min a b)) as [Hin Hle]. split.
    + apply elem_of_cons in Hin as [-> | Hin]; [|set_solver].
      destruct (Z.min_spec a b) as [[_ ->] | [_ ->]]; set_solver.
    + intros x Hx.
      assert (Hm : foldl Z.min (Z.min a b) l ≤ Z.min a b)
        by (apply Hle; set_solver).
      apply elem_of_cons in Hx as [-> | Hx]; [lia|].
      apply elem_of_cons in Hx as [-> | Hx]; [lia|].
      apply Hle. set_solver.
Qed.

Lemma py_max_spec (l : list Z) (m : Z) :
  py_max l = Ok m → m ∈ l ∧ ∀ x, x ∈ l → x ≤ m.
Proof.
  destruct l as [|a l]; [discriminate|]. simpl. intros [= <-].
  revert a. induction l as [|b l IH]; intros a; simpl.
  - split; [set_solver|]. intros x ->%list_elem_of_singleton. lia.
  - destruct (IH (Z.max a b)) as [Hin Hle]. split.
    + apply elem_of_cons in Hin as [-> | Hin]; [|set_solver].
      destruct (Z.max_spec a b) as [[_ ->] | [_ ->]]; set_solver.
    + intros x Hx.
      assert (Hm : Z.max a b ≤ foldl Z.max (Z.max a b) l)
        by (apply Hle; set_solver).
      apply elem_of_cons in Hx as [-> | Hx]; [lia|].
      apply elem_of_cons in Hx as [-> | Hx]; [lia|].
      apply Hle. set_solver.
Qed.

Lemma elem_of_line head_x y len p :
  p ∈ line head_x y len ↔ p.2 = y ∧ head_x - len < p.1 ≤ head_x.
Proof.
  unfold line, range. rewrite list_elem_of_fmap. split.
  - intros (i & -> & Hi). apply elem_of_seqZ in Hi. simpl. lia.
  - intros [Hy Hx]. exists (head_x - p.1). split.
    + destruct p as [px py]. simpl in *. f_equal; lia.
    + apply elem_of_seqZ. lia.
Qed.

Lemma length_line head_x y len : length (line head_x y len) = Z.to_nat len.
Proof. unfold line, range. by rewrite length_fmap, length_seqZ. Qed.

Lemma NoDup_line head_x y len : NoDup (line head_x y len).
Proof.
  unfold line, range. apply NoDup_fmap_2; [|apply NoDup_seqZ].
  intros i j [= Hij]. lia.
Qed.

(** [spawn_positions] returns a line on the centre row, and only for a
    positive length. *)
Lemma spawn_positions_inv size len ps :
  spawn_positions size len = Ok ps →
  1 ≤ len ∧ ∃ head_x, ps = line head_x (size `div` 2) len.
Proof.
  unfold spawn_positions. intros H.
  assert (1 ≤ len).
  { destruct (decide (1 ≤ len)) as [|Hlen]; [done|].
    unfold range in H. rewrite seqZ_nil in H by lia. discriminate. }
  split; [done|]. inv_ok.
  destruct (_ || _); inv_ok; eexists; reflexivity.
Qed.

(** When the length fits the board the line lies on the board. *)
Lemma spawn_positions_fit size len :
  1 ≤ len ≤ size →
  ∃ head_x, spawn_positions size len = Ok (line head_x (size `div` 2) len)
            ∧ 0 ≤ head_x - len + 1 ∧ head_x < size.
Proof.
  intros Hlen. unfold spawn_positions.
  set (naive := (λ i, (size `div` 2 - i, size `div` 2)) <$> range len).
  assert (Hc : 0 ≤ size `div` 2 < size).
  { split; [apply Z.div_pos; lia | apply Z.div_lt_upper_bound; lia]. }
  assert (Hne : fst <$> naive ≠ []).
  { unfold naive, range. rewrite (seqZ_cons 0 len) by lia. done. }
  destruct (py_min (fst <$> naive)) as [min_x| |] eqn:Hmin;
    [|by destruct (fst <$> naive)..].
  destruct (py_max (fst <$> naive)) as [max_x| |] eqn:Hmax;
    [|by destruct (fst <$> naive)..].
  simpl.
  apply py_min_spec in Hmin as [_ Hmin].
  destruct (bool_decide (min_x < 0) || bool_decide (size ≤ max_x)) eqn:Hout.
  - exists ((size - len) `div` 2 + len - 1). split; [done|].
    assert (0 ≤ (size - len) `div` 2 ≤ size - len).
    { split; [apply Z.div_pos; lia|]. apply Z.div_le_upper_bound; lia. }
    lia.
  - exists (size `div` 2). split; [done|].
    apply orb_false_iff in Hout as [Hlo _].
    apply bool_decide_eq_false_1 in Hlo.
    assert (min_x ≤ (size `div` 2 - (len - 1), size `div` 2).1); [|simpl in *; lia].
    apply Hmin, list_elem_of_fmap_2.
    apply (elem_of_line (size `div` 2) (size `div` 2) len). simpl. lia.
Qed.

Lemma elem_of_all_cells size p : p ∈ all_cells size ↔ in_grid size p.
Proof.
  unfold all_cells, in_grid, range. rewrite elem_of_list_to_set.
  rewrite list_elem_of_bind. split.
  - intros (x & Hp & Hx). apply list_elem_of_bind in Hp as (y & Hp & Hy).
    apply list_elem_of_singleton in Hp as ->.
    apply elem_of_seqZ in Hx, Hy. simpl. lia.
  - intros [Hx Hy]. exists p.1. split; [|apply elem_of_seqZ; lia].
    apply list_elem_of_bind. exists p.2. split; [|apply elem_of_seqZ; lia].
    destruct p. set_solver.
Qed.

Lemma square_init size :
  square (Z.to_nat size) ((λ _, (λ _, 0) <$> range size) <$> range size).
Proof.
  unfold square, range. rewrite length_fmap, length_seqZ. split; [done|].
  apply Forall_fmap, Forall_forall. intros ? _. simpl.
  by rewrite length_fmap, length_seqZ.
Qed.

Lemma py_index_ok {A} (l : list A) (i : Z) :
  0 ≤ i < Z.of_nat (length l) → py_index l i = Ok (Z.to_nat i).
Proof. intros Hi. unfold py_index. by rewrite decide_True. Qed.

Lemma py_index_nonempty {A} (l : list A) (i : Z) (n : nat) :
  py_index l i = Ok n → l ≠ [].
Proof.
  unfold py_index. intros H ->. simpl in H.
  repeat case_decide; try discriminate; lia.
Qed.

Lemma grid_set_ok n g x y v :
  square n g → 0 ≤ x < Z.of_nat n → 0 ≤ y < Z.of_nat n →
  ∃ g', grid_set g x y v = Ok g' ∧ square n g'.
Proof.
  intros [Hlen Hrows] Hx Hy. unfold grid_set.
  rewrite py_index_ok by lia. simpl.
  destruct (lookup_lt_is_Some_2 g (Z.to_nat y)) as [row Hrow]; [lia|].
  rewrite Hrow.
  assert (Hr : length row = n).
  { eapply (Forall_lookup_1 _ _ _ _ Hrows Hrow). }
  rewrite py_index_ok by lia. simpl. eexists. split; [done|].
  split; [by rewrite length_insert|].
  apply Forall_insert; [done|]. by rewrite length_insert.
Qed.

Lemma spawn_loop_inv ps s s' :
  spawn_loop ps s = Ok s' →
  snake s' = snake s ++ ps
  ∧ snake_set s' = snake_set s ∪ list_to_set ps
  ∧ apples s' = apples s
  ∧ free_tiles s' = free_tiles s ∖ list_to_set ps
  ∧ config s' = config s ∧ direction s' = direction s
  ∧ pending_direction s' = pending_direction s
  ∧ running s' = running s ∧ alive s' = alive s ∧ score s' = score s
  ∧ (ps ≠ [] → grid s ≠ []).
Proof.
  revert s. induction ps as [|[x y] ps IH]; intros s H; simpl in H.
  - inv_ok. rewrite app_nil_r. simpl.
    split_and!; [done | set_solver | done | set_solver | done..].
  - inv_ok. apply IH in H. simpl in H.
    destruct H as (-> & -> & -> & -> & -> & -> & -> & -> & -> & -> & _).
    rewrite <- app_assoc. simpl.
    split_and!; [done | set_solver | done | set_solver | done.. |].
    intros _. unfold grid_set in Ha. inv_ok.
    by eapply py_index_nonempty.
Qed.

Lemma spawn_loop_ok n ps s :
  square n (grid s) → Forall (in_grid (Z.of_nat n)) ps →
  ∃ s', spawn_loop ps s = Ok s'.
Proof.
  revert s. induction ps as [|[x y] ps IH]; intros s Hsq Hps; simpl.
  - by eexists.
  - apply Forall_cons in Hps as [[Hx Hy] Hps]. simpl in *.
    destruct (grid_set_ok n (grid s) x y 1) as (g' & -> & Hsq'); try done.
    simpl. by apply IH.
Qed.

(** ** [reset] *)

Lemma reset_inv cfg rng s rng' :
  reset cfg rng = Ok (s, rng') →
  let size := SnakeConfig.grid_size cfg in
  let len := SnakeConfig.initial_length cfg in
  1 ≤ len ∧ 0 < size
  ∧ spawn_positions size len = Ok (snake s)
  ∧ snake_set s = list_to_set (snake s)
  ∧ apples s ⊆ all_cells size ∖ snake_set s
  ∧ free_tiles s = all_cells size ∖ snake_set s ∖ apples s
  ∧ Z.of_nat (base.size (apples s))
    = Z.max 0 (Z.min (SnakeConfig.apples cfg)
                     (Z.of_nat (base.size (all_cells size ∖ snake_set s))))
  ∧ stocked s
  ∧ config s = cfg ∧ direction s = "right" ∧ pending_direction s = "right"
  ∧ running s = false ∧ alive s = true ∧ score s = 0.
Proof.
  intros H size len. unfold reset, spawn_snake, blank in H. inv_ok.
  fold size len in Ha0. simpl in Ha0.
  destruct (spawn_positions_inv _ _ _ Ha0) as [Hlen [head_x Hps]].
  apply spawn_loop_inv in Ha. simpl in Ha.
  destruct Ha as (Hsn & Hss & Hap & Hfr & Hcfg & Hd & Hp & Hr & Hal & Hsc & Hg).
  assert (Hsize : 0 < size).
  { destruct (decide (0 < size)) as [|Hneg]; [done|]. exfalso.
    apply Hg; [|unfold range; by rewrite seqZ_nil by lia].
    rewrite Hps. unfold line, range. rewrite (seqZ_cons 0 len) by lia. done. }
  destruct (replenish_apples_spec a rng)
    as (drawn & rng0 & Hrun & Hsub & Hstop & _ & Hcount).
  rewrite Hrun in H. injection H as <- <-. simpl. clear Hrun Hg.
  rewrite union_empty_l_L in Hss.
  rewrite Hap, union_empty_l_L in *.
  assert (Hfree : free_tiles a = all_cells size ∖ snake_set a)
    by (by rewrite Hss).
  rewrite Hfree in *. rewrite Hsn.
  split_and!; try done.
  - rewrite Hcount by set_solver. rewrite size_empty, Hcfg. done.
  - unfold stocked. simpl. rewrite Hcfg in *.
    destruct Hstop as [Hge | ->]; [|rewrite size_empty; lia].
    assert (base.size (all_cells size ∖ snake_set a ∖ drawn)
            ≤ base.size (all_cells size ∖ snake_set a))%nat
      by (apply subseteq_size; set_solver).
    lia.
Qed.

Lemma reset_ok cfg rng :
  1 ≤ SnakeConfig.initial_length cfg ≤ SnakeConfig.grid_size cfg →
  ∃ s rng', reset cfg rng = Ok (s, rng').
Proof.
  intros Hlen. unfold reset, spawn_snake, blank. simpl.
  destruct (spawn_positions_fit _ _ Hlen) as (head_x & -> & Hlo & Hhi).
  simpl.
  match goal with |- context [spawn_loop ?ps ?s0] =>
    destruct (spawn_loop_ok (Z.to_nat (SnakeConfig.grid_size cfg)) ps s0)
      as [s1 ->]
  end.
  - apply square_init.
  - apply Forall_forall. intros p Hp. apply elem_of_line in Hp.
    unfold in_grid. rewrite Z2Nat.id by lia.
    assert (0 ≤ SnakeConfig.grid_size cfg `div` 2 < SnakeConfig.grid_size cfg).
    { split; [apply Z.div_pos; lia | apply Z.div_lt_upper_bound; lia]. }
    lia.
  - simpl. destruct (replenish_apples_spec s1 rng) as (? & ? & -> & _).
    by do 2 eexists.
Qed.

(** ** [move] *)

Lemma move_eq s rng :
  move s rng =
  if negb (alive s) then Ok (false, s, rng)
  else
    c ← new_head (committed s);
    match c with
    | None => Ok (false, with_alive false (committed s), rng)
    | Some nh => move_onto (committed s) nh rng
    end.
Proof.
  unfold move, new_head. fold (committed s).
  destruct (alive s); simpl; [|done].
  destruct (_next_head _ _) as [[x y]| |]; simpl; [|done..].
  destruct (SnakeConfig.wrap_walls _).
  - destruct (py_mod x _); simpl; [|done..].
    destruct (py_mod y _); simpl; done.
  - destruct (negb _); done.
Qed.

Lemma last_cons_ne {A} (x : A) (l : list A) : l ≠ [] → last (x :: l) = last l.
Proof. by destruct l. Qed.

(** The three ways [move_onto] returns. *)
Lemma move_onto_inv s nh rng b s' rng' :
  move_onto s nh rng = Ok (b, s', rng') →
  ∃ tl, last (snake s) = Some tl
    ∧ ((b = false ∧ nh ∈ snake_set s ∧ ¬ ((nh ∉ apples s) ∧ nh = tl)
        ∧ s' = with_alive false s ∧ rng' = rng)
       ∨ (b = true ∧ nh ∈ apples s ∧ (nh ∉ snake_set s)
          ∧ replenish_apples (grown s nh) rng = Ok (s', rng'))
       ∨ (b = true ∧ (nh ∉ apples s) ∧ (nh ∉ snake_set s ∨ nh = tl)
          ∧ replenish_apples (slid s nh tl) rng = Ok (s', rng'))).
Proof.
  unfold move_onto, deque_last. intros H.
  destruct (last (snake s)) as [tl|] eqn:Htl; [|discriminate].
  exists tl. split; [done|]. simpl in H.
  assert (Hne : snake s ≠ []) by (intros Hnil; by rewrite Hnil in Htl).
  destruct (decide (nh ∈ apples s)) as [Hap | Hap].
  - rewrite (bool_decide_eq_true_2 _ Hap) in H. simpl in H.
    destruct (decide (nh ∈ snake_set s)) as [Hss | Hss].
    + rewrite (bool_decide_eq_true_2 _ Hss) in H. simpl in H.
      injection H as <- <- <-. left. split_and!; try done. tauto.
    + rewrite (bool_decide_eq_false_2 _ Hss) in H. simpl in H.
      right. left.
      destruct (replenish_apples _ rng) as [[s1 rng1]| |] eqn:Hrep;
        [|discriminate..].
      simpl in H. injection H as <- <- <-. done.
  - rewrite (bool_decide_eq_false_2 _ Hap) in H. simpl in H.
    unfold deque_pop in H. rewrite (last_cons_ne _ _ Hne), Htl in H.
    simpl in H.
    destruct (bool_decide (nh ∈ snake_set s) && negb (bool_decide (nh = tl)))
      eqn:Hfatal.
    + injection H as <- <- <-. left.
      apply andb_true_iff in Hfatal as [Hss Hnt].
      apply bool_decide_eq_true_1 in Hss.
      apply negb_true_iff, bool_decide_eq_false_1 in Hnt.
      split_and!; try done. tauto.
    + right. right.
      destruct (replenish_apples _ rng) as [[s1 rng1]| |] eqn:Hrep;
        [|discriminate..].
      simpl in H. injection H as <- <- <-.
      split_and!; try done.
      apply andb_false_iff in Hfatal as [Hss | Hnt].
      * left. by apply bool_decide_eq_false_1 in Hss.
      * right. by apply negb_false_iff, bool_decide_eq_true_1 in Hnt.
Qed.

(** The ways [move] returns. *)
Lemma move_inv s rng b s' rng' :
  move s rng = Ok (b, s', rng') →
  (alive s = false ∧ b = false ∧ s' = s ∧ rng' = rng)
  ∨ (alive s = true ∧ new_head (committed s) = Ok None
     ∧ b = false ∧ s' = with_alive false (committed s) ∧ rng' = rng)
  ∨ (alive s = true
     ∧ ∃ nh tl, new_head (committed s) = Ok (Some nh)
        ∧ last (snake s) = Some tl
        ∧ ((b = false ∧ nh ∈ snake_set s ∧ ¬ ((nh ∉ apples s) ∧ nh = tl)
            ∧ s' = with_alive false (committed s) ∧ rng' = rng)
           ∨ (b = true ∧ nh ∈ apples s ∧ (nh ∉ snake_set s)
              ∧ replenish_apples (grown (committed s) nh) rng = Ok (s', rng'))
           ∨ (b = true ∧ (nh ∉ apples s) ∧ (nh ∉ snake_set s ∨ nh = tl)
              ∧ replenish_apples (slid (committed s) nh tl) rng
                = Ok (s', rng')))).
Proof.
  rewrite move_eq. destruct (alive s); simpl.
  - intros H. apply bind_Ok in H as ([nh|] & Hnh & H).
    + right. right. split; [done|].
      apply move_onto_inv in H as (tl & Htl & H).
      exists nh, tl. done.
    + right. left. injection H as <- <- <-. done.
  - intros [= <- <- <-]. by left.
Qed.

Lemma new_head_in_grid s nh :
  0 < SnakeConfig.grid_size (config s) →
  new_head s = Ok (Some nh) →
  in_grid (SnakeConfig.grid_size (config s)) nh.
Proof.
  intros Hsize. unfold new_head, py_mod. intros H.
  apply bind_Ok in H as ([x y] & _ & H).
  destruct (SnakeConfig.wrap_walls _).
  - rewrite !decide_False in H by lia. simpl in H. injection H as <-.
    split; simpl; apply Z.mod_pos_bound; lia.
  - destruct (_in_bounds s x y) eqn:Hb; simpl in H; [|discriminate].
    injection H as <-. unfold _in_bounds in Hb.
    apply andb_true_iff in Hb as [Hx Hy].
    apply bool_decide_eq_true_1 in Hx, Hy. done.
Qed.

Lemma replenish_apples_inv s rng s' rng' :
  replenish_apples s rng = Ok (s', rng') →
  ∃ drawn, drawn ⊆ free_tiles s
    ∧ s' = with_cells (snake s) (snake_set s) (apples s ∪ drawn)
                      (free_tiles s ∖ drawn) s.
Proof.
  destruct (replenish_apples_spec s rng) as (drawn & rng0 & -> & Hsub & _).
  intros [= <- <-]. by exists drawn.
Qed.

Lemma move_onto_ok s nh rng :
  snake s ≠ [] → nh ∉ snake_set s →
  ∃ s' rng', move_onto s nh rng = Ok (true, s', rng')
    ∧ alive s' = alive s ∧ head (snake s') = Some nh.
Proof.
  intros Hne Hss. unfold move_onto, deque_last, deque_pop.
  destruct (last (snake s)) as [tl|] eqn:Htl;
    [|by apply last_None in Htl].
  simpl. rewrite (bool_decide_eq_false_2 _ Hss). simpl.
  destruct (bool_decide (nh ∈ apples s)); simpl.
  2: rewrite (last_cons_ne _ _ Hne), Htl; simpl.
  - destruct (replenish_apples_spec (grown s nh) rng) as (dr & r & Hrun & _).
    match goal with |- context [replenish_apples ?m rng] =>
      change m with (grown s nh) end.
    rewrite Hrun. simpl. by do 2 eexists.
  - destruct (replenish_apples_spec (slid s nh tl) rng) as (dr & r & Hrun & _).
    match goal with |- context [replenish_apples ?m rng] =>
      change m with (slid s nh tl) end.
    rewrite Hrun. simpl.
    do 2 eexists. split_and!; try done. by destruct (snake s).
Qed.

Lemma length_removelast_cons {A} (x : A) (l : list A) :
  length (removelast (x :: l)) = length l.
Proof.
  revert x. induction l as [|y l IH]; intros x; [done|].
  transitivity (S (length (removelast (y :: l)))); [done|].
  by rewrite IH.
Qed.

(** What a call of [move] does to the length and the score. *)
Lemma move_length s rng b s' rng' :
  move s rng = Ok (b, s', rng') →
  (length (snake s') = length (snake s) ∧ score s' = score s)
  ∨ (length (snake s') = S (length (snake s)) ∧ score s' = score s + 1).
Proof.
  intros H. apply move_inv in H
    as [(_ & _ & -> & _) | [(_ & _ & _ & -> & _) | (_ & nh & tl & _ & Htl & H)]];
    [by left.. |].
  destruct H as [(_ & _ & _ & -> & _) | [(_ & _ & _ & H) | (_ & _ & _ & H)]];
    [by left | |];
    apply replenish_apples_inv in H as (dr & _ & ->); simpl.
  - by right.
  - left. split; [|done]. apply length_removelast_cons.
Qed.

(** C5: a successful move onto an apple puts the new head in front of the
    unchanged deque, so the snake is one cell longer and its tail stays; the
    score is one higher; the eaten apple is no longer in the apple set; and
    no cell is added to the free tiles. *)
Theorem move_growing (s : SnakeGame) (rng : list nat) (s' : SnakeGame)
    (rng' : list nat) (nh : pos) :
  move s rng = Ok (true, s', rng') →
  new_head (committed s) = Ok (Some nh) →
  nh ∈ apples s →
  snake s' = nh :: snake s
  ∧ length (snake s') = S (length (snake s))
  ∧ score s' = score s + 1
  ∧ (nh ∉ apples s')
  ∧ free_tiles s' ⊆ free_tiles s
  ∧ snake_set s ⊆ snake_set s'.
Proof.
  intros Hmove Hnh Hap.
  apply move_inv in Hmove
    as [(_ & [=] & _) | [(_ & _ & [=] & _) | (_ & nh' & tl & Hnh' & _ & H)]].
  rewrite Hnh in Hnh'. injection Hnh' as <-.
  destruct H as [([=] & _) | [(_ & _ & _ & H) | (_ & Hno & _)]]; [|done].
  apply replenish_apples_inv in H as (dr & Hdr & ->). simpl in *.
  split_and!; try done; set_solver.
Qed.

Lemma mod_minus_one n : 0 < n → (-1) `mod` n = n - 1.
Proof.
  intros Hn. symmetry. apply (Z.mod_unique_pos (-1) n (-1) (n - 1)); lia.
Qed.

(** C3: with the walls closed a candidate head off the board ends the
    game: [move] returns false and clears [alive].  With the walls open
    the candidate head is reduced modulo the board size on each axis, which
    re-enters at the opposite edge and always lies on the board; [move]
    goes on with the collision rule at that cell, and succeeds when the
    cell is not occupied by the snake. *)
Theorem move_wall (s : SnakeGame) (rng : list nat) (x y : Z) :
  alive s = true →
  _next_head (committed s) (direction (committed s)) = Ok (x, y) →
  let size := SnakeConfig.grid_size (config s) in
  (SnakeConfig.wrap_walls (config s) = false →
   _in_bounds s x y = false →
   move s rng = Ok (false, with_alive false (committed s), rng))
  ∧ (SnakeConfig.wrap_walls (config s) = true → 0 < size →
     let nh := (x `mod` size, y `mod` size) in
     new_head (committed s) = Ok (Some nh)
     ∧ in_grid size nh
     ∧ (x = -1 → nh.1 = size - 1) ∧ (x = size → nh.1 = 0)
     ∧ (y = -1 → nh.2 = size - 1) ∧ (y = size → nh.2 = 0)
     ∧ move s rng = move_onto (committed s) nh rng
     ∧ (nh ∉ snake_set s →
        ∃ s' rng', move s rng = Ok (true, s', rng')
          ∧ alive s' = true ∧ head (snake s') = Some nh)).
Proof.
  intros Halive Hnext size. split.
  - intros Hwrap Hout. unfold move. fold (committed s).
    rewrite Halive, Hnext. simpl. rewrite Hwrap.
    change (_in_bounds (committed s) x y) with (_in_bounds s x y).
    by rewrite Hout.
  - intros Hwrap Hsize nh.
    assert (Hnh : new_head (committed s) = Ok (Some nh)).
    { unfold new_head, py_mod. rewrite Hnext. simpl. rewrite Hwrap.
      fold size. rewrite !decide_False by lia. done. }
    assert (Hmove : move s rng = move_onto (committed s) nh rng).
    { rewrite move_eq, Halive, Hnh. done. }
    split_and!; try done.
    + apply (new_head_in_grid (committed s)); done.
    + intros ->. simpl. by apply mod_minus_one.
    + intros ->. simpl. apply Z.mod_same. lia.
    + intros ->. simpl. by apply mod_minus_one.
    + intros ->. simpl. apply Z.mod_same. lia.
    + intros Hfree. rewrite Hmove.
      destruct (move_onto_ok (committed s) nh rng) as (s' & rng' & -> & Ha & Hh);
        try done.
      * unfold _next_head, deque_first in Hnext. simpl in *.
        by destruct (snake s).
      * exists s', rng'. by rewrite Ha.
Qed.

(** ** Length and score *)

(** C10: in every reachable state the length of the snake is the configured
    initial length plus the score.  The score is never negative, so the
    snake is never shorter than it was spawned, and no call of [move] makes
    it shorter.  With an initial length of at least two the snake is always
    longer than one cell, so [queue_direction] refuses every reversal. *)
Theorem length_is_initial_plus_score (cfg : SnakeConfig.t) (s : SnakeGame) :
  reachable cfg s →
  Z.of_nat (length (snake s)) = SnakeConfig.initial_length cfg + score s
  ∧ 0 ≤ score s
  ∧ SnakeConfig.initial_length cfg ≤ Z.of_nat (length (snake s))
  ∧ (∀ rng b s' rng', move s rng = Ok (b, s', rng') →
       (length (snake s) ≤ length (snake s'))%nat)
  ∧ (MIN_INITIAL_LENGTH ≤ SnakeConfig.initial_length cfg →
       (1 < length (snake s))%nat
       ∧ ∀ d, is_opposite d (direction s) → queue_direction s d = s).
Proof.
  intros Hreach.
  assert (Hinv : Z.of_nat (length (snake s))
                 = SnakeConfig.initial_length cfg + score s ∧ 0 ≤ score s).
  { induction Hreach as [rng s rng' Hreset | s rng b s' rng' _ IH Hmove
                        | s d _ IH].
    - apply reset_inv in Hreset
        as (Hlen & _ & Hps & _ & _ & _ & _ & _ & _ & _ & _ & _ & _ & ->).
      apply spawn_positions_inv in Hps as [_ [head_x ->]].
      rewrite length_line. lia.
    - apply move_length in Hmove as [[-> ->] | [-> ->]]; lia.
    - pose proof (queue_direction_same s d) as Hsame.
      unfold same_but_pending in Hsame. by rewrite Hsame. }
  destruct Hinv as [Hlen Hscore]. split_and!; try done; [lia | |].
  - intros rng b s' rng' Hmove.
    apply move_length in Hmove as [[-> _] | [-> _]]; lia.
  - unfold MIN_INITIAL_LENGTH. intros Hmin.
    assert (1 < length (snake s))%nat by lia. split; [done|].
    intros d Hd. by apply queue_direction_rejects.
Qed.

(** ** What holds in every reachable state *)

Lemma replenish_apples_post s rng s' rng' :
  replenish_apples s rng = Ok (s', rng') →
  config s' = config s ∧ (covered s → covered s') ∧ stocked s'.
Proof.
  destruct (replenish_apples_spec s rng)
    as (drawn & rng0 & -> & Hsub & Hstop & _).
  intros [= <- <-]. split; [done|]. split.
  - unfold covered. simpl. intros Hcov p Hp. specialize (Hcov p Hp).
    destruct (decide (p ∈ drawn)); set_solver.
  - unfold stocked. simpl.
    destruct Hstop as [Hge | ->]; [|rewrite size_empty; lia].
    assert (size (free_tiles s ∖ drawn) ≤ size (free_tiles s))%nat
      by (apply subseteq_size; set_solver).
    lia.
Qed.

Lemma reachable_inv cfg s :
  reachable cfg s →
  config s = cfg ∧ 0 < SnakeConfig.grid_size cfg ∧ covered s ∧ stocked s.
Proof.
  induction 1 as [rng s rng' Hreset | s rng b s' rng' _ IH Hmove | s d _ IH].
  - apply reset_inv in Hreset
      as (_ & Hsize & _ & _ & Hap & Hfr & _ & Hst & Hcfg & _).
    split_and!; try done. unfold covered. rewrite Hcfg. intros p Hp.
    apply elem_of_all_cells in Hp. rewrite Hfr.
    destruct (decide (p ∈ snake_set s)), (decide (p ∈ apples s)); set_solver.
  - destruct IH as (Hcfg & Hsize & Hcov & Hst).
    apply move_inv in Hmove
      as [(_ & _ & -> & _) | [(_ & _ & _ & -> & _)
                             | (_ & nh & tl & _ & _ & H)]]; [done.. |].
    destruct H as [(_ & _ & _ & -> & _) | [(_ & _ & _ & H) | (_ & _ & _ & H)]];
      [done | |];
      apply replenish_apples_post in H as (Hcfg' & Hcov' & Hst');
      (split_and!; [by rewrite Hcfg' | done | | done]);
      apply Hcov'; unfold covered; simpl; intros p Hp; specialize (Hcov p Hp).
    + destruct (decide (p = nh)); set_solver.
    + destruct (decide (p = nh)), (decide (p = tl)); set_solver.
  - pose proof (queue_direction_same s d) as Hsame.
    unfold same_but_pending in Hsame. by rewrite Hsame.
Qed.

Lemma size_swap_le (X : gset pos) (a b : pos) :
  a ∈ X → (size ((X ∖ {[a]}) ∪ {[b]}) ≤ size X)%nat.
Proof.
  intros Ha. rewrite size_union_alt.
  assert (size ({[b]} ∖ (X ∖ {[a]}) : gset pos) ≤ 1)%nat.
  { rewrite <- (size_singleton (C := gset pos) b).
    apply subseteq_size. set_solver. }
  assert (size X = S (size (X ∖ {[a]}))).
  { rewrite (union_difference_L {[a]} X) at 1 by set_solver.
    rewrite size_union by set_solver. by rewrite size_singleton. }
  lia.
Qed.

(** ** Moves that do not grow *)

(** C4, as the engine has it: a successful move from a reachable state whose
    candidate head is not on an apple leaves the length of the snake
    unchanged; and when the candidate head is not the tail cell, the tail
    cell is out of the occupancy set and in the free tiles after the
    call. *)
Theorem move_not_growing (cfg : SnakeConfig.t) (s : SnakeGame)
    (rng : list nat) (s' : SnakeGame) (rng' : list nat) (nh tl : pos) :
  reachable cfg s →
  move s rng = Ok (true, s', rng') →
  new_head (committed s) = Ok (Some nh) →
  nh ∉ apples s →
  last (snake s) = Some tl →
  length (snake s') = length (snake s)
  ∧ (nh ≠ tl → tl ∈ free_tiles s' ∧ tl ∉ snake_set s').
Proof.
  intros Hreach Hmove Hnh Hap Htl.
  destruct (reachable_inv _ _ Hreach) as (Hcfg & Hsize & Hcov & Hst).
  apply move_inv in Hmove
    as [(_ & [=] & _) | [(_ & _ & [=] & _) | (_ & nh' & tl' & Hnh' & Htl' & H)]].
  rewrite Hnh in Hnh'. injection Hnh' as <-.
  rewrite Htl in Htl'. injection Htl' as <-.
  destruct H as [([=] & _) | [(_ & Hyes & _) | (_ & _ & Hss & H)]]; [done|].
  destruct (replenish_apples_spec (slid (committed s) nh tl) rng)
    as (drawn & rng0 & Hrun & _ & _ & Hnop & _).
  rewrite Hrun in H. injection H as <- <-. simpl. split.
  - apply length_removelast_cons.
  - intros Hne. destruct Hss as [Hss | ?]; [|done].
    assert (Hfree : nh ∈ free_tiles s).
    { assert (Hin : in_grid (SnakeConfig.grid_size (config s)) nh).
      { apply (new_head_in_grid (committed s)); [|done]. simpl. by rewrite Hcfg. }
      specialize (Hcov nh Hin). set_solver. }
    destruct Hnop as [-> _].
    { simpl. pose proof (size_swap_le (free_tiles s) nh tl Hfree).
      unfold stocked in Hst. lia. }
    set_solver.
Qed.

(** ** Spawning *)

Lemma reset_spawn cfg rng :
  1 ≤ SnakeConfig.initial_length cfg ≤ SnakeConfig.grid_size cfg →
  ∃ s rng', reset cfg rng = Ok (s, rng')
    ∧ spawn_positions (SnakeConfig.grid_size cfg)
        (SnakeConfig.initial_length cfg) = Ok (snake s)
    ∧ direction s = "right" ∧ pending_direction s = "right".
Proof.
  intros Hlen. destruct (reset_ok cfg rng Hlen) as (s & rng' & Hreset).
  exists s, rng'. split; [done|].
  apply reset_inv in Hreset
    as (_ & _ & Hps & _ & _ & _ & _ & _ & _ & Hd & Hp & _).
  done.
Qed.

Lemma reset_cells cfg rng s rng' :
  SnakeConfig.initial_length cfg ≤ SnakeConfig.grid_size cfg →
  reset cfg rng = Ok (s, rng') →
  Forall (in_grid (SnakeConfig.grid_size cfg)) (snake s)
  ∧ (∃ head_x,
       snake s = line head_x (SnakeConfig.grid_size cfg `div` 2)
                      (SnakeConfig.initial_length cfg))
  ∧ direction s = "right" ∧ pending_direction s = "right".
Proof.
  intros Hfit Hreset.
  apply reset_inv in Hreset
    as (Hlen & _ & Hps & _ & _ & _ & _ & _ & _ & Hd & Hp & _).
  destruct (spawn_positions_fit (SnakeConfig.grid_size cfg)
              (SnakeConfig.initial_length cfg)) as (head_x & Hfit' & Hlo & Hhi);
    [lia|].
  rewrite Hfit' in Hps. injection Hps as <-.
  split_and!; try done; [|by exists head_x].
  apply Forall_forall. intros p Hp'. apply elem_of_line in Hp'.
  assert (0 ≤ SnakeConfig.grid_size cfg `div` 2 < SnakeConfig.grid_size cfg).
  { split; [apply Z.div_pos; lia | apply Z.div_lt_upper_bound; lia]. }
  unfold in_grid. lia.
Qed.

(** C7: [reset] leaves the snake on a horizontal line of the centre row,
    head rightmost, current and queued direction both "right".  On the 20
    board with length 3 the cells are (10,10), (9,10), (8,10); on the 3
    board with length 3 the centred line leaves the board and the snake is
    put on (2,1), (1,1), (0,1).  Whenever the length is at most the board
    size every spawned cell is on the board, and [reset] returns for every
    length from 1 up to the board size. *)
Theorem spawn_spec :
  (∀ cfg rng,
     SnakeConfig.grid_size cfg = 20 → SnakeConfig.initial_length cfg = 3 →
     ∃ s rng', reset cfg rng = Ok (s, rng')
       ∧ snake s = [(10, 10); (9, 10); (8, 10)]
       ∧ direction s = "right" ∧ pending_direction s = "right")
  ∧ (∀ cfg rng,
     SnakeConfig.grid_size cfg = 3 → SnakeConfig.initial_length cfg = 3 →
     ¬ Forall (in_grid 3) (line (3 `div` 2) (3 `div` 2) 3)
     ∧ ∃ s rng', reset cfg rng = Ok (s, rng')
         ∧ snake s = [(2, 1); (1, 1); (0, 1)]
         ∧ direction s = "right" ∧ pending_direction s = "right")
  ∧ (∀ cfg rng,
     1 ≤ SnakeConfig.initial_length cfg ≤ SnakeConfig.grid_size cfg →
     ∃ s rng', reset cfg rng = Ok (s, rng'))
  ∧ (∀ cfg rng s rng',
     SnakeConfig.initial_length cfg ≤ SnakeConfig.grid_size cfg →
     reset cfg rng = Ok (s, rng') →
     Forall (in_grid (SnakeConfig.grid_size cfg)) (snake s)
     ∧ (∃ head_x,
          snake s = line head_x (SnakeConfig.grid_size cfg `div` 2)
                         (SnakeConfig.initial_length cfg))
     ∧ direction s = "right" ∧ pending_direction s = "right").
Proof.
  split_and!.
  - intros cfg rng Hsize Hlen.
    destruct (reset_spawn cfg rng) as (s & rng' & Hreset & Hps & Hd & Hp);
      [lia|].
    exists s, rng'. rewrite Hsize, Hlen in Hps.
    assert (Hc : spawn_positions 20 3 = Ok [(10, 10); (9, 10); (8, 10)])
      by (vm_compute; reflexivity).
    rewrite Hc in Hps. injection Hps as <-. done.
  - intros cfg rng Hsize Hlen. split.
    + intros Hall. apply Forall_forall with (x := (-1, 1)) in Hall.
      * destruct Hall as [Hx _]. simpl in Hx. lia.
      * apply elem_of_line. simpl. change (3 `div` 2) with 1. lia.
    + destruct (reset_spawn cfg rng) as (s & rng' & Hreset & Hps & Hd & Hp);
        [lia|].
      exists s, rng'. rewrite Hsize, Hlen in Hps.
      assert (Hc : spawn_positions 3 3 = Ok [(2, 1); (1, 1); (0, 1)])
        by (vm_compute; reflexivity).
      rewrite Hc in Hps. injection Hps as <-. done.
  - intros cfg rng Hlen. by apply reset_ok.
  - apply reset_cells.
Qed.

(** ** Apples *)

(** C8: [replenish_apples] always returns.  It draws its new apples from
    the free tiles and removes them there, touching nothing else, until the
    apple count is at least the target (the smaller of the configured count
    and the number of free tiles) or no free tile is left; from disjoint
    sets the count afterwards is exactly the larger of the old count and the
    target.  With one free tile at most one apple is placed.  After [reset]
    on the 4 board with length 3 and 5 apples there are exactly 5 apples,
    none on the snake. *)
Theorem replenish_apples_correct :
  (∀ s rng,
     let target :=
       Z.min (SnakeConfig.apples (config s)) (Z.of_nat (size (free_tiles s))) in
     ∃ s' rng' drawn,
       replenish_apples s rng = Ok (s', rng')
       ∧ drawn ⊆ free_tiles s
       ∧ apples s' = apples s ∪ drawn
       ∧ free_tiles s' = free_tiles s ∖ drawn
       ∧ same_but_apples s s'
       ∧ (target ≤ Z.of_nat (size (apples s')) ∨ free_tiles s' = ∅)
       ∧ (apples s ## free_tiles s →
          Z.of_nat (size (apples s'))
          = Z.max (Z.of_nat (size (apples s))) target)
       ∧ (size (free_tiles s) = 1%nat →
          (size (apples s' ∖ apples s) ≤ 1)%nat))
  ∧ (∀ cfg rng,
     SnakeConfig.grid_size cfg = 4 → SnakeConfig.initial_length cfg = 3 →
     SnakeConfig.apples cfg = 5 →
     ∃ s rng', reset cfg rng = Ok (s, rng')
       ∧ size (apples s) = 5%nat
       ∧ apples s ## snake_set s
       ∧ ∀ p, p ∈ snake s → p ∉ apples s).
Proof.
  split.
  - intros s rng target.
    destruct (replenish_apples_spec s rng)
      as (drawn & rng' & Hrun & Hsub & Hstop & _ & Hcount).
    eexists _, rng', drawn. split; [exact Hrun|]. simpl.
    split_and!; try done.
    intros Hone. rewrite <- Hone. apply subseteq_size. set_solver.
  - intros cfg rng Hsize Hlen Hap.
    destruct (reset_ok cfg rng) as (s & rng' & Hreset); [lia|].
    exists s, rng'. split; [done|].
    apply reset_inv in Hreset
      as (_ & _ & Hps & Hss & Hsub & _ & Hcount & _).
    rewrite Hsize, Hlen in Hps.
    assert (Hc : spawn_positions 4 3 = Ok [(2, 2); (1, 2); (0, 2)])
      by (vm_compute; reflexivity).
    rewrite Hc in Hps. injection Hps as Hps.
    rewrite Hsize, Hap, Hss, <- Hps in Hcount.
    replace (size (all_cells 4 ∖ list_to_set [(2, 2); (1, 2); (0, 2)]))
      with 13%nat in Hcount by (vm_compute; reflexivity).
    split_and!; [lia | set_solver |].
    intros p Hp. rewrite Hss in Hsub. set_solver.
Qed.

(** ** Runs reach reachable states *)

Lemma run_calls_reachable cfg cs s rng s' rng' :
  reachable cfg s → run_calls cs s rng = Ok (s', rng') → reachable cfg s'.
Proof.
  revert s rng. induction cs as [|[|d] cs IH]; intros s rng Hs H; simpl in H.
  - by injection H as <- <-.
  - apply bind_Ok in H as ([[b s1] rng1] & Hmove & H).
    eapply IH; [|exact H]. by eapply reach_move.
  - eapply IH; [|exact H]. by apply reach_queue.
Qed.

Lemma run_reachable cfg cs rng s rng' :
  run cfg cs rng = Ok (s, rng') → reachable cfg s.
Proof.
  unfold run. intros H. apply bind_Ok in H as ([s0 rng0] & Hreset & H).
  eapply run_calls_reachable; [|exact H]. by eapply reach_reset.
Qed.

Lemma state_after_reachable cfg cs rng :
  is_ok (run cfg cs rng) = true → reachable cfg (state_after cfg cs rng).
Proof.
  unfold state_after. destruct (run cfg cs rng) as [[s rng']| |] eqn:Hrun;
    [|discriminate..].
  intros _. by eapply run_reachable.
Qed.

(** Decide a closed membership by evaluation. *)
Ltac by_eval :=
  lazymatch goal with
  | |- ¬ ?P =>
      let d := constr:(_ : Decision P) in
      apply (@bool_decide_eq_false_1 P d); vm_compute; reflexivity
  | |- ?x ∈ ?X =>
      let d := constr:(_ : Decision (x ∈ X)) in
      apply (@bool_decide_eq_true_1 (x ∈ X) d); vm_compute; reflexivity
  | |- _ => vm_compute; reflexivity
  end.

(** ** The tail slide *)

(** On a tail slide the new head is pushed and then popped from the
    bookkeeping: it leads the deque, but the occupancy set no longer holds
    it and it counts as a free tile (or as an apple, when [replenish_apples]
    draws it at once). *)
Lemma tail_slide_loses_head s rng s' rng' tl :
  move s rng = Ok (true, s', rng') →
  new_head (committed s) = Ok (Some tl) →
  last (snake s) = Some tl →
  tl ∉ apples s →
  head (snake s') = Some tl
  ∧ (tl ∉ snake_set s')
  ∧ (tl ∈ free_tiles s' ∨ tl ∈ apples s').
Proof.
  intros Hmove Hnh Htl Hap.
  apply move_inv in Hmove
    as [(_ & [=] & _) | [(_ & _ & [=] & _) | (_ & nh' & tl' & Hnh' & Htl' & H)]].
  rewrite Hnh in Hnh'. injection Hnh' as <-.
  rewrite Htl in Htl'. injection Htl' as <-.
  destruct H as [([=] & _) | [(_ & Hyes & _) | (_ & _ & _ & H)]]; [done|].
  apply replenish_apples_inv in H as (drawn & Hsub & ->). simpl.
  split_and!.
  - destruct (snake s); [done|]. done.
  - set_solver.
  - destruct (decide (tl ∈ drawn)); set_solver.
Qed.

(** The collision rule as [move] evaluates it, on the occupancy set: a
    candidate head in the set is fatal unless it is the tail cell and holds
    no apple. *)
Lemma move_collision_rule s rng nh tl :
  alive s = true →
  new_head (committed s) = Ok (Some nh) →
  last (snake s) = Some tl →
  nh ∈ snake_set s →
  (¬ (nh = tl ∧ nh ∉ apples s) →
   move s rng = Ok (false, with_alive false (committed s), rng))
  ∧ (nh = tl → nh ∉ apples s → ∃ s' rng', move s rng = Ok (true, s', rng')).
Proof.
  intros Halive Hnh Htl Hss. rewrite move_eq, Halive, Hnh. simpl.
  unfold move_onto, deque_last. simpl. rewrite Htl. simpl.
  rewrite (bool_decide_eq_true_2 _ Hss). simpl. split.
  - intros Hno.
    destruct (decide (nh ∈ apples s)) as [Hap | Hap].
    + by rewrite (bool_decide_eq_true_2 _ Hap).
    + rewrite (bool_decide_eq_false_2 _ Hap). simpl.
      rewrite bool_decide_eq_false_2; [done | tauto].
  - intros -> Hap. rewrite (bool_decide_eq_false_2 _ Hap). simpl.
    rewrite (bool_decide_eq_true_2 (tl = tl)) by done. simpl.
    unfold deque_pop. rewrite last_cons_ne, Htl
      by (intros Hnil; by rewrite Hnil in Htl).
    simpl.
    match goal with |- context [replenish_apples ?m rng] =>
      destruct (replenish_apples_spec m rng) as (? & ? & -> & _) end.
    simpl. by do 2 eexists.
Qed.

(** ** Without a tail slide the bookkeeping stays consistent *)

Lemma removelast_last {A} (l : list A) (x : A) :
  last l = Some x → l = removelast l ++ [x].
Proof.
  induction l as [|y l IH]; [done|].
  destruct l as [|z l]; [by intros [= ->]|].
  intros Hl. change (removelast (y :: z :: l)) with (y :: removelast (z :: l)).
  simpl. f_equal. by apply IH.
Qed.

Lemma partitioned_replenish m rng s' rng' :
  partitioned m → replenish_apples m rng = Ok (s', rng') →
  partitioned s' ∧ snake s' = snake m ∧ snake_set s' = snake_set m.
Proof.
  intros (Hsa & Hsf & Haf & Hall) H.
  apply replenish_apples_inv in H as (drawn & Hsub & ->).
  unfold partitioned. simpl. rewrite <- Hall. clear Hall.
  split_and!; [set_solver | set_solver | set_solver | | done | done].
  apply set_eq. intros p. destruct (decide (p ∈ drawn)); set_solver.
Qed.

Lemma consistent_reset cfg rng s rng' :
  SnakeConfig.initial_length cfg ≤ SnakeConfig.grid_size cfg →
  reset cfg rng = Ok (s, rng') → consistent s.
Proof.
  intros Hfit Hreset.
  destruct (reset_cells cfg rng s rng' Hfit Hreset)
    as (Hin & [head_x Hline] & _).
  apply reset_inv in Hreset
    as (_ & _ & _ & Hss & Hap & Hfr & _ & _ & Hcfg & _).
  split_and!; [done | rewrite Hline; apply NoDup_line |].
  unfold partitioned. rewrite Hcfg, Hfr.
  assert (Hsub : snake_set s ⊆ all_cells (SnakeConfig.grid_size cfg)).
  { rewrite Hss. intros p Hp. apply elem_of_list_to_set in Hp.
    apply elem_of_all_cells. by eapply Forall_forall in Hin. }
  clear Hfr Hss Hin Hline. revert Hap Hsub.
  generalize (all_cells (SnakeConfig.grid_size cfg)). intros cells Hap Hsub.
  split_and!; [set_solver | set_solver | set_solver |].
  apply set_eq. intros p.
  destruct (decide (p ∈ snake_set s)), (decide (p ∈ apples s)); set_solver.
Qed.

Section Consistency.

Context (s : SnakeGame) (Hcons : consistent s).

Lemma consistent_queue d : consistent (queue_direction s d).
Proof.
  pose proof (queue_direction_same s d) as Hsame.
  unfold same_but_pending in Hsame. by rewrite Hsame.
Qed.

(** A move keeps the bookkeeping consistent unless it is a tail slide. *)
Lemma consistent_move rng b s' rng' :
  0 < SnakeConfig.grid_size (config s) →
  move s rng = Ok (b, s', rng') →
  (b = true → ∀ tl, new_head (committed s) = Ok (Some tl) →
                    last (snake s) ≠ Some tl) →
  consistent s'.
Proof.
  destruct Hcons as (Hss & Hnd & Hpart). intros Hsize Hmove Hnoslide.
  apply move_inv in Hmove
    as [(_ & _ & -> & _) | [(_ & _ & _ & -> & _)
                           | (_ & nh & tl & Hnh & Htl & H)]]; [done.. |].
  destruct H as [(_ & _ & _ & -> & _) | [(-> & Hap & Hno & H) | (-> & Hap & Hno & H)]];
    [done | |].
  - assert (Hpart' : partitioned (grown (committed s) nh)).
    { destruct Hpart as (Hsa & Hsf & Haf & Hall).
      unfold partitioned. simpl. rewrite <- Hall. clear Hall.
      split_and!; [set_solver | set_solver | set_solver |].
      apply set_eq. intros p. destruct (decide (p = nh)); set_solver. }
    destruct (partitioned_replenish _ _ _ _ Hpart' H) as (Hp & Hsn & Hset).
    split_and!; [|rewrite Hsn; simpl|done].
    + rewrite Hset, Hsn. simpl. rewrite Hss. set_solver.
    + apply NoDup_cons. split; [|done]. rewrite Hss in Hno. set_solver.
  - assert (Hne : nh ≠ tl).
    { intros ->. by eapply Hnoslide. }
    destruct Hno as [Hno | ?]; [|done].
    pose proof (removelast_last _ _ Htl) as Hsplit.
    assert (Hnd' : NoDup (removelast (snake s) ++ [tl])) by by rewrite <- Hsplit.
    apply NoDup_app in Hnd' as (Hnd1 & Hnd2 & _).
    assert (Htl_in : tl ∈ snake_set s).
    { rewrite Hss, Hsplit. set_solver. }
    assert (Hnh_in : in_grid (SnakeConfig.grid_size (config s)) nh)
      by (by apply (new_head_in_grid (committed s))).
    assert (Hnh_free : nh ∈ free_tiles s).
    { destruct Hpart as (_ & _ & _ & Hall).
      apply elem_of_all_cells in Hnh_in. rewrite <- Hall in Hnh_in.
      clear Hall. set_solver. }
    assert (Hcells : snake (slid (committed s) nh tl)
                     = nh :: removelast (snake s)).
    { simpl. by destruct (snake s). }
    assert (Hpart' : partitioned (slid (committed s) nh tl)).
    { destruct Hpart as (Hsa & Hsf & Haf & Hall).
      unfold partitioned. simpl. rewrite <- Hall. clear Hall Hnh Hnh_in.
      split_and!; [set_solver | set_solver | set_solver |].
      apply set_eq. intros p.
      destruct (decide (p = nh)), (decide (p = tl)); set_solver. }
    destruct (partitioned_replenish _ _ _ _ Hpart' H) as (Hp & Hsn & Hset).
    split_and!; [|rewrite Hsn, Hcells|done].
    + rewrite Hset, Hsn, Hcells. simpl. rewrite Hss.
      rewrite Hsplit at 1. rewrite list_to_set_app_L. simpl.
      apply set_eq. intros p.
      assert (tl ∉ removelast (snake s)) by set_solver.
      destruct (decide (p = tl)) as [-> | ?]; set_solver.
    + apply NoDup_cons. split; [|done].
      rewrite Hss, Hsplit in Hno. set_solver.
Qed.

(** In a consistent state the collision rule is the rule on the deque: a
    candidate head on a cell of the snake is fatal, except on the tail
    cell, where the move succeeds (no apple lies under the snake, so such a
    move never grows). *)
Lemma consistent_collision_rule rng nh tl :
  alive s = true →
  new_head (committed s) = Ok (Some nh) →
  last (snake s) = Some tl →
  nh ∈ snake s →
  (nh ∉ apples s)
  ∧ (nh ≠ tl → move s rng = Ok (false, with_alive false (committed s), rng))
  ∧ (nh = tl → ∃ s' rng', move s rng = Ok (true, s', rng')).
Proof.
  destruct Hcons as (Hss & _ & Hsa & _). intros Halive Hnh Htl Hin.
  assert (Hset : nh ∈ snake_set s) by (rewrite Hss; set_solver).
  assert (Hap : nh ∉ apples s) by set_solver.
  destruct (move_collision_rule s rng nh tl Halive Hnh Htl Hset) as [Hf Ht].
  split_and!; [done | |].
  - intros Hne. apply Hf. tauto.
  - intros Heq. by apply Ht.
Qed.

End Consistency.

(** ** Where the tail slide leads *)

(** The boards of the runs below pass the settings form. *)
Lemma boards_accepted :
  settings_accept cfg_six ∧ settings_accept cfg_four
  ∧ settings_accept cfg_full.
Proof.
  unfold settings_accept, MIN_GRID_SIZE, MAX_GRID_SIZE, MIN_CELL_SIZE,
    MAX_CELL_SIZE, MIN_SPEED_MS, MAX_SPEED_MS, MIN_APPLES, MAX_APPLES,
    MIN_INITIAL_LENGTH.
  simpl. lia.
Qed.

(** C9: on the 8 board with a six-cell snake, four ticks close a loop with a
    tail slide onto (4,4), and four more bring the head back onto (4,4)
    while that cell is still fourth in the deque: the move is accepted and
    the deque holds (4,4) twice. *)
Theorem snake_cells_repeat :
  let s :=
    state_after cfg_six
      (steer ["up"; "left"; "left"; "down"; "down"; "left"; "up"; "right"]) [] in
  settings_accept cfg_six
  ∧ reachable cfg_six s
  ∧ snake s = [(4, 4); (3, 4); (3, 5); (4, 5); (4, 4); (4, 3)]
  ∧ alive s = true
  ∧ ¬ NoDup (snake s).
Proof.
  intros s.
  assert (Hs : snake s = [(4, 4); (3, 4); (3, 5); (4, 5); (4, 4); (4, 3)])
    by by_eval.
  split_and!.
  - apply boards_accepted.
  - apply state_after_reachable. by_eval.
  - exact Hs.
  - by_eval.
  - rewrite Hs. clear Hs. by_eval.
Qed.

(** C2: in the state before that last tick the snake is alive, the
    candidate head is (4,4), and (4,4) is the fourth cell of the deque, not
    its tail (5,3); [move] returns true and the snake stays alive. *)
Theorem body_collision_survived :
  let s :=
    state_after cfg_six
      (steer ["up"; "left"; "left"; "down"; "down"; "left"; "up"]
       ++ [Queue "right"]) [] in
  let s' :=
    state_after cfg_six
      (steer ["up"; "left"; "left"; "down"; "down"; "left"; "up"; "right"]) [] in
  settings_accept cfg_six
  ∧ reachable cfg_six s
  ∧ alive s = true
  ∧ new_head (committed s) = Ok (Some (4, 4))
  ∧ snake s = [(3, 4); (3, 5); (4, 5); (4, 4); (4, 3); (5, 3)]
  ∧ last (snake s) = Some (5, 3)
  ∧ ((4, 4) ∉ snake_set s)
  ∧ move s [] = Ok (true, s', [])
  ∧ alive s' = true.
Proof.
  intros s s'. split_and!; try by_eval.
  - apply boards_accepted.
  - apply state_after_reachable. by_eval.
Qed.

(** C1: on the 8 board with a four-cell snake, a tail slide onto (3,4)
    leaves that cell among the free tiles; the apple drawn after the next
    meal lands on it; and when the cell is popped from the deque four ticks
    later it is put among the free tiles again: (3,4) is an apple and a free
    tile at once. *)
Theorem apple_on_free_tile :
  let s :=
    state_after cfg_four
      (steer ["up"; "left"; "down"; "down"; "down"; "left"; "left"; "left"])
      draws_four in
  settings_accept cfg_four
  ∧ reachable cfg_four s
  ∧ (3, 4) ∈ apples s
  ∧ (3, 4) ∈ free_tiles s
  ∧ ¬ partitioned s.
Proof.
  intros s.
  assert (Hap : (3, 4) ∈ apples s) by by_eval.
  assert (Hfr : (3, 4) ∈ free_tiles s) by by_eval.
  split_and!; [| | exact Hap | exact Hfr |].
  - apply boards_accepted.
  - apply state_after_reachable. by_eval.
  - intros (_ & _ & Hdisj & _). exact (Hdisj _ Hap Hfr).
Qed.

(** The states of that run in between: after the slide the head (3,4) is a
    free tile outside the occupancy set; after the meal it is an apple. *)
Lemma slide_then_meal_states :
  let slide := state_after cfg_four (steer ["up"; "left"; "down"]) draws_four in
  let meal :=
    state_after cfg_four (steer ["up"; "left"; "down"; "down"]) draws_four in
  (apples (state_after cfg_four [] draws_four) = {[(3, 5)]}
   ∧ snake slide = [(3, 4); (3, 3); (4, 3); (4, 4)]
   ∧ (3, 4) ∈ free_tiles slide
   ∧ ((3, 4) ∉ snake_set slide) ∧ apples slide = {[(3, 5)]})
  ∧ (snake meal = [(3, 5); (3, 4); (3, 3); (4, 3); (4, 4)]
     ∧ apples meal = {[(3, 4)]} ∧ (3, 4) ∉ snake_set meal).
Proof.
  split_and!; by_eval.
Qed.

(** C4, the claim as stated fails: on the 8 board with 62 apples the snake
    eats its way along a tour of the whole board; the next move slides onto
    the tail cell (3,4) with no apple and no free tile left, and the one
    apple that [replenish_apples] then draws is that cell.  The move
    succeeded without growing, and the old tail cell is not a free tile. *)
Lemma tail_cell_not_free :
  let s := state_after cfg_full (steer tour_full ++ [Queue "right"]) [] in
  let s' := state_after cfg_full (steer (tour_full ++ ["right"])) [] in
  settings_accept cfg_full
  ∧ reachable cfg_full s
  ∧ length (snake s) = 64%nat ∧ apples s = ∅ ∧ free_tiles s = ∅
  ∧ move s [] = Ok (true, s', [])
  ∧ new_head (committed s) = Ok (Some (3, 4))
  ∧ ((3, 4) ∉ apples s)
  ∧ last (snake s) = Some (3, 4)
  ∧ length (snake s') = length (snake s)
  ∧ ((3, 4) ∉ free_tiles s')
  ∧ (3, 4) ∈ apples s'.
Proof.
  intros s s'. split_and!; try by_eval.
  - apply boards_accepted.
  - apply state_after_reachable. by_eval.
Qed.

(** The same on the 2 board in three ticks: two meals fill the board, the
    third move slides onto the tail cell (0,1), which becomes the apple. *)
Lemma tiny_board_tail_cell :
  let s := state_after cfg_tiny (steer ["up"; "left"] ++ [Queue "down"]) [] in
  let s' := state_after cfg_tiny (steer ["up"; "left"; "down"]) [] in
  reachable cfg_tiny s
  ∧ snake s = [(0, 0); (1, 0); (1, 1); (0, 1)]
  ∧ move s [] = Ok (true, s', [])
  ∧ new_head (committed s) = Ok (Some (0, 1))
  ∧ ((0, 1) ∉ apples s)
  ∧ snake s' = [(0, 1); (0, 0); (1, 0); (1, 1)]
  ∧ ((0, 1) ∉ free_tiles s')
  ∧ (0, 1) ∈ apples s'.
Proof.
  split_and!; try by_eval.
  apply state_after_reachable. by_eval.
Qed.

(** ** The theorems at concrete states *)

Ltac by_eval_lia := vm_compute; lia.

Lemma queue_direction_witness :
  let s := state_after cfg_four [] [] in
  let s1 := state_after (cfg_small 8 1 1) [] [] in
  queue_direction s "north" = s
  ∧ queue_direction s "left" = s
  ∧ queue_direction s "up" = with_pending_direction "up" s
  ∧ pending_direction (queue_direction s1 "left") = "left".
Proof.
  intros s s1.
  destruct (queue_direction_spec s "north") as (Hinv & _).
  destruct (queue_direction_spec s "left") as (_ & Hrej & _).
  destruct (queue_direction_spec s "up") as (_ & _ & Hacc & _).
  destruct (queue_direction_spec s1 "left") as (_ & _ & _ & Hone & _).
  split_and!.
  - apply Hinv. by_eval.
  - apply Hrej; [unfold is_opposite; by_eval | by_eval_lia].
  - apply Hacc; [by_eval|]. intros [Hopp _].
    assert (Hno : ¬ is_opposite "up" (direction s))
      by (unfold is_opposite; by_eval).
    exact (Hno Hopp).
  - apply Hone; [unfold is_opposite; by_eval | by_eval].
Defined.

Lemma move_wall_witness :
  let s := state_after cfg_tiny [] [] in
  let w := state_after cfg_wrap [Move] [] in
  move s [] = Ok (false, with_alive false (committed s), [])
  ∧ ∃ w' rng', move w [] = Ok (true, w', rng')
      ∧ alive w' = true ∧ head (snake w') = Some (0, 1).
Proof.
  intros s w. split.
  - refine (proj1 (move_wall s [] 2 1 _ _) _ _); by_eval.
  - assert (Halive : alive w = true) by by_eval.
    assert (Hnext : _next_head (committed w) (direction (committed w))
                    = Ok (3, 1)) by by_eval.
    assert (Hwrap : SnakeConfig.wrap_walls (config w) = true) by by_eval.
    assert (Hsize : 0 < SnakeConfig.grid_size (config w)) by by_eval.
    destruct (proj2 (move_wall w [] 3 1 Halive Hnext) Hwrap Hsize)
      as (_ & _ & _ & _ & _ & _ & _ & Hok).
    destruct Hok as (w' & rng' & Hmove & Ha & Hh); [by_eval|].
    exists w', rng'. split_and!; [exact Hmove | exact Ha |].
    rewrite Hh. by_eval.
Defined.

Lemma move_not_growing_witness :
  let s := state_after cfg_four [] draws_four in
  let s' := state_after cfg_four [Move] draws_four in
  length (snake s') = length (snake s)
  ∧ ((5, 4) ≠ (1, 4) → (1, 4) ∈ free_tiles s' ∧ (1, 4) ∉ snake_set s').
Proof.
  intros s s'.
  apply (move_not_growing cfg_four s [32%nat] s' [32%nat] (5, 4) (1, 4)).
  - apply state_after_reachable. by_eval.
  - by_eval.
  - by_eval.
  - by_eval.
  - by_eval.
Defined.

Lemma move_growing_witness :
  let s := state_after cfg_tiny [Queue "up"] [] in
  let s' := state_after cfg_tiny [Queue "up"; Move] [] in
  snake s' = (1, 0) :: snake s
  ∧ length (snake s') = S (length (snake s))
  ∧ score s' = score s + 1
  ∧ ((1, 0) ∉ apples s')
  ∧ free_tiles s' ⊆ free_tiles s
  ∧ snake_set s ⊆ snake_set s'.
Proof.
  intros s s'.
  apply (move_growing s [] s' [] (1, 0)); by_eval.
Defined.

Lemma length_is_initial_plus_score_witness :
  let s :=
    state_after cfg_four (steer ["up"; "left"; "down"; "down"]) draws_four in
  Z.of_nat (length (snake s)) = 4 + score s
  ∧ 0 ≤ score s
  ∧ (1 < length (snake s))%nat.
Proof.
  intros s.
  assert (Hreach : reachable cfg_four s)
    by (apply state_after_reachable; by_eval).
  destruct (length_is_initial_plus_score cfg_four s Hreach)
    as (Hlen & Hscore & _ & _ & Hmin).
  split_and!; [exact Hlen | exact Hscore |].
  apply Hmin. unfold MIN_INITIAL_LENGTH. simpl. lia.
Defined.

Lemma spawn_spec_witness :
  (∃ s rng', reset SnakeConfig.default [] = Ok (s, rng')
     ∧ snake s = [(10, 10); (9, 10); (8, 10)]
     ∧ direction s = "right" ∧ pending_direction s = "right")
  ∧ (∃ s rng', reset (cfg_small 3 3 1) [] = Ok (s, rng')
       ∧ snake s = [(2, 1); (1, 1); (0, 1)]
       ∧ direction s = "right" ∧ pending_direction s = "right")
  ∧ Forall (in_grid 8) (snake (state_after cfg_six [] [])).
Proof.
  destruct spawn_spec as (Hdefault & Hsmall & _ & Hfit).
  split_and!.
  - apply Hdefault; reflexivity.
  - apply Hsmall; reflexivity.
  - apply (Hfit cfg_six [] (state_after cfg_six [] []) []); [simpl; lia|].
    by_eval.
Defined.

Lemma replenish_apples_correct_witness :
  (∃ s' rng', replenish_apples one_free [] = Ok (s', rng')
     ∧ (size (apples s' ∖ apples one_free) ≤ 1)%nat)
  ∧ (∃ s rng', reset (cfg_small 4 3 5) [] = Ok (s, rng')
       ∧ size (apples s) = 5%nat
       ∧ apples s ## snake_set s
       ∧ ∀ p, p ∈ snake s → p ∉ apples s).
Proof.
  destruct replenish_apples_correct as (Hrep & Hreset). split.
  - destruct (Hrep one_free [])
      as (s' & rng' & drawn & Hrun & _ & _ & _ & _ & _ & _ & Hone).
    exists s', rng'. split; [exact Hrun|]. apply Hone. by_eval.
  - apply Hreset; reflexivity.
Defined.

(** * More of the engine *)

(** ** What a call of [move] reports and keeps *)

(** X1: [move] returns the value it leaves in [alive].  It never touches the
    configuration, the grid, [running] or the queued direction, and on a
    live game the direction becomes the queued one.  When it returns false
    the snake, the three cell sets, the score and the random generator are
    as before the call. *)
Theorem move_reports_alive (s : SnakeGame) (rng : list nat) (b : bool)
    (s' : SnakeGame) (rng' : list nat) :
  move s rng = Ok (b, s', rng') →
  alive s' = b
  ∧ config s' = config s ∧ grid s' = grid s ∧ running s' = running s
  ∧ pending_direction s' = pending_direction s
  ∧ (alive s = true → direction s' = pending_direction s)
  ∧ (b = false →
     snake s' = snake s ∧ snake_set s' = snake_set s ∧ apples s' = apples s
     ∧ free_tiles s' = free_tiles s ∧ score s' = score s ∧ rng' = rng).
Proof.
  intros H. apply move_inv in H
    as [(Ha & -> & -> & ->) | [(Ha & _ & -> & -> & ->)
                              | (Ha & nh & tl & _ & _ & H)]].
  - split_and!; try done. by rewrite Ha.
  - done.
  - destruct H as [(-> & _ & _ & -> & ->) | [(-> & _ & _ & H) | (-> & _ & _ & H)]];
      [done | |];
      apply replenish_apples_inv in H as (dr & _ & ->); simpl;
      split_and!; done.
Qed.

(** X2: once the game is over no sequence of [move] and [queue_direction]
    calls raises, draws from the random generator, revives the snake, or
    changes the snake, the cell sets, the score or the direction. *)
Theorem game_over_is_terminal (cs : list call) : ∀ s rng,
  alive s = false →
  ∃ s', run_calls cs s rng = Ok (s', rng)
    ∧ alive s' = false ∧ snake s' = snake s ∧ snake_set s' = snake_set s
    ∧ apples s' = apples s ∧ free_tiles s' = free_tiles s
    ∧ score s' = score s ∧ direction s' = direction s.
Proof.
  induction cs as [|[|d] cs IH]; intros s rng Hdead; simpl.
  - by exists s.
  - rewrite move_eq, Hdead. simpl. by apply IH.
  - pose proof (queue_direction_same s d) as Hsame.
    unfold same_but_pending in Hsame.
    destruct (IH (queue_direction s d) rng) as (s' & Hrun & H);
      [by rewrite Hsame|].
    exists s'. split; [done|]. rewrite Hsame in H. exact H.
Qed.

Lemma next_head_step s d x y :
  _next_head s d = Ok (x, y) →
  ∃ hx hy dx dy, head (snake s) = Some (hx, hy)
    ∧ Z.abs dx + Z.abs dy = 1 ∧ x = hx + dx ∧ y = hy + dy.
Proof.
  unfold _next_head, deque_first.
  destruct (snake s) as [|[hx hy] l]; [discriminate|]. simpl.
  intros H. exists hx, hy.
  repeat case_decide; injection H as <- <-.
  - exists 0, (-1). split_and!; [done | lia..].
  - exists 0, 1. split_and!; [done | lia..].
  - exists (-1), 0. split_and!; [done | lia..].
  - exists 1, 0. split_and!; [done | lia..].
Qed.

(** X3: a successful [move] puts exactly one new cell in front of the deque:
    the old head moved by one step along one axis, reduced modulo the board
    size on each axis when the walls are open and on the board when they
    are closed.  Behind it comes the old deque, whole or without its last
    cell. *)
Theorem move_advances_head (s : SnakeGame) (rng : list nat) (s' : SnakeGame)
    (rng' : list nat) :
  move s rng = Ok (true, s', rng') →
  let size := SnakeConfig.grid_size (config s) in
  ∃ hx hy dx dy nh,
    head (snake s) = Some (hx, hy)
    ∧ Z.abs dx + Z.abs dy = 1
    ∧ nh = (if SnakeConfig.wrap_walls (config s)
            then ((hx + dx) `mod` size, (hy + dy) `mod` size)
            else (hx + dx, hy + dy))
    ∧ (SnakeConfig.wrap_walls (config s) = false → in_grid size nh)
    ∧ (snake s' = nh :: snake s ∨ snake s' = nh :: removelast (snake s)).
Proof.
  intros H size. apply move_inv in H
    as [(_ & [=] & _) | [(_ & _ & [=] & _) | (_ & nh & tl & Hnh & Htl & H)]].
  assert (Hne : snake s ≠ []) by (intros Hnil; by rewrite Hnil in Htl).
  assert (Hsnake : snake s' = nh :: snake s
                   ∨ snake s' = nh :: removelast (snake s)).
  { destruct H as [([=] & _) | [(_ & _ & _ & H) | (_ & _ & _ & H)]];
      apply replenish_apples_inv in H as (dr & _ & ->); simpl.
    - by left.
    - right. by destruct (snake s). }
  unfold new_head in Hnh. apply bind_Ok in Hnh as ([x y] & Hnext & Hnh).
  apply next_head_step in Hnext as (hx & hy & dx & dy & Hhd & Habs & -> & ->).
  exists hx, hy, dx, dy, nh. simpl in *. fold size in Hnh.
  split_and!; try done.
  - destruct (SnakeConfig.wrap_walls (config s)).
    + unfold py_mod in Hnh. case_decide; [discriminate|]. simpl in Hnh.
      by injection Hnh as <-.
    + destruct (negb _); [discriminate|]. by injection Hnh as <-.
  - intros Hw. rewrite Hw in Hnh.
    destruct (_in_bounds _ _ _) eqn:Hb; simpl in Hnh; [|discriminate].
    injection Hnh as <-. unfold _in_bounds in Hb. simpl in Hb.
    apply andb_true_iff in Hb as [Hx Hy].
    apply bool_decide_eq_true_1 in Hx, Hy. done.
Qed.

(** ** Directions *)

Lemma not_opposite_self d : ¬ is_opposite d d.
Proof.
  unfold is_opposite. intros H.
  repeat (apply elem_of_cons in H as [[= -> ?] | H]; [done|]).
  by apply elem_of_nil in H.
Qed.

Lemma reachable_directions cfg s :
  reachable cfg s →
  direction s ∈ valid_directions ∧ pending_direction s ∈ valid_directions
  ∧ ((1 < length (snake s))%nat →
     ¬ is_opposite (pending_direction s) (direction s)).
Proof.
  induction 1 as [rng s rng' Hreset | s rng b s' rng' _ IH Hmove | s d _ IH].
  - apply reset_inv in Hreset
      as (_ & _ & _ & _ & _ & _ & _ & _ & _ & -> & -> & _).
    split_and!; [set_solver | set_solver |]. intros _. apply not_opposite_self.
  - destruct IH as (Hd & Hp & Hno).
    pose proof (move_length _ _ _ _ _ Hmove) as Hlen.
    apply move_inv in Hmove
      as [(_ & _ & -> & _) | [(_ & _ & _ & -> & _)
                             | (_ & nh & tl & _ & _ & H)]].
    + done.
    + simpl. split_and!; try done. intros _. apply not_opposite_self.
    + assert (direction s' = pending_direction s
              ∧ pending_direction s' = pending_direction s) as [-> ->].
      { destruct H as [(_ & _ & _ & -> & _) | [(_ & _ & _ & H) | (_ & _ & _ & H)]];
          [done | |]; apply replenish_apples_inv in H as (dr & _ & ->); done. }
      split_and!; try done. intros _. apply not_opposite_self.
  - destruct IH as (Hd & Hp & Hno).
    pose proof (queue_direction_same s d) as Hsame.
    unfold same_but_pending in Hsame.
    assert (Hdir : direction (queue_direction s d) = direction s)
      by (by rewrite Hsame).
    assert (Hsn : snake (queue_direction s d) = snake s) by (by rewrite Hsame).
    rewrite Hdir, Hsn. clear Hsame Hdir Hsn.
    destruct (decide (d ∈ valid_directions)) as [Hv | Hv].
    + destruct (decide (is_opposite d (direction s)
                        ∧ (1 < length (snake s))%nat)) as [[Ho Hl] | Hacc].
      * by rewrite queue_direction_rejects.
      * rewrite queue_direction_accepts by done. simpl.
        split_and!; try done. tauto.
    + assert (queue_direction s d = s) as ->; [|done].
      unfold queue_direction.
      destruct (opposites !! d) eqn:Ho; [|done].
      exfalso. apply Hv, opposites_valid. by eexists.
Qed.

Lemma move_direction s rng b s' rng' :
  move s rng = Ok (b, s', rng') →
  direction s' = if alive s then pending_direction s else direction s.
Proof.
  intros H. apply move_inv in H
    as [(-> & _ & -> & _) | [(-> & _ & _ & -> & _)
                            | (-> & nh & tl & _ & _ & H)]]; [done.. |].
  destruct H as [(_ & _ & _ & -> & _) | [(_ & _ & _ & H) | (_ & _ & _ & H)]];
    [done | |]; apply replenish_apples_inv in H as (dr & _ & ->); done.
Qed.

(** X4: in every reachable state the current and the queued direction are
    two of the four directions.  While the snake is longer than one cell the
    queued direction is never the opposite of the current one, and no
    [move] turns the snake around: the direction after the call is not the
    opposite of the direction before. *)
Theorem no_reversal (cfg : SnakeConfig.t) (s : SnakeGame) :
  reachable cfg s →
  direction s ∈ valid_directions ∧ pending_direction s ∈ valid_directions
  ∧ ((1 < length (snake s))%nat →
     ¬ is_opposite (pending_direction s) (direction s)
     ∧ ∀ rng b s' rng', move s rng = Ok (b, s', rng') →
         ¬ is_opposite (direction s') (direction s)).
Proof.
  intros Hreach.
  destruct (reachable_directions cfg s Hreach) as (Hd & Hp & Hno).
  split_and!; try done. intros Hlen. split; [by apply Hno|].
  intros rng b s' rng' Hmove.
  destruct (alive s) eqn:Halive.
  - apply move_inv in Hmove
      as [(Ha & _) | [(_ & _ & _ & -> & _) | (_ & nh & tl & _ & _ & H)]].
    + congruence.
    + simpl. by apply Hno.
    + assert (direction s' = pending_direction s) as ->; [|by apply Hno].
      destruct H as [(_ & _ & _ & -> & _) | [(_ & _ & _ & H) | (_ & _ & _ & H)]];
        [done | |]; apply replenish_apples_inv in H as (dr & _ & ->); done.
  - rewrite move_eq, Halive in Hmove. simpl in Hmove.
    injection Hmove as _ <- _. apply not_opposite_self.
Qed.

(** ** [reset] on settings the engine does not check *)

Lemma py_index_wrap {A} (l : list A) (i : Z) :
  - Z.of_nat (length l) ≤ i < Z.of_nat (length l) →
  ∃ k, py_index l i = Ok k ∧ (k < length l)%nat.
Proof.
  intros Hi. unfold py_index.
  destruct (decide (0 ≤ i < Z.of_nat (length l))).
  - eexists. split; [done|]. lia.
  - rewrite decide_True by lia. eexists. split; [done|]. lia.
Qed.

Lemma py_index_out {A} (l : list A) (i : Z) :
  Z.of_nat (length l) ≤ i → py_index l i = Raise IndexError.
Proof.
  intros Hi. unfold py_index. rewrite !decide_False by lia. done.
Qed.

Lemma py_index_nil {A} (i : Z) : py_index (@nil A) i = Raise IndexError.
Proof. unfold py_index. simpl. repeat case_decide; try done; lia. Qed.

Lemma grid_set_wrap n g x y v :
  square n g → - Z.of_nat n ≤ x < Z.of_nat n → - Z.of_nat n ≤ y < Z.of_nat n →
  ∃ g', grid_set g x y v = Ok g' ∧ square n g'.
Proof.
  intros [Hlen Hrows] Hx Hy. unfold grid_set.
  destruct (py_index_wrap g y) as (iy & -> & Hiy); [lia|]. simpl.
  destruct (lookup_lt_is_Some_2 g iy) as [row Hrow]; [lia|].
  rewrite Hrow.
  assert (Hr : length row = n).
  { eapply (Forall_lookup_1 _ _ _ _ Hrows Hrow). }
  destruct (py_index_wrap row x) as (ix & -> & Hix); [lia|]. simpl.
  eexists. split; [done|].
  split; [by rewrite length_insert|].
  apply Forall_insert; [done|]. by rewrite length_insert.
Qed.

Lemma spawn_loop_wrap n ps s :
  square n (grid s) →
  Forall (λ p, - Z.of_nat n ≤ p.1 < Z.of_nat n
               ∧ - Z.of_nat n ≤ p.2 < Z.of_nat n) ps →
  ∃ s', spawn_loop ps s = Ok s'.
Proof.
  revert s. induction ps as [|[x y] ps IH]; intros s Hsq Hps; simpl.
  - by eexists.
  - apply Forall_cons in Hps as [[Hx Hy] Hps]. simpl in *.
    destruct (grid_set_wrap n (grid s) x y 1) as (g' & -> & Hsq'); try done.
    simpl. by apply IH.
Qed.

(** The branch of [spawn_positions] for a line that does not fit. *)
Lemma spawn_positions_long size len :
  1 ≤ len → size < len →
  spawn_positions size len
  = Ok (line ((size - len) `div` 2 + len - 1) (size `div` 2) len).
Proof.
  intros Hlen Hlong. unfold spawn_positions.
  set (naive := (λ i, (size `div` 2 - i, size `div` 2)) <$> range len).
  assert (Hne : fst <$> naive ≠ []).
  { unfold naive, range. rewrite (seqZ_cons 0 len) by lia. done. }
  destruct (py_min (fst <$> naive)) as [min_x| |] eqn:Hmin;
    [|by destruct (fst <$> naive)..].
  destruct (py_max (fst <$> naive)) as [max_x| |] eqn:Hmax;
    [|by destruct (fst <$> naive)..].
  simpl. apply py_min_spec in Hmin as [_ Hmin].
  assert (Hlow : min_x ≤ (size `div` 2 - (len - 1), size `div` 2).1).
  { apply Hmin, list_elem_of_fmap_2.
    apply (elem_of_line (size `div` 2) (size `div` 2) len). simpl. lia. }
  simpl in Hlow.
  assert (size `div` 2 < len - 1 ∨ size `div` 2 = 0 ∧ len = 1) as Hc.
  { destruct (decide (0 < size)).
    - left. assert (size `div` 2 < size) by (apply Z.div_lt_upper_bound; lia).
      lia.
    - assert (size `div` 2 ≤ 0) by (apply Z.div_le_upper_bound; lia).
      destruct (decide (size `div` 2 < len - 1)); [by left|]. right. lia. }
  destruct Hc as [Hc | [Hc ->]].
  - rewrite (bool_decide_eq_true_2 (min_x < 0)) by lia. done.
  - (* len = 1, size <= 0: the single cell (0, 0) is not left of 0, but
       it is right of the board *)
    apply py_max_spec in Hmax as [Hin _].
    unfold naive, range in Hin. rewrite Hc in Hin. simpl in Hin.
    apply list_elem_of_singleton in Hin. subst max_x.
    rewrite (bool_decide_eq_true_2 (size ≤ _)) by (simpl; lia).
    by rewrite orb_true_r.
Qed.

Lemma reset_first_cell cfg rng x y ps e :
  spawn_positions (SnakeConfig.grid_size cfg) (SnakeConfig.initial_length cfg)
  = Ok ((x, y) :: ps) →
  grid_set (grid (blank cfg)) x y 1 = Raise e →
  reset cfg rng = Raise e.
Proof.
  intros Hps Hgrid. unfold reset, spawn_snake.
  change (config (blank cfg)) with cfg. rewrite Hps. simpl.
  change (grid_set _ x y 1) with (grid_set (grid (blank cfg)) x y 1).
  by rewrite Hgrid.
Qed.

Lemma line_head head_x y len :
  1 ≤ len → ∃ ps, line head_x y len = (head_x, y) :: ps.
Proof.
  intros Hlen. unfold line, range. rewrite (seqZ_cons 0 len) by lia. simpl.
  rewrite Z.sub_0_r. by eexists.
Qed.

(** X5: [SnakeGame] does not check its configuration.  With an initial
    length of zero or less [reset] raises [ValueError] ([min] of an empty
    list); with a board size of zero or less, or an initial length of the
    board size plus two or more, it raises [IndexError] at the first write
    to the grid. *)
Theorem reset_raises (cfg : SnakeConfig.t) (rng : list nat) :
  let size := SnakeConfig.grid_size cfg in
  let len := SnakeConfig.initial_length cfg in
  (len ≤ 0 → reset cfg rng = Raise ValueError)
  ∧ (1 ≤ len → size ≤ 0 → reset cfg rng = Raise IndexError)
  ∧ (1 ≤ len → size + 2 ≤ len → reset cfg rng = Raise IndexError).
Proof.
  intros size len.
  assert (Hempty : 1 ≤ len → size ≤ 0 → reset cfg rng = Raise IndexError).
  { intros Hlen Hsize.
    destruct (line_head ((size - len) `div` 2 + len - 1) (size `div` 2) len)
      as [ps Hl]; [lia|].
    apply (reset_first_cell cfg rng ((size - len) `div` 2 + len - 1)
             (size `div` 2) ps).
    - fold size len. rewrite spawn_positions_long by lia. by rewrite Hl.
    - unfold grid_set, blank. simpl. fold size. unfold range.
      rewrite (seqZ_nil 0 size) by lia. simpl. by rewrite py_index_nil. }
  split_and!; [|done|].
  - intros Hlen. unfold reset, spawn_snake, spawn_positions. simpl.
    fold len. unfold range. rewrite seqZ_nil by lia. done.
  - intros Hlen Hlong.
    destruct (decide (size ≤ 0)) as [Hsize | Hsize]; [by apply Hempty|].
    destruct (line_head ((size - len) `div` 2 + len - 1) (size `div` 2) len)
      as [ps Hl]; [lia|].
    apply (reset_first_cell cfg rng ((size - len) `div` 2 + len - 1)
             (size `div` 2) ps).
    + fold size len. rewrite spawn_positions_long by lia. by rewrite Hl.
    + assert (Hc : 0 ≤ size `div` 2 < size).
      { split; [apply Z.div_pos; lia | apply Z.div_lt_upper_bound; lia]. }
      assert (Hhead : size ≤ (size - len) `div` 2 + len - 1).
      { assert (size - len + 1 ≤ (size - len) `div` 2);
          [apply Z.div_le_lower_bound; lia | lia]. }
      unfold grid_set, blank. simpl. fold size.
      destruct (square_init size) as [Hglen Hgrows].
      rewrite py_index_ok by (rewrite Hglen; lia). simpl.
      destruct (lookup_lt_is_Some_2
                  ((λ _, (λ _, 0) <$> range size) <$> range size)
                  (Z.to_nat (size `div` 2))) as [row Hrow];
        [rewrite Hglen; lia|].
      rewrite Hrow.
      assert (Hr : length row = Z.to_nat size).
      { eapply (Forall_lookup_1 _ _ _ _ Hgrows Hrow). }
      rewrite py_index_out by (rewrite Hr; lia). done.
Qed.

(** X6: with an initial length of the board size plus one [reset] raises
    nothing: the tail cell has column -1, the negative index wraps around
    in the grid, and the game starts with a snake cell that is off the
    board, so the three cell sets do not partition the board. *)
Theorem reset_one_too_long (cfg : SnakeConfig.t) (rng : list nat) :
  let size := SnakeConfig.grid_size cfg in
  1 ≤ size → SnakeConfig.initial_length cfg = size + 1 →
  ∃ s rng', reset cfg rng = Ok (s, rng')
    ∧ snake s = line (size - 1) (size `div` 2) (size + 1)
    ∧ last (snake s) = Some (-1, size `div` 2)
    ∧ (-1, size `div` 2) ∈ snake_set s
    ∧ ¬ in_grid size (-1, size `div` 2)
    ∧ ¬ partitioned s.
Proof.
  intros size Hsize Hlen.
  assert (Hps : spawn_positions size (SnakeConfig.initial_length cfg)
                = Ok (line (size - 1) (size `div` 2) (size + 1))).
  { rewrite Hlen, spawn_positions_long by lia.
    replace ((size - (size + 1)) `div` 2) with (-1); [do 2 f_equal; lia|].
    replace (size - (size + 1)) with (-1) by lia. done. }
  assert (Hc : 0 ≤ size `div` 2 < size).
  { split; [apply Z.div_pos; lia | apply Z.div_lt_upper_bound; lia]. }
  assert (Hrun : ∃ s rng', reset cfg rng = Ok (s, rng')).
  { unfold reset, spawn_snake. change (config (blank cfg)) with cfg.
    fold size. rewrite Hps. simpl.
    destruct (spawn_loop_wrap (Z.to_nat size)
                (line (size - 1) (size `div` 2) (size + 1)) (blank cfg))
      as [s1 ->].
    - apply square_init.
    - apply Forall_forall. intros p Hp. apply elem_of_line in Hp.
      rewrite Z2Nat.id by lia. lia.
    - simpl. destruct (replenish_apples_spec s1 rng) as (? & ? & -> & _).
      by do 2 eexists. }
  destruct Hrun as (s & rng' & Hreset). exists s, rng'. split; [done|].
  apply reset_inv in Hreset
    as (_ & _ & Hps' & Hss & _ & _ & _ & _ & Hcfg & _).
  fold size in Hps'. rewrite Hps in Hps'. injection Hps' as Hsn.
  assert (Hin : (-1, size `div` 2) ∈ snake_set s).
  { rewrite Hss, <- Hsn. apply elem_of_list_to_set, elem_of_line. simpl. lia. }
  assert (Hout : ¬ in_grid size (-1, size `div` 2)).
  { unfold in_grid. simpl. lia. }
  split_and!; try done.
  - rewrite <- Hsn. unfold line, range.
    rewrite fmap_last, last_lookup, length_seqZ.
    rewrite lookup_seqZ_lt by lia. simpl. do 2 f_equal. lia.
  - intros (_ & _ & _ & Hall). apply Hout. rewrite Hcfg in Hall.
    apply elem_of_all_cells. fold size in Hall. rewrite <- Hall.
    set_solver.
Qed.

(** ** Consistent bookkeeping *)

(** X7: from a state whose bookkeeping is consistent (the occupancy set is
    the set of the deque cells, these are distinct, and the three cell sets
    partition the board) every [queue_direction] and every [move] that is
    not a tail slide leads to a consistent state again. *)
Theorem bookkeeping_preserved (s : SnakeGame) :
  consistent s →
  0 < SnakeConfig.grid_size (config s) →
  (∀ d, consistent (queue_direction s d))
  ∧ ∀ rng b s' rng',
      move s rng = Ok (b, s', rng') →
      (b = true → ∀ tl, new_head (committed s) = Ok (Some tl) →
                        last (snake s) ≠ Some tl) →
      consistent s'.
Proof.
  intros Hcons Hsize. split.
  - intros d. by apply consistent_queue.
  - intros rng b s' rng' Hmove Hnoslide.
    by eapply consistent_move.
Qed.

(** ** Counting the cells *)

Lemma length_bind_const {A B} (l : list A) (f : A → list B) (n : nat) :
  (∀ x, x ∈ l → length (f x) = n) → length (l ≫= f) = (length l * n)%nat.
Proof.
  induction l as [|x l IH]; intros Hf; [done|].
  change (length (f x ++ (l ≫= f)) = (S (length l) * n)%nat).
  rewrite length_app, Hf, IH by set_solver. lia.
Qed.

Lemma size_all_cells size :
  0 ≤ size → Z.of_nat (base.size (all_cells size)) = size * size.
Proof.
  intros Hsize. unfold all_cells, range. rewrite size_list_to_set.
  - rewrite (length_bind_const _ _ (Z.to_nat size)).
    + rewrite length_seqZ. lia.
    + intros x _. rewrite (length_bind_const _ _ 1%nat) by done.
      rewrite length_seqZ. lia.
  - apply NoDup_bind.
    + intros x1 x2 p _ _ H1 H2.
      apply list_elem_of_bind in H1 as (y1 & H1 & _).
      apply list_elem_of_bind in H2 as (y2 & H2 & _).
      apply list_elem_of_singleton in H1, H2. congruence.
    + intros x _. apply NoDup_bind.
      * intros y1 y2 p _ _ H1 H2.
        apply list_elem_of_singleton in H1, H2. congruence.
      * intros y _. apply NoDup_singleton.
      * apply NoDup_seqZ.
    + apply NoDup_seqZ.
Qed.

Lemma reset_room cfg rng s rng' :
  SnakeConfig.initial_length cfg ≤ SnakeConfig.grid_size cfg →
  reset cfg rng = Ok (s, rng') →
  Z.of_nat (length (snake s)) = SnakeConfig.initial_length cfg
  ∧ Z.of_nat (size (all_cells (SnakeConfig.grid_size cfg) ∖ snake_set s))
    = SnakeConfig.grid_size cfg * SnakeConfig.grid_size cfg
      - SnakeConfig.initial_length cfg.
Proof.
  intros Hfit Hreset.
  destruct (reset_cells cfg rng s rng' Hfit Hreset)
    as (Hin & [head_x Hline] & _).
  apply reset_inv in Hreset as (Hlen & Hsize & _ & Hss & _).
  assert (Hl : Z.of_nat (length (snake s)) = SnakeConfig.initial_length cfg).
  { rewrite Hline, length_line. lia. }
  assert (Hsz : Z.of_nat (size (snake_set s))
                = SnakeConfig.initial_length cfg).
  { rewrite Hss, size_list_to_set; [done|]. rewrite Hline. apply NoDup_line. }
  assert (Hsub : snake_set s ⊆ all_cells (SnakeConfig.grid_size cfg)).
  { rewrite Hss. intros p Hp. apply elem_of_list_to_set in Hp.
    apply elem_of_all_cells. by eapply Forall_forall in Hin. }
  split; [done|]. rewrite size_difference by done.
  pose proof (subseteq_size _ _ Hsub).
  pose proof (size_all_cells (SnakeConfig.grid_size cfg)). lia.
Qed.

(** X8: when the initial length is at most the board size, [reset] gives a
    consistent state with exactly that many snake cells; the number of
    apples is the configured number, capped by the number of cells the
    snake leaves (and zero for a negative number), and the free tiles are
    all the remaining cells. *)
Theorem reset_counts (cfg : SnakeConfig.t) (rng : list nat) (s : SnakeGame)
    (rng' : list nat) :
  let size := SnakeConfig.grid_size cfg in
  let len := SnakeConfig.initial_length cfg in
  len ≤ size →
  reset cfg rng = Ok (s, rng') →
  consistent s
  ∧ Z.of_nat (length (snake s)) = len
  ∧ Z.of_nat (base.size (apples s))
    = Z.max 0 (Z.min (SnakeConfig.apples cfg) (size * size - len))
  ∧ Z.of_nat (base.size (free_tiles s))
    = size * size - len - Z.of_nat (base.size (apples s)).
Proof.
  intros size len Hfit Hreset.
  pose proof (consistent_reset cfg rng s rng' Hfit Hreset) as Hcons.
  destruct (reset_room cfg rng s rng' Hfit Hreset) as [Hl Hrest].
  apply reset_inv in Hreset
    as (Hlen & Hsize & _ & Hss & Hap & Hfr & Hcount & _).
  subst size len.
  split_and!; [done | done | by rewrite Hcount, Hrest |].
  rewrite Hfr, size_difference by done.
  pose proof (subseteq_size _ _ Hap). lia.
Qed.

(** ** The snake stays on the board *)

Lemma Forall_removelast {A} (P : A → Prop) (l : list A) :
  Forall P l → Forall P (removelast l).
Proof.
  induction 1 as [|x l Hx Hl IH]; [done|].
  destruct l as [|y l]; [done|].
  change (removelast (x :: y :: l)) with (x :: removelast (y :: l)).
  by constructor.
Qed.

Lemma reachable_on_board cfg s :
  SnakeConfig.initial_length cfg ≤ SnakeConfig.grid_size cfg →
  reachable cfg s →
  Forall (in_grid (SnakeConfig.grid_size cfg)) (snake s)
  ∧ ∀ p, p ∈ snake_set s ∪ apples s ∪ free_tiles s →
         in_grid (SnakeConfig.grid_size cfg) p.
Proof.
  intros Hfit Hreach.
  assert (Hin : config s = cfg
                ∧ Forall (in_grid (SnakeConfig.grid_size cfg)) (snake s)
                ∧ ∀ p, p ∈ snake_set s ∪ apples s ∪ free_tiles s →
                       in_grid (SnakeConfig.grid_size cfg) p);
    [|by destruct Hin as (_ & ? & ?)].
  induction Hreach as [rng s rng' Hreset | s rng b s' rng' Hreach IH Hmove
                      | s d _ IH].
  - destruct (reset_cells cfg rng s rng' Hfit Hreset) as (Hin & _).
    apply reset_inv in Hreset
      as (_ & _ & _ & Hss & Hap & Hfr & _ & _ & Hcfg & _).
    split_and!; [done | done |].
    intros p Hp. apply elem_of_all_cells.
    assert (Hsub : snake_set s ⊆ all_cells (SnakeConfig.grid_size cfg)).
    { rewrite Hss. intros q Hq. apply elem_of_list_to_set in Hq.
      apply elem_of_all_cells. by eapply Forall_forall in Hin. }
    rewrite Hfr in Hp. clear Hfr Hss Hin. revert Hap Hsub Hp.
    generalize (all_cells (SnakeConfig.grid_size cfg)). set_solver.
  - destruct IH as (Hcfg & Hin & Hsub).
    destruct (reachable_inv cfg s Hreach) as (_ & Hsize & _).
    apply move_inv in Hmove
      as [(_ & _ & -> & _) | [(_ & _ & _ & -> & _)
                             | (_ & nh & tl & Hnh & Htl & H)]]; [done.. |].
    assert (Hnh_in : in_grid (SnakeConfig.grid_size cfg) nh).
    { rewrite <- Hcfg. apply (new_head_in_grid (committed s)); [|done].
      simpl. by rewrite Hcfg. }
    assert (Htl_in : in_grid (SnakeConfig.grid_size cfg) tl).
    { apply last_Some_elem_of in Htl. by eapply Forall_forall in Hin. }
    destruct H as [(_ & _ & _ & -> & _) | [(_ & _ & _ & H) | (_ & _ & _ & H)]];
      [done | |];
      apply replenish_apples_inv in H as (dr & Hdr & ->); simpl in *.
    + split_and!; [done | by constructor |].
      intros p Hp. destruct (decide (p = nh)) as [-> | ?]; [done|].
      apply Hsub. set_solver.
    + split_and!; [done | |].
      * pose proof (Forall_removelast _ _ (Forall_cons_2 _ _ _ Hnh_in Hin))
          as Hrem.
        exact Hrem.
      * intros p Hp. destruct (decide (p = nh)) as [-> | ?]; [done|].
        destruct (decide (p = tl)) as [-> | ?]; [done|].
        apply Hsub. set_solver.
  - destruct IH as (Hcfg & Hin & Hsub).
    pose proof (queue_direction_same s d) as Hsame.
    unfold same_but_pending in Hsame. by rewrite Hsame.
Qed.

(** X9: when the initial length is at most the board size, every cell of the
    deque is on the board in every reachable state, and the three cell sets
    together are exactly the cells of the board. *)
Theorem cells_stay_on_board (cfg : SnakeConfig.t) (s : SnakeGame) :
  SnakeConfig.initial_length cfg ≤ SnakeConfig.grid_size cfg →
  reachable cfg s →
  Forall (in_grid (SnakeConfig.grid_size cfg)) (snake s)
  ∧ snake_set s ∪ apples s ∪ free_tiles s
    = all_cells (SnakeConfig.grid_size cfg).
Proof.
  intros Hfit Hreach.
  destruct (reachable_inv cfg s Hreach) as (Hcfg & _ & Hcov & _).
  destruct (reachable_on_board cfg s Hfit Hreach) as [Hin Hsub].
  split; [done|].
  apply set_eq. intros p. split.
  - intros Hp. apply elem_of_all_cells. by apply Hsub.
  - intros Hp. apply elem_of_all_cells in Hp. apply Hcov. by rewrite Hcfg.
Qed.

(** ** Two calls of [queue_direction] *)

(** X10: of two [queue_direction] calls before a tick the later accepted one
    wins: an accepted second direction replaces whatever the first call
    queued, a refused one leaves the outcome of the first call, and queueing
    the same direction twice is queueing it once. *)
Theorem queue_direction_last_wins (s : SnakeGame) (d1 d2 : string) :
  (d2 ∈ valid_directions →
   ¬ (is_opposite d2 (direction s) ∧ (1 < length (snake s))%nat) →
   queue_direction (queue_direction s d1) d2 = with_pending_direction d2 s)
  ∧ (¬ (d2 ∈ valid_directions
        ∧ ¬ (is_opposite d2 (direction s) ∧ (1 < length (snake s))%nat)) →
     queue_direction (queue_direction s d1) d2 = queue_direction s d1)
  ∧ queue_direction (queue_direction s d1) d1 = queue_direction s d1.
Proof.
  pose proof (queue_direction_same s d1) as Hsame.
  unfold same_but_pending in Hsame.
  assert (Hdir : direction (queue_direction s d1) = direction s)
    by (by rewrite Hsame).
  assert (Hsn : snake (queue_direction s d1) = snake s) by (by rewrite Hsame).
  assert (Hrej : ∀ d, ¬ (d ∈ valid_directions
        ∧ ¬ (is_opposite d (direction s) ∧ (1 < length (snake s))%nat)) →
     ∀ t, direction t = direction s → snake t = snake s →
          queue_direction t d = t).
  { intros d Hno t Ht Hs. unfold queue_direction.
    destruct (opposites !! d) as [o|] eqn:Ho; [|done].
    rewrite Ht, Hs.
    destruct (decide (o = direction s)) as [-> | Hne].
    - destruct (decide (1 < length (snake s))%nat) as [Hlen | Hlen].
      + by rewrite !bool_decide_eq_true_2.
      + exfalso. apply Hno. split; [|tauto].
        apply opposites_valid. by eexists.
    - exfalso. apply Hno. split; [apply opposites_valid; by eexists|].
      intros [Hopp _]. apply opposites_is_opposite in Hopp. congruence. }
  split_and!.
  - intros Hv Hacc. rewrite queue_direction_accepts.
    + rewrite Hsame. by destruct s.
    + done.
    + by rewrite Hdir, Hsn.
  - intros Hno. by apply Hrej.
  - destruct (decide (d1 ∈ valid_directions
        ∧ ¬ (is_opposite d1 (direction s) ∧ (1 < length (snake s))%nat)))
      as [[Hv Hacc] | Hno].
    + rewrite (queue_direction_accepts s d1) by done.
      by rewrite queue_direction_accepts.
    + by apply Hrej.
Qed.

(** ** How many apples *)

Lemma replenish_loop_upper (fuel : nat) (target : Z) (ap fr : gset pos)
    (rng : list nat) ap' fr' rng' :
  replenish_loop fuel target ap fr rng = Ok (ap', fr', rng') →
  Z.of_nat (size ap') ≤ Z.max (Z.of_nat (size ap)) target.
Proof.
  revert ap fr rng. induction fuel as [|fuel IH]; intros ap fr rng; simpl.
  - destruct (_ && _); [discriminate|]. intros [= <- <- <-]. lia.
  - destruct (bool_decide (Z.of_nat (size ap) < target) && _) eqn:Hguard.
    + apply andb_true_iff in Hguard as [Hlt _].
      apply bool_decide_eq_true_1 in Hlt.
      intros H. apply bind_Ok in H as ([p r] & _ & H).
      apply IH in H.
      assert (size (ap ∪ {[p]}) ≤ size ap + 1)%nat.
      { rewrite size_union_alt.
        assert (size ({[p]} ∖ ap : gset pos) ≤ 1)%nat; [|lia].
        rewrite <- (size_singleton (C := gset pos) p).
        apply subseteq_size. set_solver. }
      lia.
    + intros [= <- <- <-]. lia.
Qed.

Lemma replenish_apples_upper s rng s' rng' :
  replenish_apples s rng = Ok (s', rng') →
  Z.of_nat (size (apples s'))
  ≤ Z.max (Z.of_nat (size (apples s))) (SnakeConfig.apples (config s)).
Proof.
  unfold replenish_apples. intros H.
  apply bind_Ok in H as ([[ap fr] r] & Hloop & H). injection H as <- <-.
  apply replenish_loop_upper in Hloop. simpl. lia.
Qed.

(** X11: in every reachable state the number of apples is at least the
    smaller of the configured number and the number of free tiles, and at
    most the configured number. *)
Theorem apple_count_bounds (cfg : SnakeConfig.t) (s : SnakeGame) :
  reachable cfg s →
  Z.min (SnakeConfig.apples cfg) (Z.of_nat (size (free_tiles s)))
  ≤ Z.of_nat (size (apples s))
  ∧ Z.of_nat (size (apples s)) ≤ Z.max 0 (SnakeConfig.apples cfg).
Proof.
  intros Hreach.
  destruct (reachable_inv cfg s Hreach) as (Hcfg & _ & _ & Hst).
  split; [unfold stocked in Hst; by rewrite Hcfg in Hst|].
  clear Hst Hcfg.
  assert (config s = cfg
          ∧ Z.of_nat (size (apples s)) ≤ Z.max 0 (SnakeConfig.apples cfg))
    as [_ H]; [|done].
  induction Hreach as [rng s rng' Hreset | s rng b s' rng' Hreach IH Hmove
                      | s d _ IH].
  - unfold reset in Hreset. apply bind_Ok in Hreset as (s0 & Hspawn & Hrep).
    unfold spawn_snake in Hspawn.
    apply bind_Ok in Hspawn as (ps & _ & Hloop).
    apply spawn_loop_inv in Hloop
      as (_ & _ & Hap & _ & Hcfg & _). simpl in Hap, Hcfg.
    pose proof (replenish_apples_upper _ _ _ _ Hrep) as Hup.
    apply replenish_apples_post in Hrep as (Hcfg' & _).
    rewrite Hap, size_empty, Hcfg in Hup. rewrite Hcfg', Hcfg. done.
  - destruct IH as (Hcfg & Hup).
    apply move_inv in Hmove
      as [(_ & _ & -> & _) | [(_ & _ & _ & -> & _)
                             | (_ & nh & tl & _ & _ & H)]]; [done.. |].
    destruct H as [(_ & _ & _ & -> & _) | [(_ & _ & _ & H) | (_ & _ & _ & H)]];
      [done | |];
      pose proof (replenish_apples_upper _ _ _ _ H) as Hup';
      apply replenish_apples_post in H as (Hcfg' & _);
      simpl in *; rewrite Hcfg in *; (split; [done|]).
    + assert (size (apples s ∖ {[nh]}) ≤ size (apples s))%nat
        by (apply subseteq_size; set_solver).
      lia.
    + lia.
  - pose proof (queue_direction_same s d) as Hsame.
    unfold same_but_pending in Hsame. by rewrite Hsame.
Qed.

(** ** The engine never raises *)

Lemma move_onto_total s nh rng :
  snake s ≠ [] → ∃ b s' rng', move_onto s nh rng = Ok (b, s', rng').
Proof.
  intros Hne. unfold move_onto, deque_last.
  destruct (last (snake s)) as [tl|] eqn:Htl; [|by apply last_None in Htl].
  simpl. destruct (_ && _); [by do 3 eexists|].
  destruct (bool_decide (nh ∈ apples s)); simpl.
  - match goal with |- context [replenish_apples ?m rng] =>
      destruct (replenish_apples_spec m rng) as (? & ? & -> & _) end.
    simpl. by do 3 eexists.
  - unfold deque_pop. rewrite (last_cons_ne _ _ Hne), Htl. simpl.
    match goal with |- context [replenish_apples ?m rng] =>
      destruct (replenish_apples_spec m rng) as (? & ? & -> & _) end.
    simpl. by do 3 eexists.
Qed.

Lemma move_total s rng :
  snake s ≠ [] → SnakeConfig.grid_size (config s) ≠ 0 →
  ∃ b s' rng', move s rng = Ok (b, s', rng').
Proof.
  intros Hne Hsize. unfold move. destruct (negb (alive s)); [by do 3 eexists|].
  unfold _next_head, deque_first. simpl.
  destruct (snake s) as [|[hx hy] l] eqn:Hs; [done|]. simpl.
  assert (Hgo : ∀ x y, ∃ b s' rng',
    (if SnakeConfig.wrap_walls (config s)
     then py_mod x (SnakeConfig.grid_size (config s))
          ≫= (λ new_x, py_mod y (SnakeConfig.grid_size (config s))
          ≫= (λ new_y, move_onto (with_direction (pending_direction s) s)
                                 (new_x, new_y) rng))
     else if negb (_in_bounds (with_direction (pending_direction s) s) x y)
          then Ok (false, with_alive false
                            (with_direction (pending_direction s) s), rng)
          else move_onto (with_direction (pending_direction s) s) (x, y) rng)
    = Ok (b, s', rng')).
  { intros x y. destruct (SnakeConfig.wrap_walls (config s)).
    - unfold py_mod. rewrite !decide_False by done. simpl.
      apply move_onto_total. simpl. by rewrite Hs.
    - destruct (negb _); [by do 3 eexists|].
      apply move_onto_total. simpl. by rewrite Hs. }
  repeat case_decide; apply Hgo.
Qed.

Lemma reachable_nonempty cfg s : reachable cfg s → snake s ≠ [].
Proof.
  induction 1 as [rng s rng' Hreset | s rng b s' rng' _ IH Hmove | s d _ IH].
  - apply reset_inv in Hreset as (Hlen & _ & Hps & _).
    apply spawn_positions_inv in Hps as [_ [head_x Hl]].
    intros Hnil. apply (f_equal length) in Hl.
    rewrite Hnil, length_line in Hl. simpl in Hl. lia.
  - apply move_length in Hmove as [[Hl _] | [Hl _]];
      intros Hnil; rewrite Hnil in Hl; simpl in Hl; [|lia].
    destruct (snake s); [done | discriminate].
  - pose proof (queue_direction_same s d) as Hsame.
    unfold same_but_pending in Hsame. by rewrite Hsame.
Qed.

(** X12: when the initial length is between one and the board size, no
    sequence of [move] and [queue_direction] calls on a fresh game raises,
    whatever the random generator draws: every run returns a state. *)
Theorem engine_never_raises (cfg : SnakeConfig.t) (cs : list call)
    (rng : list nat) :
  1 ≤ SnakeConfig.initial_length cfg ≤ SnakeConfig.grid_size cfg →
  ∃ s rng', run cfg cs rng = Ok (s, rng').
Proof.
  intros Hfit. destruct (reset_ok cfg rng Hfit) as (s0 & rng0 & Hreset).
  unfold run. rewrite Hreset. simpl.
  assert (Hreach : reachable cfg s0) by (by eapply reach_reset).
  clear Hreset. revert s0 rng0 Hreach.
  induction cs as [|[|d] cs IH]; intros s rng0 Hreach; simpl.
  - by do 2 eexists.
  - destruct (move_total s rng0) as (b & s' & rng' & Hmove).
    + by eapply reachable_nonempty.
    + destruct (reachable_inv cfg s Hreach) as (-> & Hsize & _). lia.
    + rewrite Hmove. simpl. apply IH. by eapply reach_move.
  - apply IH. by apply reach_queue.
Qed.

Lemma reachable_length_ge cfg s :
  reachable cfg s →
  SnakeConfig.initial_length cfg ≤ Z.of_nat (length (snake s)).
Proof.
  induction 1 as [rng s rng' Hreset | s rng b s' rng' _ IH Hmove | s d _ IH].
  - apply reset_inv in Hreset as (Hlen & _ & Hps & _).
    apply spawn_positions_inv in Hps as [_ [head_x Hl]].
    rewrite Hl, length_line. lia.
  - apply move_length in Hmove as [[-> _] | [-> _]]; lia.
  - pose proof (queue_direction_same s d) as Hsame.
    unfold same_but_pending in Hsame. by rewrite Hsame.
Qed.

(** ** The engine does not read [running] *)

Lemma replenish_apples_running b s rng :
  replenish_apples (with_running b s) rng
  = match replenish_apples s rng with
    | Ok (s', rng') => Ok (with_running b s', rng')
    | Raise e => Raise e
    | OutOfFuel => OutOfFuel
    end.
Proof.
  unfold replenish_apples. simpl.
  destruct (replenish_loop _ _ _ _ _) as [[[ap fr] r]| |]; done.
Qed.

Lemma move_onto_running b s nh rng :
  move_onto (with_running b s) nh rng = keep_running b (move_onto s nh rng).
Proof.
  unfold move_onto. simpl.
  destruct (deque_last (snake s)) as [tl| |]; simpl; [|done..].
  destruct (_ && _); [done|].
  destruct (bool_decide (nh ∈ apples s)); simpl.
  - match goal with |- context [replenish_apples ?m rng ≫= _ = _] =>
      change m with (with_running b (grown s nh)) end.
    rewrite replenish_apples_running.
    match goal with |- context [keep_running b (replenish_apples ?m rng ≫= _)] =>
      change m with (grown s nh) end.
    destruct (replenish_apples (grown s nh) rng) as [[s1 r1]| |]; done.
  - destruct (deque_pop _) as [[tl' rest]| |]; simpl; [|done..].
    match goal with |- replenish_apples ?m rng ≫= _ = _ =>
      change m with
        (with_running b
           (with_cells rest ((snake_set s ∪ {[nh]}) ∖ {[tl']}) (apples s)
                       ((free_tiles s ∖ {[nh]}) ∪ {[tl']}) s)) end.
    rewrite replenish_apples_running.
    match goal with |- context [keep_running b (replenish_apples ?m rng ≫= _)] =>
      change m with
           (with_cells rest ((snake_set s ∪ {[nh]}) ∖ {[tl']}) (apples s)
                       ((free_tiles s ∖ {[nh]}) ∪ {[tl']}) s) end.
    destruct (replenish_apples _ rng) as [[s1 r1]| |]; done.
Qed.

Lemma move_running b s rng :
  move (with_running b s) rng = keep_running b (move s rng).
Proof.
  unfold move. simpl. destruct (negb (alive s)); [done|].
  change (with_direction (pending_direction s) (with_running b s))
    with (with_running b (with_direction (pending_direction s) s)).
  set (c := with_direction (pending_direction s) s).
  change (_next_head (with_running b c) (pending_direction s))
    with (_next_head c (pending_direction s)).
  destruct (_next_head c (pending_direction s)) as [[x y]| |]; simpl; [|done..].
  destruct (SnakeConfig.wrap_walls (config s)).
  - destruct (py_mod x _); simpl; [|done..].
    destruct (py_mod y _); simpl; [|done..].
    apply move_onto_running.
  - change (_in_bounds (with_running b c) x y) with (_in_bounds c x y).
    destruct (negb _); [done|]. apply move_onto_running.
Qed.

Lemma queue_direction_running b s d :
  queue_direction (with_running b s) d = with_running b (queue_direction s d).
Proof.
  unfold queue_direction. simpl. destruct (opposites !! d); [|done].
  by destruct (_ && _).
Qed.

Lemma move_frame s rng b s' rng' :
  move s rng = Ok (b, s', rng') →
  alive s' = b ∧ config s' = config s ∧ running s' = running s
  ∧ (alive s = false → s' = s).
Proof.
  intros H. apply move_inv in H
    as [(Ha & -> & -> & ->) | [(Ha & _ & -> & -> & ->)
                              | (Ha & nh & tl & _ & _ & H)]].
  - done.
  - split_and!; try done. by rewrite Ha.
  - destruct H as [(-> & _ & _ & -> & ->) | [(-> & _ & _ & H) | (-> & _ & _ & H)]];
      [split_and!; try done; by rewrite Ha | |];
      apply replenish_apples_inv in H as (dr & _ & ->); simpl;
      split_and!; try done; by rewrite Ha.
Qed.

Lemma with_running_id s : with_running (running s) s = s.
Proof. by destruct s. Qed.

(** * The application *)

(** ** The invariant of the handlers *)

#[local] Opaque pretty_N_go.

Lemma settings_accept_fit cfg :
  settings_accept cfg →
  1 ≤ SnakeConfig.initial_length cfg ≤ SnakeConfig.grid_size cfg
  ∧ 0 < SnakeConfig.grid_size cfg.
Proof.
  unfold settings_accept, MIN_GRID_SIZE, MIN_INITIAL_LENGTH. lia.
Qed.

Lemma hosted_reset cfg rng :
  settings_accept cfg →
  ∃ g rng', reset cfg rng = Ok (g, rng')
    ∧ config g = cfg ∧ running g = false ∧ alive g = true
    ∧ reachable cfg g.
Proof.
  intros Hacc. destruct (settings_accept_fit cfg Hacc) as [Hfit _].
  destruct (reset_ok cfg rng Hfit) as (g & rng' & Hreset).
  exists g, rng'. split; [done|].
  pose proof (reach_reset cfg rng g rng' Hreset) as Hreach.
  apply reset_inv in Hreset as (_ & _ & _ & _ & _ & _ & _ & _ & Hcfg & _ & _
                                & Hrun & Hal & _).
  done.
Qed.

Lemma hosted_move a rng :
  hosted a →
  ∃ b g rng', move (SnakeApp.game a) rng = Ok (b, g, rng')
    ∧ alive g = b ∧ config g = SnakeApp.config a
    ∧ running g = running (SnakeApp.game a)
    ∧ reachable (SnakeApp.config a) (with_running false g).
Proof.
  intros (Hcfg & Hacc & Hreach).
  destruct (settings_accept_fit _ Hacc) as [_ Hsize].
  destruct (move_total (SnakeApp.game a) rng) as (b & g & rng' & Hmove).
  - apply reachable_nonempty in Hreach. exact Hreach.
  - rewrite Hcfg. lia.
  - exists b, g, rng'. split; [done|].
    destruct (move_frame _ _ _ _ _ Hmove) as (Hal & Hc & Hr & _).
    split_and!; [done | congruence | done |].
    eapply reach_move; [exact Hreach|].
    rewrite move_running, Hmove. reflexivity.
Qed.

Lemma cancel_loop_spec a :
  SnakeApp.timers a ⊆ pending_timer a →
  ∃ tm,
    _cancel_loop a
    = SnakeApp.mk (SnakeApp.config a) (SnakeApp.game a) None
        (SnakeApp.score_var a) (SnakeApp.length_var a) (SnakeApp.state_var a)
        (SnakeApp.canvas_width a) (SnakeApp.canvas_height a)
        (SnakeApp.canvas a) tm (SnakeApp.next_timer a)
    ∧ tm = ∅.
Proof.
  unfold _cancel_loop, pending_timer. destruct a as [c g [id|] sv lv st w h cv tm nt];
    simpl; intros Hsub; eexists; (split; [reflexivity|]); set_solver.
Qed.

Lemma draw_items_running cfg b g :
  draw_items cfg (with_running b g) = draw_items cfg g.
Proof. done. Qed.

Lemma tick_running a rng :
  tick_ready a →
  ∃ a' rng', tick a rng = Ok (a', rng') ∧ app_inv a'
    ∧ SnakeApp.config a' = SnakeApp.config a.
Proof.
  intros (Hhost & Htm & Hrun & Hal & Hst & Hsz).
  destruct (hosted_move a rng Hhost)
    as (b & g & rng' & Hmove & Hb & Hcfg & Hr & Hreach).
  destruct Hhost as (Hc & Hacc & _).
  destruct (cancel_loop_spec a Htm) as (tm & Hcl & ->).
  rewrite Hrun in Hr.
  unfold tick. rewrite Hcl. cbn [SnakeApp.game]. rewrite Hrun, Hmove.
  cbn [negb mbind result_bind]. clear Hcl.
  destruct a as [c g0 aid sv lv st w h cv tm nt]. unfold sized in Hsz.
  cbn in Hc, Hacc, Hsz, Hcfg, Hreach, Hrun, Hal, Hst |- *.
  destruct Hsz as [-> ->]. clear Htm.
  destruct b; cbn.
  - do 2 eexists. split; [reflexivity|]. split; [|done].
    unfold app_inv, hosted, pending_timer, state_label, displayed, sized.
    cbn. rewrite Hb, Hr. split_and!; try done.
    by rewrite (left_id_L ∅ (∪)).
  - do 2 eexists. split; [reflexivity|]. split; [|done].
    unfold app_inv, hosted, pending_timer, state_label, displayed, sized.
    cbn. rewrite Hb. split_and!; done.
Qed.

Ltac app_simpl :=
  cbv beta iota zeta delta
    [app_inv tick_ready hosted displayed sized state_label pending_timer
     draw _apply_canvas_size _cancel_loop with_state_var with_game
     with_config with_after_id root_after root_after_cancel
     SnakeApp.config SnakeApp.game SnakeApp.after_id SnakeApp.score_var
     SnakeApp.length_var SnakeApp.state_var SnakeApp.canvas_width
     SnakeApp.canvas_height SnakeApp.canvas SnakeApp.timers
     SnakeApp.next_timer] in *;
  cbn [with_running alive running config snake apples score] in *;
  rewrite ?draw_items_running in *;
  destruct_and?.

Ltac app_close :=
  split_and?;
  lazymatch goal with
  | |- @eq (gset _) _ _ => clear; set_solver
  | |- _ ↔ _ =>
      first [split; [by intros [? ?] | done] | split; [done | by eexists]]
  | |- _ ∨ _ => first [by left | by right]
  | |- _ => done
  end.

Lemma tick_ready_running a :
  hosted a → sized a → SnakeApp.timers a ⊆ pending_timer a →
  alive (SnakeApp.game a) = true →
  tick_ready
    (with_state_var "State: Running"
       (with_game (with_running true (SnakeApp.game a)) a)).
Proof.
  intros (Hc & Hacc & Hreach) Hsz Htm Hal.
  destruct a as [c g aid sv lv st w h cv tm nt].
  app_simpl. done.
Qed.

Lemma start_game_inv a rng :
  app_inv a →
  ∃ a' rng', start_game a rng = Ok (a', rng') ∧ app_inv a'.
Proof.
  intros (Hhost & Htm & Hid & Hra & Hst & Hdis & Hsz).
  unfold start_game.
  destruct (alive (SnakeApp.game a)) eqn:Hal; cbn [negb].
  - cbn [mbind result_bind].
    destruct (tick_running _ rng
                (tick_ready_running a Hhost Hsz (reflexive_eq _ _ Htm) Hal))
      as (a' & rng' & Htick & Hinv & _).
    by exists a', rng'.
  - destruct Hhost as (Hc & Hacc & Hreach). rewrite Hc.
    destruct (hosted_reset _ rng Hacc)
      as (g & rng0 & -> & Hcfg & Hrun & Hal' & Hreach').
    cbn [mbind result_bind].
    assert (Hready : tick_ready
              (with_state_var "State: Running"
                 (with_game (with_running true g) a))).
    { rewrite <- (with_running_id g), Hrun in Hreach'.
      destruct a as [c g0 aid sv lv st w h cv tm nt].
      app_simpl. subst. app_close. }
    destruct (tick_running _ rng0 Hready) as (a' & rng' & Htick & Hinv & _).
    exists a', rng'. split; [|done]. exact Htick.
Qed.

Lemma toggle_pause_inv a rng :
  app_inv a →
  ∃ a' rng', toggle_pause a rng = Ok (a', rng') ∧ app_inv a'
    ∧ (alive (SnakeApp.game a) = false → a' = a ∧ rng' = rng).
Proof.
  intros Hinv0.
  pose proof Hinv0 as (Hhost & Htm & Hid & Hra & Hst & Hdis & Hsz).
  unfold toggle_pause.
  destruct (alive (SnakeApp.game a)) eqn:Hal; cbn [negb].
  - destruct (running (SnakeApp.game a)) eqn:Hrun; cbn [negb].
    + (* pause *)
      destruct a as [c g aid sv lv st w h cv tm nt].
      app_simpl. destruct Hid as [_ Hid]. destruct (Hid eq_refl) as [id ->].
      do 2 eexists. split; [reflexivity|]. split; [|done].
      app_simpl. rewrite Hal, Hrun in *. subst. app_close.
    + (* resume *)
      replace (with_game _ a)
        with (with_game (with_running true (SnakeApp.game a)) a)
        by (by destruct a as [c [] aid sv lv st w h cv tm nt]).
      assert (Hrun' : running (SnakeApp.game
                (with_game (with_running true (SnakeApp.game a)) a)) = true)
        by (by destruct a).
      rewrite Hrun'.
      destruct (tick_running _ rng
                  (tick_ready_running a Hhost Hsz (reflexive_eq _ _ Htm) Hal))
        as (a' & rng' & Htick & Hinv & _).
      exists a', rng'. split_and!; [exact Htick | exact Hinv | congruence].
  - exists a, rng. split; [reflexivity|]. split; [|done].
    exact Hinv0.
Qed.

Lemma fresh_game_inv a cfg g :
  settings_accept cfg → config g = cfg → running g = false → alive g = true →
  reachable cfg g →
  SnakeApp.timers a = pending_timer a →
  app_inv
    (draw (with_state_var "State: Ready"
             (_apply_canvas_size (_cancel_loop (with_game g (with_config cfg a)))))).
Proof.
  intros Hacc Hcfg Hrun Hal Hreach Htm.
  rewrite <- (with_running_id g), Hrun in Hreach.
  destruct a as [c g0 [id|] sv lv st w h cv tm nt];
    app_simpl; rewrite Hrun, Hal; subst; app_close.
Qed.

Lemma parse_int_inl parsed low high label value :
  _parse_int parsed low high label = inl value
  ↔ parsed = Some value ∧ low ≤ value ≤ high.
Proof.
  unfold _parse_int. destruct parsed as [v|]; [|naive_solver].
  case_bool_decide; simpl; naive_solver.
Qed.

Lemma read_settings_inl f cfg :
  read_settings f = inl cfg ↔ f = form_of cfg ∧ settings_accept cfg.
Proof.
  unfold read_settings, settings_accept. split.
  - destruct (_parse_int (grid_size_var f) _ _ _) as [gs|] eqn:Hgs; [|done].
    destruct (_parse_int (cell_size_var f) _ _ _) as [cs|] eqn:Hcs; [|done].
    destruct (_parse_int (speed_var f) _ _ _) as [sp|] eqn:Hsp; [|done].
    destruct (_parse_int (apples_var f) _ _ _) as [ap|] eqn:Hap; [|done].
    destruct (_parse_int (length_setting_var f) _ _ _) as [il|] eqn:Hil;
      [|done].
    apply parse_int_inl in Hgs as [Hgs ?], Hcs as [Hcs ?], Hsp as [Hsp ?],
      Hap as [Hap ?], Hil as [Hil ?].
    case_bool_decide; [done|]. intros [= <-]. simpl.
    split; [|split_and!; try done; lia].
    destruct f. simpl in *. unfold form_of. simpl. congruence.
  - intros (-> & Hgs & Hcs & Hsp & Hap & Hil & Hmax).
    rewrite (proj2 (parse_int_inl _ _ _ _ (SnakeConfig.grid_size cfg)))
      by done. cbv beta iota.
    rewrite (proj2 (parse_int_inl _ _ _ _ (SnakeConfig.cell_size cfg)))
      by done. cbv beta iota.
    rewrite (proj2 (parse_int_inl _ _ _ _ (SnakeConfig.speed_ms cfg)))
      by done. cbv beta iota.
    rewrite (proj2 (parse_int_inl _ _ _ _ (SnakeConfig.apples cfg)))
      by done. cbv beta iota.
    rewrite (proj2 (parse_int_inl _ _ _ _ (SnakeConfig.initial_length cfg)))
      by done. cbv beta iota zeta.
    rewrite bool_decide_eq_false_2 by lia. by destruct cfg.
Qed.

Lemma reset_game_inv a rng :
  app_inv a →
  ∃ a' rng', reset_game a rng = Ok (a', rng') ∧ app_inv a'.
Proof.
  intros (Hhost & Htm & Hid & Hra & Hst & Hdis & Hsz).
  destruct Hhost as (Hc & Hacc & Hreach).
  destruct (hosted_reset _ rng Hacc)
    as (g & rng' & Hreset & Hcfg & Hrun & Hal & Hreach').
  pose proof (fresh_game_inv a _ g Hacc Hcfg Hrun Hal Hreach' Htm) as Hinv.
  unfold reset_game.
  replace (SnakeApp.config (_cancel_loop a)) with (SnakeApp.config a)
    by (by destruct a as [c g0 [id|] sv lv st w h cv tm nt]).
  rewrite Hreset. cbn [mbind result_bind].
  do 2 eexists. split; [reflexivity|].
  destruct a as [c g0 [id|] sv lv st w h cv tm nt]; revert Hinv;
    unfold sized in Hsz; cbn in Hsz; destruct Hsz as [-> ->];
    app_simpl; intros Hinv'; exact Hinv'.
Qed.

Lemma apply_settings_inv a f rng :
  app_inv a →
  ∃ a' msg rng', apply_settings a f rng = Ok (a', msg, rng') ∧ app_inv a'.
Proof.
  intros Hinv0.
  pose proof Hinv0 as (Hhost & Htm & Hid & Hra & Hst & Hdis & Hsz).
  unfold apply_settings.
  destruct (read_settings f) as [cfg|msg] eqn:Hread; [|by do 3 eexists].
  apply read_settings_inl in Hread as [_ Hacc].
  replace (SnakeApp.config (with_config cfg a)) with cfg by (by destruct a).
  destruct (hosted_reset _ rng Hacc)
    as (g & rng' & -> & Hcfg & Hrun & Hal & Hreach').
  cbn [mbind result_bind].
  pose proof (fresh_game_inv a _ g Hacc Hcfg Hrun Hal Hreach' Htm) as Hinv.
  do 3 eexists. split; [reflexivity|].
  destruct a as [c g0 [id|] sv lv st w h cv tm nt]; revert Hinv;
    app_simpl; intros Hinv'; exact Hinv'.
Qed.

Lemma press_key_inv a k rng :
  app_inv a →
  ∃ a' rng', press_key a k rng = Ok (a', rng') ∧ app_inv a'.
Proof.
  intros Hinv0.
  pose proof Hinv0 as (Hhost & Htm & Hid & Hra & Hst & Hdis & Hsz).
  unfold press_key. destruct (key_direction !! k) as [d|].
  - do 2 eexists. split; [reflexivity|].
    pose proof (queue_direction_same (SnakeApp.game a) d) as Hsame.
    unfold same_but_pending in Hsame.
    destruct Hhost as (Hc & Hacc & Hreach).
    apply (reach_queue _ _ d) in Hreach.
    rewrite queue_direction_running in Hreach.
    destruct a as [c g aid sv lv st w h cv tm nt].
    assert (Hq : config (queue_direction g d) = config g
                 ∧ running (queue_direction g d) = running g
                 ∧ alive (queue_direction g d) = alive g
                 ∧ score (queue_direction g d) = score g
                 ∧ snake (queue_direction g d) = snake g
                 ∧ draw_items c (queue_direction g d) = draw_items c g)
      by (cbn in Hsame; by rewrite Hsame).
    destruct Hq as (Hq1 & Hq2 & Hq3 & Hq4 & Hq5 & Hq6).
    app_simpl. rewrite Hq1, Hq2, Hq3, Hq4, Hq5, Hq6. subst.
    split_and!; assumption || reflexivity.
  - case_decide.
    + destruct (toggle_pause_inv a rng Hinv0) as (a' & rng' & H1 & H2 & _).
      by exists a', rng'.
    + by exists a, rng.
Qed.

Lemma timer_inv a id rng :
  app_inv a →
  ∃ a' rng', handle a (AfterFires id) rng = Ok (a', rng') ∧ app_inv a'
    ∧ (id ∉ SnakeApp.timers a → a' = a ∧ rng' = rng).
Proof.
  intros Hinv0.
  pose proof Hinv0 as (Hhost & Htm & Hid & Hra & Hst & Hdis & Hsz).
  unfold handle. case_decide as Hin; [|by exists a, rng].
  assert (Haid : SnakeApp.after_id a = Some id).
  { rewrite Htm in Hin. unfold pending_timer in Hin.
    destruct (SnakeApp.after_id a); [|set_solver].
    apply elem_of_singleton in Hin. by subst. }
  assert (Hrun : running (SnakeApp.game a) = true).
  { apply Hid. by rewrite Haid. }
  pose proof (Hra Hrun) as Hal.
  assert (Hready : tick_ready (root_after_cancel id a)).
  { unfold state_label in Hst. rewrite Hal, Hrun in Hst.
    destruct a as [c g aid sv lv st w h cv tm nt]. app_simpl. subst.
    split_and!; try assumption || reflexivity. clear. set_solver. }
  destruct (tick_running _ rng Hready) as (a' & rng' & Htick & Hinv & _).
  exists a', rng'. split_and!; [exact Htick | exact Hinv | done].
Qed.

Lemma handle_total a e rng :
  app_inv a → ∃ a' rng', handle a e rng = Ok (a', rng') ∧ app_inv a'.
Proof.
  intros Hinv. destruct e as [k| | | |f|id].
  - by apply press_key_inv.
  - by apply start_game_inv.
  - destruct (toggle_pause_inv a rng Hinv) as (a' & rng' & H1 & H2 & _).
    by exists a', rng'.
  - by apply reset_game_inv.
  - destruct (apply_settings_inv a f rng Hinv) as (a' & msg & rng' & H1 & H2).
    exists a', rng'. unfold handle. rewrite H1. done.
  - destruct (timer_inv a id rng Hinv) as (a' & rng' & H1 & H2 & _).
    by exists a', rng'.
Qed.

Lemma default_accepted : settings_accept SnakeConfig.default.
Proof.
  unfold settings_accept, MIN_GRID_SIZE, MAX_GRID_SIZE, MIN_CELL_SIZE,
    MAX_CELL_SIZE, MIN_SPEED_MS, MAX_SPEED_MS, MIN_APPLES, MAX_APPLES,
    MIN_INITIAL_LENGTH. simpl. lia.
Qed.

Lemma init_ok rng : ∃ a rng', init rng = Ok (a, rng') ∧ app_inv a.
Proof.
  destruct (hosted_reset _ rng default_accepted)
    as (g & rng' & Hreset & Hcfg & Hrun & Hal & Hreach).
  unfold init. rewrite Hreset. cbn [mbind result_bind].
  do 2 eexists. split; [reflexivity|].
  rewrite <- (with_running_id g), Hrun in Hreach.
  app_simpl. rewrite Hal, Hrun.
  split_and!;
    [ assumption | exact default_accepted | assumption | reflexivity
    | split; [by intros [? ?] | discriminate] | discriminate | by left
    | reflexivity .. ].
Qed.

Lemma app_reachable_inv a : app_reachable a → app_inv a.
Proof.
  induction 1 as [rng a rng' Hinit | a e rng a' rng' _ IH Hstep].
  - destruct (init_ok rng) as (a0 & rng0 & Hinit0 & Hinv). congruence.
  - destruct (handle_total a e rng IH) as (a0 & rng0 & Hstep0 & Hinv).
    congruence.
Qed.

Lemma handles_reachable es : ∀ a rng a' rng',
  app_reachable a → handles es a rng = Ok (a', rng') → app_reachable a'.
Proof.
  induction es as [|e es IH]; intros a rng a' rng' Hreach Hrun; simpl in Hrun.
  - by injection Hrun as <- <-.
  - apply bind_Ok in Hrun as ([a1 rng1] & Hstep & Hrun).
    eapply IH; [|exact Hrun]. by eapply app_step.
Qed.

Lemma app_after_reachable es rng :
  is_ok (session es rng) = true → app_reachable (app_after es rng).
Proof.
  unfold app_after, session.
  destruct (init rng) as [[a0 rng0]| |] eqn:Hinit; simpl; [|discriminate..].
  destruct (handles es a0 rng0) as [[a rng']| |] eqn:Hrun; [|discriminate..].
  intros _. eapply handles_reachable; [|exact Hrun]. by eapply app_init.
Qed.


(** ** The settings form *)

(** X13: the checks of [apply_settings] accept a form exactly when its five
    entries are integers that make a configuration within the ranges of the
    form, with the initial length at most the board size and the apples at
    most the cells the snake leaves; the configuration built is the one the
    form shows.  An accepted configuration leaves at least 56 cells beside
    the snake, so the floor of 1 in the apple limit is never reached and
    every configured apple has a cell; the canvas is between 96 and 2880
    pixels wide.  Every other form gets an error message. *)
Theorem read_settings_spec (f : form) (cfg : SnakeConfig.t) :
  (read_settings f = inl cfg ↔ f = form_of cfg ∧ settings_accept cfg)
  ∧ (read_settings f = inl cfg →
     let size := SnakeConfig.grid_size cfg in
     let len := SnakeConfig.initial_length cfg in
     56 ≤ size * size - len
     ∧ SnakeConfig.apples cfg ≤ size * size - len
     ∧ 96 ≤ size * SnakeConfig.cell_size cfg ≤ 2880)
  ∧ (¬ settings_accept cfg → ∃ msg, read_settings (form_of cfg) = inr msg).
Proof.
  split_and!.
  - apply read_settings_inl.
  - intros H. apply read_settings_inl in H as [_ H].
    unfold settings_accept, MIN_GRID_SIZE, MAX_GRID_SIZE, MIN_CELL_SIZE,
      MAX_CELL_SIZE, MIN_INITIAL_LENGTH in H. simpl. nia.
  - intros Hno. destruct (read_settings (form_of cfg)) as [cfg'|msg] eqn:H;
      [|by eexists].
    exfalso. apply Hno. apply read_settings_inl in H as [Hf H].
    assert (cfg' = cfg) as <-; [|done].
    destruct cfg, cfg'. unfold form_of in Hf. simpl in Hf. congruence.
Qed.

(** X14: [apply_settings] on a form that fails a check changes nothing and
    returns the message; on an accepted form it installs the new
    configuration with the game [reset] makes for it, cancels the timer,
    sizes the canvas to board size times cell size, shows "State: Ready"
    and draws the new game.  The new game is consistent, its snake has the
    configured length and it holds exactly the configured number of
    apples. *)
Theorem apply_settings_spec (a : SnakeApp.t) (f : form) (rng : list nat) :
  app_reachable a →
  match read_settings f with
  | inr msg => apply_settings a f rng = Ok (a, Some msg, rng)
  | inl cfg =>
      ∃ a' rng',
        apply_settings a f rng = Ok (a', None, rng')
        ∧ reset cfg rng = Ok (SnakeApp.game a', rng')
        ∧ SnakeApp.config a' = cfg
        ∧ SnakeApp.after_id a' = None ∧ SnakeApp.timers a' = ∅
        ∧ SnakeApp.state_var a' = "State: Ready"
        ∧ SnakeApp.canvas_width a'
          = SnakeConfig.grid_size cfg * SnakeConfig.cell_size cfg
        ∧ SnakeApp.canvas_height a' = SnakeApp.canvas_width a'
        ∧ SnakeApp.canvas a' = draw_items cfg (SnakeApp.game a')
        ∧ consistent (SnakeApp.game a')
        ∧ Z.of_nat (length (snake (SnakeApp.game a')))
          = SnakeConfig.initial_length cfg
        ∧ Z.of_nat (size (apples (SnakeApp.game a'))) = SnakeConfig.apples cfg
  end.
Proof.
  intros Hreach. apply app_reachable_inv in Hreach as (_ & Htm & _).
  unfold apply_settings.
  destruct (read_settings f) as [cfg|msg] eqn:Hread; [|done].
  apply read_settings_inl in Hread as [_ Hacc].
  replace (SnakeApp.config (with_config cfg a)) with cfg by (by destruct a).
  destruct (hosted_reset _ rng Hacc) as (g & rng' & Hreset & _).
  rewrite Hreset. cbn [mbind result_bind].
  assert (Hfit : SnakeConfig.initial_length cfg ≤ SnakeConfig.grid_size cfg)
    by (destruct (settings_accept_fit cfg Hacc); lia).
  pose proof (consistent_reset cfg rng g rng' Hfit Hreset) as Hcons.
  destruct (reset_room cfg rng g rng' Hfit Hreset) as [Hlen Hroom].
  assert (Hap : Z.of_nat (size (apples g)) = SnakeConfig.apples cfg).
  { apply reset_inv in Hreset as (_ & _ & _ & _ & _ & _ & Hcount & _).
    rewrite Hcount, Hroom.
    unfold settings_accept, MIN_GRID_SIZE, MIN_APPLES, MIN_INITIAL_LENGTH
      in Hacc. nia. }
  do 2 eexists. split; [reflexivity|].
  destruct a as [c g0 [id|] sv lv st w h cv tm nt]; app_simpl; subst;
    split_and!;
    lazymatch goal with
    | |- @eq (gset _) _ _ => clear; set_solver
    | |- _ => assumption || reflexivity
    end.
Qed.

(** ** The timer *)

(** X15: between two events at most one [tick] is queued, and it is the one
    [after_id] names; one is queued exactly when the game is running, and a
    running game is alive.  So a callback that fires finds a running
    game. *)
Theorem one_pending_tick (a : SnakeApp.t) :
  app_reachable a →
  SnakeApp.timers a = pending_timer a
  ∧ (is_Some (SnakeApp.after_id a) ↔ running (SnakeApp.game a) = true)
  ∧ (running (SnakeApp.game a) = true → alive (SnakeApp.game a) = true)
  ∧ ∀ id, id ∈ SnakeApp.timers a →
          SnakeApp.after_id a = Some id ∧ running (SnakeApp.game a) = true.
Proof.
  intros Hreach. apply app_reachable_inv in Hreach as Hinv.
  pose proof Hinv as (_ & Htm & Hid & Hra & _).
  split_and!; try done. intros id Hin.
  rewrite Htm in Hin. unfold pending_timer in Hin.
  destruct (SnakeApp.after_id a) as [id'|] eqn:Haid; [|set_solver].
  apply elem_of_singleton in Hin as ->. split; [done|]. by apply Hid.
Qed.

(** ** The display *)

(** X16: between two events the labels and the canvas show the game: the
    score and length labels are those of the game, the canvas holds what
    [draw] makes of the game, and its width and height are board size times
    cell size.  The state label is "State: Game Over" exactly when the snake
    is dead, "State: Running" exactly when the game is running, and
    "State: Ready" or "State: Paused" otherwise. *)
Theorem display_in_sync (a : SnakeApp.t) :
  app_reachable a →
  let g := SnakeApp.game a in
  let side :=
    SnakeConfig.grid_size (SnakeApp.config a)
    * SnakeConfig.cell_size (SnakeApp.config a) in
  SnakeApp.score_var a = "Score: " +:+ pretty (score g)
  ∧ SnakeApp.length_var a = "Length: " +:+ pretty (length (snake g))
  ∧ SnakeApp.canvas a = draw_items (SnakeApp.config a) g
  ∧ SnakeApp.canvas_width a = side ∧ SnakeApp.canvas_height a = side
  ∧ (SnakeApp.state_var a = "State: Game Over" ↔ alive g = false)
  ∧ (SnakeApp.state_var a = "State: Running" ↔ running g = true)
  ∧ (SnakeApp.state_var a = "State: Ready"
     ∨ SnakeApp.state_var a = "State: Paused"
     ↔ alive g = true ∧ running g = false).
Proof.
  intros Hreach g side. apply app_reachable_inv in Hreach as Hinv.
  destruct Hinv as (_ & _ & _ & Hra & Hst & (Hsc & Hln & Hcv) & Hw & Hh).
  fold g in Hra, Hst. unfold state_label in Hst.
  split_and!; try done;
    destruct (alive g), (running g); try (by specialize (Hra eq_refl));
    try (destruct Hst as [Hst | Hst]); rewrite Hst;
    split; try done; try (intros [? | ?]; done); try (intros [? ?]; done);
    try (by left); try (by right).
Qed.

(** ** The game of the application *)

(** X17: between two events the game of the application has the
    configuration of the application, which the settings form accepts, and
    it is a state the engine reaches from [reset] by [move] and
    [queue_direction] calls.  Its snake is always longer than one cell, so
    the queued direction is never the opposite of the current one and no
    tick turns the snake around, whatever keys are pressed. *)
Theorem app_game_is_engine_game (a : SnakeApp.t) :
  app_reachable a →
  let g := SnakeApp.game a in
  let cfg := SnakeApp.config a in
  config g = cfg
  ∧ settings_accept cfg
  ∧ reachable cfg (with_running false g)
  ∧ (1 < length (snake g))%nat
  ∧ ¬ is_opposite (pending_direction g) (direction g)
  ∧ ∀ rng b g' rng', move g rng = Ok (b, g', rng') →
      ¬ is_opposite (direction g') (direction g).
Proof.
  intros Hreach g cfg. apply app_reachable_inv in Hreach as Hinv.
  destruct Hinv as ((Hcfg & Hacc & Hgame) & _).
  fold g cfg in Hcfg, Hacc, Hgame.
  pose proof (reachable_length_ge _ _ Hgame) as Hlen.
  destruct (reachable_directions _ _ Hgame) as (Hd & _ & Hno).
  change (snake (with_running false g)) with (snake g) in Hlen, Hno.
  change (direction (with_running false g)) with (direction g) in Hd, Hno.
  change (pending_direction (with_running false g))
    with (pending_direction g) in Hno.
  assert (Hlong : (1 < length (snake g))%nat).
  { unfold settings_accept, MIN_INITIAL_LENGTH in Hacc. lia. }
  split_and!; try done; [by apply Hno|].
  intros rng b g' rng' Hmove. rewrite (move_direction _ _ _ _ _ Hmove).
  destruct (alive g); [by apply Hno|]. apply not_opposite_self.
Qed.

(** X18: no handler raises: from every state of the application every
    button, key and timer event, and every content of the settings form, is
    handled and leads to a state of the application again. *)
Theorem handlers_never_raise (a : SnakeApp.t) (e : event) (rng : list nat) :
  app_reachable a →
  ∃ a' rng', handle a e rng = Ok (a', rng') ∧ app_reachable a'.
Proof.
  intros Hreach. apply app_reachable_inv in Hreach as Hinv.
  destruct (handle_total a e rng Hinv) as (a' & rng' & Hstep & _).
  exists a', rng'. split; [done|]. by eapply app_step.
Qed.

Lemma Forall_imap {A B} (P : B → Prop) (f : nat → A → B) (l : list A) :
  (∀ i x, l !! i = Some x → P (f i x)) → Forall P (imap f l).
Proof.
  revert f. induction l as [|x l IH]; intros f Hf; simpl; [done|].
  constructor; [by apply (Hf 0%nat)|].
  apply IH. intros i y Hy. by apply (Hf (S i)).
Qed.

Lemma draw_items_inside cfg g :
  settings_accept cfg →
  Forall (in_grid (SnakeConfig.grid_size cfg)) (snake g) →
  (∀ p, p ∈ apples g → in_grid (SnakeConfig.grid_size cfg) p) →
  Forall (inside (SnakeConfig.grid_size cfg * SnakeConfig.cell_size cfg))
         (draw_items cfg g).
Proof.
  intros Hacc Hsnake Happles.
  unfold settings_accept, MIN_GRID_SIZE, MAX_GRID_SIZE, MIN_CELL_SIZE,
    MAX_CELL_SIZE in Hacc.
  destruct Hacc as (Hsize & Hcell & _).
  set (size := SnakeConfig.grid_size cfg) in *.
  set (cell := SnakeConfig.cell_size cfg) in *.
  unfold draw_items. fold size cell. cbv zeta.
  apply Forall_app. split; [|apply Forall_app; split; [|apply Forall_app; split]].
  - destruct (SnakeConfig.show_grid cfg); [|done].
    apply Forall_forall. intros it Hit.
    apply list_elem_of_bind in Hit as (i & Hit & Hi).
    unfold range in Hi. apply elem_of_seqZ in Hi.
    apply elem_of_cons in Hit as [-> | Hit];
      [|apply list_elem_of_singleton in Hit as ->]; simpl; nia.
  - apply Forall_fmap, Forall_forall. intros [x y] Hp.
    apply elem_of_elements, Happles in Hp. unfold in_grid in Hp.
    simpl in *. nia.
  - apply Forall_imap. intros i [x y] Hp.
    apply list_elem_of_lookup_2 in Hp.
    eapply Forall_forall in Hsnake; [|exact Hp]. unfold in_grid in Hsnake.
    simpl in *. nia.
  - destruct (alive g); simpl; [done|].
    assert (96 ≤ size * cell) by nia.
    assert (48 ≤ (size * cell) `div` 2) by (apply Z.div_le_lower_bound; lia).
    assert ((size * cell) `div` 2 + 20 ≤ size * cell).
    { assert ((size * cell) `div` 2 ≤ (size * cell - 40))
        by (apply Z.div_le_upper_bound; lia). lia. }
    repeat constructor; simpl; lia.
Qed.

(** X19: everything [draw] puts on the canvas lies on the canvas: every
    grid line, every apple oval, every snake rectangle and the overlay of a
    finished game have coordinates between 0 and the side of the canvas,
    and ovals and rectangles have a positive width and height. *)
Theorem shapes_inside_canvas (a : SnakeApp.t) :
  app_reachable a →
  Forall (inside (SnakeApp.canvas_width a)) (SnakeApp.canvas a)
  ∧ SnakeApp.canvas_height a = SnakeApp.canvas_width a
  ∧ 96 ≤ SnakeApp.canvas_width a ≤ 2880.
Proof.
  intros Hreach. apply app_reachable_inv in Hreach as Hinv.
  destruct Hinv as ((Hcfg & Hacc & Hgame) & _ & _ & _ & _
                    & (_ & _ & ->) & -> & ->).
  destruct (settings_accept_fit _ Hacc) as [Hfit _].
  destruct (reachable_on_board _ _ (proj2 Hfit) Hgame) as [Hsnake Hcells].
  split; [|split; [done|]].
  - apply draw_items_inside; [done | exact Hsnake |].
    intros p Hp. apply Hcells.
    change (apples (with_running false (SnakeApp.game a)))
      with (apples (SnakeApp.game a)).
    clear -Hp. set_solver.
  - unfold settings_accept, MIN_GRID_SIZE, MAX_GRID_SIZE, MIN_CELL_SIZE,
      MAX_CELL_SIZE in Hacc. nia.
Qed.

(** ** Start, pause and the end of the game *)

(** X20: on a live game that is not running, Start does what the pause
    toggle does.  On a running game Start is a tick out of turn: the pending
    callback is cancelled and the snake moves at once; after a successful
    move the display is redrawn and one new callback is queued, after a
    fatal one the game stops with "State: Game Over" and nothing
    queued. *)
Theorem start_on_live_game (a : SnakeApp.t) (rng : list nat) :
  (alive (SnakeApp.game a) = true → running (SnakeApp.game a) = false →
   start_game a rng = toggle_pause a rng)
  ∧ (app_reachable a → running (SnakeApp.game a) = true →
     start_game a rng = tick a rng
     ∧ ∃ b g rng',
         move (SnakeApp.game a) rng = Ok (b, g, rng')
         ∧ start_game a rng
           = Ok (if b
                 then SnakeApp.mk (SnakeApp.config a) g
                        (Some (SnakeApp.next_timer a))
                        ("Score: " +:+ pretty (score g))
                        ("Length: " +:+ pretty (length (snake g)))
                        "State: Running"
                        (SnakeApp.canvas_width a) (SnakeApp.canvas_height a)
                        (draw_items (SnakeApp.config a) g)
                        {[SnakeApp.next_timer a]}
                        (S (SnakeApp.next_timer a))
                 else SnakeApp.mk (SnakeApp.config a) (with_running false g)
                        None
                        ("Score: " +:+ pretty (score g))
                        ("Length: " +:+ pretty (length (snake g)))
                        "State: Game Over"
                        (SnakeApp.canvas_width a) (SnakeApp.canvas_height a)
                        (draw_items (SnakeApp.config a) g)
                        ∅ (SnakeApp.next_timer a),
                 rng')).
Proof.
  split.
  - intros Hal Hrun. unfold start_game, toggle_pause.
    rewrite Hal, Hrun. reflexivity.
  - intros Hreach Hrun. apply app_reachable_inv in Hreach as Hinv.
    destruct Hinv as (Hhost & Htm & _ & Hra & Hst & _).
    pose proof (Hra Hrun) as Hal. unfold state_label in Hst.
    rewrite Hal, Hrun in Hst.
    assert (Hstart : start_game a rng = tick a rng).
    { unfold start_game. rewrite Hal. cbn [negb mbind result_bind].
      f_equal. destruct a as [c [] aid sv lv st w h cv tm nt].
      simpl in *. by subst. }
    split; [done|]. rewrite Hstart.
    destruct (hosted_move a rng Hhost)
      as (b & g & rng' & Hmove & _ & _ & Hr & _).
    exists b, g, rng'. split; [done|].
    destruct (cancel_loop_spec a (reflexive_eq _ _ Htm)) as (tm & Hcl & ->).
    unfold tick. rewrite Hcl. cbn [SnakeApp.game]. rewrite Hrun, Hmove.
    cbn [negb mbind result_bind].
    destruct b; cbn; unfold with_after_id; cbn; rewrite Hst.
    + by rewrite (left_id_L ∅ (∪)).
    + reflexivity.
Qed.

(** X21: once the snake is dead the application shows "State: Game Over",
    the game is not running and no callback is queued; the canvas ends with
    the overlay (the stippled rectangle and the two texts); the pause toggle
    and every timer event leave the application as it is. *)
Theorem game_over_frozen (a : SnakeApp.t) (rng : list nat) :
  app_reachable a →
  alive (SnakeApp.game a) = false →
  SnakeApp.state_var a = "State: Game Over"
  ∧ running (SnakeApp.game a) = false
  ∧ SnakeApp.after_id a = None ∧ SnakeApp.timers a = ∅
  ∧ (∃ items,
       SnakeApp.canvas a
       = items ++ game_over_overlay (SnakeApp.canvas_width a))
  ∧ handle a PauseButton rng = Ok (a, rng)
  ∧ (∀ id, handle a (AfterFires id) rng = Ok (a, rng)).
Proof.
  intros Hreach Hal. apply app_reachable_inv in Hreach as Hinv.
  destruct Hinv as (_ & Htm & Hid & Hra & Hst & (_ & _ & Hcv) & Hw & _).
  unfold state_label in Hst. rewrite Hal in Hst.
  assert (Hrun : running (SnakeApp.game a) = false).
  { destruct (running (SnakeApp.game a)) eqn:Hr; [|done].
    specialize (Hra eq_refl). congruence. }
  assert (Haid : SnakeApp.after_id a = None).
  { destruct (SnakeApp.after_id a) eqn:Haid; [|done].
    destruct Hid as [Hid _].
    assert (running (SnakeApp.game a) = true) by (apply Hid; by eexists).
    congruence. }
  assert (Hnone : SnakeApp.timers a = ∅).
  { rewrite Htm. unfold pending_timer. by rewrite Haid. }
  split_and!; try done.
  - rewrite Hcv, Hw. unfold draw_items. rewrite Hal. cbn [negb].
    rewrite !app_assoc. by eexists.
  - unfold handle, toggle_pause. by rewrite Hal.
  - intros id. unfold handle. rewrite decide_False; [done|].
    rewrite Hnone. set_solver.
Qed.

(** ** Keys and the Reset button *)

(** X22: a key other than space never raises, never moves the snake and
    never touches the labels, the canvas or the timer: the application
    changes in the queued direction of its game at most.  The letters w, a,
    s and d do what the arrow keys do, every key without a binding does
    nothing, and space is the pause toggle.  After a key the queued
    direction is still not the opposite of the current one. *)
Theorem keys_only_steer (a : SnakeApp.t) (k : string) (rng : list nat) :
  (k ≠ "<space>" →
   ∃ a', handle a (Key k) rng = Ok (a', rng)
     ∧ same_but_pending (SnakeApp.game a) (SnakeApp.game a')
     ∧ with_game (SnakeApp.game a) a' = a
     ∧ (key_direction !! k = None → a' = a)
     ∧ (app_reachable a →
        ¬ is_opposite (pending_direction (SnakeApp.game a'))
                      (direction (SnakeApp.game a'))))
  ∧ handle a (Key "w") rng = handle a (Key "<Up>") rng
  ∧ handle a (Key "s") rng = handle a (Key "<Down>") rng
  ∧ handle a (Key "a") rng = handle a (Key "<Left>") rng
  ∧ handle a (Key "d") rng = handle a (Key "<Right>") rng
  ∧ handle a (Key "<space>") rng = handle a PauseButton rng.
Proof.
  split; [|by split_and!].
  intros Hk.
  assert (Hgo : ∃ a', handle a (Key k) rng = Ok (a', rng)
                  ∧ same_but_pending (SnakeApp.game a) (SnakeApp.game a')
                  ∧ with_game (SnakeApp.game a) a' = a
                  ∧ (key_direction !! k = None → a' = a)).
  { unfold handle, press_key. destruct (key_direction !! k) as [d|].
    - eexists. split; [reflexivity|].
      split_and!; [apply queue_direction_same | by destruct a | done].
    - rewrite decide_False by done. exists a.
      split_and!; [done | | by destruct a | done].
      unfold same_but_pending. by destruct (SnakeApp.game a). }
  destruct Hgo as (a' & Hstep & Hsame & Hrest & Hnone).
  exists a'. split_and!; try done.
  intros Hreach.
  assert (Hinv : app_inv a').
  { apply app_reachable_inv. by eapply app_step. }
  destruct Hinv as ((_ & Hacc & Hgame) & _).
  pose proof (reachable_length_ge _ _ Hgame) as Hlen.
  destruct (reachable_directions _ _ Hgame) as (_ & _ & Hno).
  apply Hno. change (snake (with_running false (SnakeApp.game a')))
    with (snake (SnakeApp.game a')) in *.
  unfold settings_accept, MIN_INITIAL_LENGTH in Hacc. lia.
Qed.

(** X23: the Reset button never raises in a state of the application.  It
    cancels the timer and replaces the game by the game [reset] makes for
    the current configuration: a consistent game with the configured length
    and number of apples, score 0, alive and not running.  The label shows
    "State: Ready", the score label "Score: 0", and the canvas the new
    game. *)
Theorem reset_game_spec (a : SnakeApp.t) (rng : list nat) :
  app_reachable a →
  let cfg := SnakeApp.config a in
  ∃ a' rng',
    reset_game a rng = Ok (a', rng')
    ∧ reset cfg rng = Ok (SnakeApp.game a', rng')
    ∧ SnakeApp.config a' = cfg
    ∧ SnakeApp.after_id a' = None ∧ SnakeApp.timers a' = ∅
    ∧ SnakeApp.state_var a' = "State: Ready"
    ∧ SnakeApp.score_var a' = "Score: 0"
    ∧ SnakeApp.canvas a' = draw_items cfg (SnakeApp.game a')
    ∧ SnakeApp.canvas_width a' = SnakeApp.canvas_width a
    ∧ consistent (SnakeApp.game a')
    ∧ Z.of_nat (length (snake (SnakeApp.game a')))
      = SnakeConfig.initial_length cfg
    ∧ Z.of_nat (size (apples (SnakeApp.game a'))) = SnakeConfig.apples cfg
    ∧ alive (SnakeApp.game a') = true ∧ running (SnakeApp.game a') = false.
Proof.
  intros Hreach cfg. apply app_reachable_inv in Hreach as Hinv.
  destruct Hinv as ((_ & Hacc & _) & Htm & _). fold cfg in Hacc.
  destruct (hosted_reset cfg rng Hacc)
    as (g & rng' & Hreset & _ & Hrun & Hal & _).
  assert (Hfit : SnakeConfig.initial_length cfg ≤ SnakeConfig.grid_size cfg)
    by (destruct (settings_accept_fit cfg Hacc); lia).
  pose proof (consistent_reset cfg rng g rng' Hfit Hreset) as Hcons.
  destruct (reset_room cfg rng g rng' Hfit Hreset) as [Hlen Hroom].
  assert (Hap : Z.of_nat (size (apples g)) = SnakeConfig.apples cfg).
  { pose proof Hreset as Hr.
    apply reset_inv in Hr as (_ & _ & _ & _ & _ & _ & Hcount & _).
    rewrite Hcount, Hroom.
    unfold settings_accept, MIN_GRID_SIZE, MIN_APPLES, MIN_INITIAL_LENGTH
      in Hacc. nia. }
  assert (Hscore : score g = 0).
  { pose proof Hreset as Hr.
    by apply reset_inv in Hr as (_ & _ & _ & _ & _ & _ & _ & _ & _ & _ & _
                                 & _ & _ & ?). }
  unfold reset_game.
  replace (SnakeApp.config (_cancel_loop a)) with cfg
    by (by destruct a as [c g0 [id|] sv lv st w h cv tm nt]).
  rewrite Hreset. cbn [mbind result_bind].
  do 2 eexists. split; [reflexivity|]. subst cfg.
  destruct a as [c g0 [id|] sv lv st w h cv tm nt]; app_simpl; subst;
    rewrite ?Hscore;
    split_and!;
    lazymatch goal with
    | |- @eq (gset _) _ _ => clear; set_solver
    | |- _ => assumption || reflexivity
    end.
Qed.

(** * The further properties on concrete games *)

(** A game that ran into the right wall after four ticks. *)
Lemma move_reports_alive_witness :
  let s := state_after cfg_four [Move; Move; Move] draws_four in
  let s' := state_after cfg_four [Move; Move; Move; Move] draws_four in
  alive s' = false
  ∧ config s' = config s ∧ grid s' = grid s ∧ running s' = running s
  ∧ pending_direction s' = pending_direction s
  ∧ (alive s = true → direction s' = pending_direction s)
  ∧ (false = false →
     snake s' = snake s ∧ snake_set s' = snake_set s ∧ apples s' = apples s
     ∧ free_tiles s' = free_tiles s ∧ score s' = score s
     ∧ [32%nat] = [32%nat]).
Proof.
  intros s s'.
  apply (move_reports_alive s [32%nat] false s' [32%nat]). by_eval.
Defined.

Lemma game_over_is_terminal_witness :
  let s := state_after cfg_four [Move; Move; Move; Move] draws_four in
  ∃ s', run_calls [Move; Queue "up"; Move; Queue "left"; Move] s [5%nat]
        = Ok (s', [5%nat])
    ∧ alive s' = false ∧ snake s' = snake s ∧ snake_set s' = snake_set s
    ∧ apples s' = apples s ∧ free_tiles s' = free_tiles s
    ∧ score s' = score s ∧ direction s' = direction s.
Proof.
  intros s.
  apply (game_over_is_terminal [Move; Queue "up"; Move; Queue "left"; Move]
           s [5%nat]).
  by_eval.
Defined.

Lemma move_advances_head_witness :
  let s := state_after cfg_four [Queue "up"] draws_four in
  let s' := state_after cfg_four [Queue "up"; Move] draws_four in
  ∃ hx hy dx dy nh,
    head (snake s) = Some (hx, hy)
    ∧ Z.abs dx + Z.abs dy = 1
    ∧ nh = (if SnakeConfig.wrap_walls (config s)
            then ((hx + dx) `mod` SnakeConfig.grid_size (config s),
                  (hy + dy) `mod` SnakeConfig.grid_size (config s))
            else (hx + dx, hy + dy))
    ∧ (SnakeConfig.wrap_walls (config s) = false →
       in_grid (SnakeConfig.grid_size (config s)) nh)
    ∧ (snake s' = nh :: snake s ∨ snake s' = nh :: removelast (snake s)).
Proof.
  intros s s'.
  apply (move_advances_head s [32%nat] s' [32%nat]). by_eval.
Defined.

Lemma no_reversal_witness :
  let s := state_after cfg_four (steer ["up"; "left"]) draws_four in
  direction s ∈ valid_directions ∧ pending_direction s ∈ valid_directions
  ∧ ((1 < length (snake s))%nat →
     ¬ is_opposite (pending_direction s) (direction s)
     ∧ ∀ rng b s' rng', move s rng = Ok (b, s', rng') →
         ¬ is_opposite (direction s') (direction s)).
Proof.
  intros s. apply (no_reversal cfg_four s).
  apply state_after_reachable. by_eval.
Defined.

Lemma reset_raises_witness :
  reset (cfg_small 8 0 1) [] = Raise ValueError
  ∧ reset (cfg_small 0 1 1) [] = Raise IndexError
  ∧ reset (cfg_small 3 5 1) [] = Raise IndexError.
Proof.
  destruct (reset_raises (cfg_small 8 0 1) []) as (Hvalue & _ & _).
  destruct (reset_raises (cfg_small 0 1 1) []) as (_ & Hboard & _).
  destruct (reset_raises (cfg_small 3 5 1) []) as (_ & _ & Hlong).
  split_and!.
  - apply Hvalue. simpl. lia.
  - apply Hboard; simpl; lia.
  - apply Hlong; simpl; lia.
Defined.

Lemma reset_one_too_long_witness :
  ∃ s rng', reset (cfg_small 3 4 1) [] = Ok (s, rng')
    ∧ snake s = line (3 - 1) (3 `div` 2) (3 + 1)
    ∧ last (snake s) = Some (-1, 3 `div` 2)
    ∧ (-1, 3 `div` 2) ∈ snake_set s
    ∧ ¬ in_grid 3 (-1, 3 `div` 2)
    ∧ ¬ partitioned s.
Proof.
  apply (reset_one_too_long (cfg_small 3 4 1) []); simpl; lia.
Defined.

Lemma bookkeeping_preserved_witness :
  let s := state_after cfg_four [] draws_four in
  (∀ d, consistent (queue_direction s d))
  ∧ ∀ rng b s' rng',
      move s rng = Ok (b, s', rng') →
      (b = true → ∀ tl, new_head (committed s) = Ok (Some tl) →
                        last (snake s) ≠ Some tl) →
      consistent s'.
Proof.
  intros s. apply (bookkeeping_preserved s).
  - apply (consistent_reset cfg_four draws_four s [32%nat]).
    + simpl. lia.
    + by_eval.
  - assert (Hcfg : config s = cfg_four) by by_eval.
    rewrite Hcfg. simpl. lia.
Defined.

Lemma reset_counts_witness :
  let s := state_after cfg_full [] [] in
  consistent s
  ∧ Z.of_nat (length (snake s)) = 2
  ∧ Z.of_nat (size (apples s)) = Z.max 0 (Z.min 62 (8 * 8 - 2))
  ∧ Z.of_nat (size (free_tiles s)) = 8 * 8 - 2 - Z.of_nat (size (apples s)).
Proof.
  intros s. apply (reset_counts cfg_full [] s []).
  - simpl. lia.
  - by_eval.
Defined.

Lemma cells_stay_on_board_witness :
  let s :=
    state_after cfg_four (steer ["up"; "left"; "down"; "down"]) draws_four in
  Forall (in_grid 8) (snake s)
  ∧ snake_set s ∪ apples s ∪ free_tiles s = all_cells 8.
Proof.
  intros s. apply (cells_stay_on_board cfg_four s).
  - simpl. lia.
  - apply state_after_reachable. by_eval.
Defined.

Lemma queue_direction_last_wins_witness :
  let s := state_after cfg_four [] draws_four in
  queue_direction (queue_direction s "up") "down"
  = with_pending_direction "down" s
  ∧ queue_direction (queue_direction s "up") "left" = queue_direction s "up"
  ∧ queue_direction (queue_direction s "up") "up" = queue_direction s "up".
Proof.
  intros s.
  destruct (queue_direction_last_wins s "up" "down") as (Hacc & _ & _).
  destruct (queue_direction_last_wins s "up" "left") as (_ & Hrej & _).
  destruct (queue_direction_last_wins s "up" "up") as (_ & _ & Hsame).
  split_and!; [apply Hacc | apply Hrej | exact Hsame]; by_eval.
Defined.

Lemma apple_count_bounds_witness :
  let s := state_after cfg_full (steer ["right"; "right"]) [] in
  Z.min 62 (Z.of_nat (size (free_tiles s))) ≤ Z.of_nat (size (apples s))
  ∧ Z.of_nat (size (apples s)) ≤ Z.max 0 62.
Proof.
  intros s. apply (apple_count_bounds cfg_full s).
  apply state_after_reachable. by_eval.
Defined.

Lemma engine_never_raises_witness :
  ∃ s rng', run cfg_six (steer ["up"; "left"; "left"; "down"]) [7%nat]
            = Ok (s, rng').
Proof.
  apply (engine_never_raises cfg_six (steer ["up"; "left"; "left"; "down"])
           [7%nat]).
  simpl. lia.
Defined.

(** The form as the application shows it at its start. *)
Lemma read_settings_spec_witness :
  read_settings (form_of SnakeConfig.default) = inl SnakeConfig.default
  ∧ 56 ≤ 20 * 20 - 3 ∧ 3 ≤ 20 * 20 - 3 ∧ 96 ≤ 20 * 28 ≤ 2880.
Proof.
  destruct (read_settings_spec (form_of SnakeConfig.default)
              SnakeConfig.default) as (Hiff & Hroom & _).
  assert (Hread : read_settings (form_of SnakeConfig.default)
                  = inl SnakeConfig.default).
  { apply Hiff. split; [reflexivity | exact default_accepted]. }
  split; [exact Hread|]. exact (Hroom Hread).
Defined.

(** A running game: Start, then the first callback. *)
Lemma apply_settings_spec_witness :
  let a := app_after [StartButton; AfterFires 0] [] in
  match read_settings (form_of cfg_full) with
  | inr msg => apply_settings a (form_of cfg_full) [] = Ok (a, Some msg, [])
  | inl cfg =>
      ∃ a' rng',
        apply_settings a (form_of cfg_full) [] = Ok (a', None, rng')
        ∧ reset cfg [] = Ok (SnakeApp.game a', rng')
        ∧ SnakeApp.config a' = cfg
        ∧ SnakeApp.after_id a' = None ∧ SnakeApp.timers a' = ∅
        ∧ SnakeApp.state_var a' = "State: Ready"
        ∧ SnakeApp.canvas_width a'
          = SnakeConfig.grid_size cfg * SnakeConfig.cell_size cfg
        ∧ SnakeApp.canvas_height a' = SnakeApp.canvas_width a'
        ∧ SnakeApp.canvas a' = draw_items cfg (SnakeApp.game a')
        ∧ consistent (SnakeApp.game a')
        ∧ Z.of_nat (length (snake (SnakeApp.game a')))
          = SnakeConfig.initial_length cfg
        ∧ Z.of_nat (size (apples (SnakeApp.game a'))) = SnakeConfig.apples cfg
  end.
Proof.
  intros a. apply (apply_settings_spec a (form_of cfg_full) []).
  apply app_after_reachable. by_eval.
Defined.

Lemma one_pending_tick_witness :
  let a := app_after [StartButton; AfterFires 0] [] in
  SnakeApp.timers a = pending_timer a
  ∧ (is_Some (SnakeApp.after_id a) ↔ running (SnakeApp.game a) = true)
  ∧ (running (SnakeApp.game a) = true → alive (SnakeApp.game a) = true)
  ∧ ∀ id, id ∈ SnakeApp.timers a →
          SnakeApp.after_id a = Some id ∧ running (SnakeApp.game a) = true.
Proof.
  intros a. apply (one_pending_tick a).
  apply app_after_reachable. by_eval.
Defined.

Lemma display_in_sync_witness :
  let a := app_after [StartButton; Key "w"; AfterFires 0; PauseButton] [] in
  let g := SnakeApp.game a in
  let side :=
    SnakeConfig.grid_size (SnakeApp.config a)
    * SnakeConfig.cell_size (SnakeApp.config a) in
  SnakeApp.score_var a = "Score: " +:+ pretty (score g)
  ∧ SnakeApp.length_var a = "Length: " +:+ pretty (length (snake g))
  ∧ SnakeApp.canvas a = draw_items (SnakeApp.config a) g
  ∧ SnakeApp.canvas_width a = side ∧ SnakeApp.canvas_height a = side
  ∧ (SnakeApp.state_var a = "State: Game Over" ↔ alive g = false)
  ∧ (SnakeApp.state_var a = "State: Running" ↔ running g = true)
  ∧ (SnakeApp.state_var a = "State: Ready"
     ∨ SnakeApp.state_var a = "State: Paused"
     ↔ alive g = true ∧ running g = false).
Proof.
  intros a. apply (display_in_sync a).
  apply app_after_reachable. by_eval.
Defined.

Lemma app_game_is_engine_game_witness :
  let a := app_after [StartButton; Key "w"; AfterFires 0; Key "s"] [] in
  let g := SnakeApp.game a in
  let cfg := SnakeApp.config a in
  config g = cfg
  ∧ settings_accept cfg
  ∧ reachable cfg (with_running false g)
  ∧ (1 < length (snake g))%nat
  ∧ ¬ is_opposite (pending_direction g) (direction g)
  ∧ ∀ rng b g' rng', move g rng = Ok (b, g', rng') →
      ¬ is_opposite (direction g') (direction g).
Proof.
  intros a. apply (app_game_is_engine_game a).
  apply app_after_reachable. by_eval.
Defined.

Lemma handlers_never_raise_witness :
  let a := app_after [StartButton] [] in
  ∃ a' rng', handle a (AfterFires 0) [4%nat] = Ok (a', rng')
    ∧ app_reachable a'.
Proof.
  intros a. apply (handlers_never_raise a (AfterFires 0) [4%nat]).
  apply app_after_reachable. by_eval.
Defined.

(** A finished game: Start, and nine callbacks bring the snake to the right
    wall. *)
Lemma shapes_inside_canvas_witness :
  let a :=
    app_after (StartButton :: (AfterFires <$> seq 0 9)) [] in
  Forall (inside (SnakeApp.canvas_width a)) (SnakeApp.canvas a)
  ∧ SnakeApp.canvas_height a = SnakeApp.canvas_width a
  ∧ 96 ≤ SnakeApp.canvas_width a ≤ 2880.
Proof.
  intros a. apply (shapes_inside_canvas a).
  apply app_after_reachable. by_eval.
Defined.

Lemma start_on_live_game_witness :
  let a0 := app_after [] [] in
  let a := app_after [StartButton] [] in
  start_game a0 [] = toggle_pause a0 []
  ∧ start_game a [] = tick a [].
Proof.
  intros a0 a.
  destruct (start_on_live_game a0 []) as [Hpaused _].
  destruct (start_on_live_game a []) as [_ Hrunning].
  split.
  - apply Hpaused; by_eval.
  - apply Hrunning; [apply app_after_reachable|]; by_eval.
Defined.

Lemma game_over_frozen_witness :
  let a :=
    app_after (StartButton :: (AfterFires <$> seq 0 9)) [] in
  SnakeApp.state_var a = "State: Game Over"
  ∧ running (SnakeApp.game a) = false
  ∧ SnakeApp.after_id a = None ∧ SnakeApp.timers a = ∅
  ∧ (∃ items,
       SnakeApp.canvas a
       = items ++ game_over_overlay (SnakeApp.canvas_width a))
  ∧ handle a PauseButton [] = Ok (a, [])
  ∧ (∀ id, handle a (AfterFires id) [] = Ok (a, [])).
Proof.
  intros a. apply (game_over_frozen a []).
  - apply app_after_reachable. by_eval.
  - by_eval.
Defined.

Lemma keys_only_steer_witness :
  let a := app_after [StartButton] [] in
  (∃ a', handle a (Key "<Left>") [] = Ok (a', [])
     ∧ same_but_pending (SnakeApp.game a) (SnakeApp.game a')
     ∧ with_game (SnakeApp.game a) a' = a
     ∧ (key_direction !! "<Left>" = None → a' = a)
     ∧ (app_reachable a →
        ¬ is_opposite (pending_direction (SnakeApp.game a'))
                      (direction (SnakeApp.game a'))))
  ∧ handle a (Key "w") [] = handle a (Key "<Up>") []
  ∧ handle a (Key "<space>") [] = handle a PauseButton [].
Proof.
  intros a.
  destruct (keys_only_steer a "<Left>" []) as (Hkey & _).
  destruct (keys_only_steer a "w" []) as (_ & Hw & _ & _ & _ & Hspace).
  split_and!; [apply Hkey; discriminate | exact Hw | exact Hspace].
Defined.

Lemma reset_game_spec_witness :
  let a := app_after [StartButton; AfterFires 0] [] in
  let cfg := SnakeApp.config a in
  ∃ a' rng',
    reset_game a [] = Ok (a', rng')
    ∧ reset cfg [] = Ok (SnakeApp.game a', rng')
    ∧ SnakeApp.config a' = cfg
    ∧ SnakeApp.after_id a' = None ∧ SnakeApp.timers a' = ∅
    ∧ SnakeApp.state_var a' = "State: Ready"
    ∧ SnakeApp.score_var a' = "Score: 0"
    ∧ SnakeApp.canvas a' = draw_items cfg (SnakeApp.game a')
    ∧ SnakeApp.canvas_width a' = SnakeApp.canvas_width a
    ∧ consistent (SnakeApp.game a')
    ∧ Z.of_nat (length (snake (SnakeApp.game a')))
      = SnakeConfig.initial_length cfg
    ∧ Z.of_nat (size (apples (SnakeApp.game a'))) = SnakeConfig.apples cfg
    ∧ alive (SnakeApp.game a') = true ∧ running (SnakeApp.game a') = false.
Proof.
  intros a. apply (reset_game_spec a []).
  apply app_after_reachable. by_eval.
Defined.
